(** * PersonTracker.update (src/app.py, lines 26-110)

    A shallow embedding of the centroid tracker of the person counter and the
    properties its specification states about it.

    Modelling decisions, each taken from the source:

    - [self.tracks] is a Python dict; iteration follows insertion order, which
      the matching loop observes (tie-breaking), so it is an association list
      in insertion order.  A dict holds a key once: [dict_ok] says so.
    - Every operation of the source that can raise (a dict subscript, a list
      subscript, [del], reading a local that was never bound, the float
      division of line 44, [np.sqrt] of line 74) is kept as a fallible step
      in the [Py] monad; nothing is assumed to succeed.
    - Track ids, counters and centroid coordinates are Python ints: [Z].
    - Rectangles are 4-tuples of integer pixel coordinates.  The arithmetic
      is modelled twice.  [update] is the method over exact integers:
      [int((x1 + x2) / 2)] is the quotient truncated toward zero and the
      distance is compared through its square.  [update_checked] is the
      method with the faults of the arithmetic: the division of line 44
      goes through a double ([round53], [OverflowError] beyond the float
      range) and [np.sqrt] refuses an integer of 2^64 or more
      ([TypeError]).  [update_checked_exact] shows that the two agree on a
      tracker and detections whose coordinates are within 2^30 in absolute
      value ([in_range]), and [update_in_range] that such a tracker stays
      in range.  [process_video] passes the detector's float boxes; those
      are outside the embedding.
    - Line 74 takes [np.sqrt] of an integer sum of squares and line 77 compares
      the root with 100 and with the best root so far.  The model keeps the
      sum of squares [d2] and compares it with [100 * 100]: the root of an
      integer [d2] is below 100 exactly when [d2 <= 9999], and [min_dist] only
      ever holds [inf] or the root of a sum below 10000, where distinct
      integers have distinct, equally ordered roots.  [euclid] is the real
      distance, and [euclid_within_gate], [euclid_le] and [euclid_lt] relate
      the comparisons of squares to comparisons of distances.
    - [self.max_disappeared] is written once, in [__init__], with 10 and never
      again: it is the constant [max_disappeared]. *)

From Stdlib Require Import ZArith List Bool Lia PeanoNat Reals Lra Sorted.
From Stdlib Require Ascii String.
Import ListNotations.
Open Scope Z_scope.

Set Implicit Arguments.

(** ** Exceptions *)

Inductive PyExc : Type :=
| KeyError
| IndexError
| UnboundLocalError
| OverflowError
| TypeError.

Inductive Py (A : Type) : Type :=
| Ret (a : A)
| Raise (e : PyExc).

Arguments Ret {A} a.
Arguments Raise {A} e.

Definition bind {A B : Type} (m : Py A) (k : A -> Py B) : Py B :=
  match m with
  | Ret a => k a
  | Raise e => Raise e
  end.

Notation "x <- m ;; k" := (bind m (fun x => k))
  (at level 61, m at next level, right associativity).

(** ** Lists and sets as the source uses them *)

(** [l[i]] for a non-negative index. *)
Definition list_get {A : Type} (l : list A) (i : nat) : Py A :=
  match nth_error l i with
  | Some a => Ret a
  | None => Raise IndexError
  end.

(** [enumerate(l)]. *)
Definition enumerate {A : Type} (l : list A) : list (nat * A) :=
  combine (seq 0 (length l)) l.

(** [used_rows] and [used_cols]: sets of indices, only tested and added to. *)
Definition index_set : Type := list nat.

Definition set_in (i : nat) (s : index_set) : bool := existsb (Nat.eqb i) s.

Definition set_add (i : nat) (s : index_set) : index_set :=
  if set_in i s then s else i :: s.

(** ** Insertion-ordered dicts *)

Section Dict.
Variables K V : Type.
Variable eqb : K -> K -> bool.

Definition dict : Type := list (K * V).

Fixpoint lookup (k : K) (d : dict) : option V :=
  match d with
  | [] => None
  | (k', v) :: r => if eqb k k' then Some v else lookup k r
  end.

(** [d[k]] *)
Definition dict_get (k : K) (d : dict) : Py V :=
  match lookup k d with
  | Some v => Ret v
  | None => Raise KeyError
  end.

(** [d[k] = v]: in place when the key is held, appended otherwise. *)
Fixpoint dict_set (k : K) (v : V) (d : dict) : dict :=
  match d with
  | [] => [(k, v)]
  | (k', v') :: r =>
      if eqb k k' then (k', v) :: r else (k', v') :: dict_set k v r
  end.

Fixpoint remove_key (k : K) (d : dict) : dict :=
  match d with
  | [] => []
  | (k', v') :: r => if eqb k k' then r else (k', v') :: remove_key k r
  end.

(** [del d[k]] *)
Definition dict_del (k : K) (d : dict) : Py dict :=
  match lookup k d with
  | Some _ => Ret (remove_key k d)
  | None => Raise KeyError
  end.

(** [list(d.keys())], [d.values()] *)
Definition dict_keys (d : dict) : list K := map fst d.
Definition dict_values (d : dict) : list V := map snd d.

(** A dict holds every key once. *)
Fixpoint dict_ok (d : dict) : bool :=
  match d with
  | [] => true
  | (k, _) :: r => negb (existsb (eqb k) (dict_keys r)) && dict_ok r
  end.
End Dict.

(** ** The tracker's data *)

Definition point : Type := (Z * Z)%type.

(** A rectangle [(x1, y1, x2, y2)]. *)
Definition rect : Type := (Z * Z * Z * Z)%type.

(** The inner dict [{'centroid': ..., 'disappeared': ...}] of a track. *)
Record Track : Type := mkTrack {
  centroid : point;
  disappeared : Z
}.

Definition set_centroid (c : point) (t : Track) : Track :=
  mkTrack c (disappeared t).

Definition set_disappeared (n : Z) (t : Track) : Track :=
  mkTrack (centroid t) n.

Definition tracks_t : Type := dict Z Track.

Record PersonTracker : Type := mkTracker {
  tracks : tracks_t;
  next_id : Z
}.

Definition with_tracks (d : tracks_t) (self : PersonTracker) : PersonTracker :=
  mkTracker d (next_id self).

(** [PersonTracker()] (lines 27-30). *)
Definition init : PersonTracker := mkTracker [] 1.

Definition max_disappeared : Z := 10.

(** The distance gate of line 77, in pixels. *)
Definition gate : Z := 100.

(** ** Lines 33-39: a frame without detections *)

(** [self.tracks[track_id]['disappeared'] += 1] *)
Definition tick (track_id : Z) (d : tracks_t) : Py tracks_t :=
  t <- dict_get Z.eqb track_id d ;;
  Ret (dict_set Z.eqb track_id (set_disappeared (disappeared t + 1) t) d).

(** Lines 37-38 and 107-108. *)
Definition drop_if_stale (track_id : Z) (d : tracks_t) : Py tracks_t :=
  t <- dict_get Z.eqb track_id d ;;
  if disappeared t >? max_disappeared then dict_del Z.eqb track_id d
  else Ret d.

(** The loop of lines 35-38 over the snapshot [list(self.tracks.keys())]. *)
Fixpoint age_all (ids : list Z) (d : tracks_t) : Py tracks_t :=
  match ids with
  | [] => Ret d
  | track_id :: rest =>
      d1 <- tick track_id d ;;
      d2 <- drop_if_stale track_id d1 ;;
      age_all rest d2
  end.

(** ** Lines 42-46: centroids *)

(** [int(s / 2)] for an integer [s] below 2^53 in absolute value, where
    the float division is exact: truncation toward zero.
    [int_half_checked], below, follows the division through the double
    for every [s]. *)
Definition int_half (s : Z) : Z := Z.quot s 2.

Definition centroid_of (r : rect) : point :=
  let '(x1, y1, x2, y2) := r in (int_half (x1 + x2), int_half (y1 + y2)).

(** ** Lines 48-54 and 96-103: new tracks *)

(** [self.tracks[self.next_id] = {...}; self.next_id += 1] *)
Definition register (c : point) (self : PersonTracker) : PersonTracker :=
  mkTracker (dict_set Z.eqb (next_id self) (mkTrack c 0) (tracks self))
            (next_id self + 1).

Fixpoint register_all (cs : list point) (self : PersonTracker) : PersonTracker :=
  match cs with
  | [] => self
  | c :: rest => register_all rest (register c self)
  end.

(** Lines 97-103: one new track per detection whose index is not in
    [used_rows]. *)
Fixpoint register_unassigned (ics : list (nat * point)) (used_rows : index_set)
    (self : PersonTracker) : PersonTracker :=
  match ics with
  | [] => self
  | (i, c) :: rest =>
      if set_in i used_rows then register_unassigned rest used_rows self
      else register_unassigned rest used_rows (register c self)
  end.

(** ** Lines 57-85: greedy nearest-centroid assignment *)

(** Line 58. *)
Fixpoint centroids_of (ids : list Z) (d : tracks_t) : Py (list point) :=
  match ids with
  | [] => Ret []
  | tid :: rest =>
      t <- dict_get Z.eqb tid d ;;
      cs <- centroids_of rest d ;;
      Ret (centroid t :: cs)
  end.

(** The sum of squares under the root of line 74. *)
Definition dist2 (a b : point) : Z :=
  (fst a - fst b) ^ 2 + (snd a - snd b) ^ 2.

(** [min_dist]: [float('inf')] or the distance of the best track so far, kept
    as its square. *)
Inductive best_dist : Type :=
| Inf
| Fin (d2 : Z).

Definition closer (d2 : Z) (m : best_dist) : bool :=
  match m with
  | Inf => true
  | Fin m2 => d2 <? m2
  end.

(** The locals of the inner loop.  [best_col] is bound nowhere before line 80
    and is not reset at line 66-67, so it survives from one detection to the
    next; [None] is the unbound local. *)
Record scan : Type := mkScan {
  min_dist : best_dist;
  best_track : option Z;
  best_col : option nat
}.

(** Lines 69-80, on sums of squares that [np.sqrt] accepts (below 2^64);
    [scan_tracks_checked], below, keeps the refusal. *)
Fixpoint scan_tracks (input_centroid : point) (track_centroids : list point)
    (used_cols : index_set) (cols : list (nat * Z)) (s : scan) : Py scan :=
  match cols with
  | [] => Ret s
  | (j, track_id) :: rest =>
      if set_in j used_cols then
        scan_tracks input_centroid track_centroids used_cols rest s
      else
        track_centroid <- list_get track_centroids j ;;
        let d2 := dist2 input_centroid track_centroid in
        if closer d2 (min_dist s) && (d2 <? gate * gate) then
          scan_tracks input_centroid track_centroids used_cols rest
            (mkScan (Fin d2) (Some track_id) (Some j))
        else
          scan_tracks input_centroid track_centroids used_cols rest s
  end.

(** The locals of the outer loop. *)
Record assign : Type := mkAssign {
  assignments : dict nat Z;
  used_rows : index_set;
  used_cols : index_set;
  last_col : option nat
}.

(** Lines 61-63; [best_col] is unbound. *)
Definition no_assign : assign := mkAssign [] [] [] None.

(** Lines 65-85. *)
Fixpoint assign_loop (ics : list (nat * point)) (track_ids : list Z)
    (track_centroids : list point) (a : assign) : Py assign :=
  match ics with
  | [] => Ret a
  | (i, input_centroid) :: rest =>
      s <- scan_tracks input_centroid track_centroids (used_cols a)
             (enumerate track_ids) (mkScan Inf None (last_col a)) ;;
      match best_track s with
      | Some tid =>
          col <- match best_col s with
                 | Some j => Ret j
                 | None => Raise UnboundLocalError
                 end ;;
          assign_loop rest track_ids track_centroids
            (mkAssign (dict_set Nat.eqb i tid (assignments a))
                      (set_add i (used_rows a))
                      (set_add col (used_cols a))
                      (best_col s))
      | None =>
          assign_loop rest track_ids track_centroids
            (mkAssign (assignments a) (used_rows a) (used_cols a) (best_col s))
      end
  end.

(** ** Lines 87-94: refresh or age every existing track *)

(** [track_id in assignments.values()] *)
Definition assigned (track_id : Z) (asg : dict nat Z) : bool :=
  existsb (Z.eqb track_id) (dict_values asg).

(** [[k for k, v in assignments.items() if v == track_id]] *)
Definition rows_of (track_id : Z) (asg : dict nat Z) : list nat :=
  map fst (filter (fun kv => snd kv =? track_id) asg).

Fixpoint refresh_loop (ids : list Z) (asg : dict nat Z)
    (input_centroids : list point) (d : tracks_t) : Py tracks_t :=
  match ids with
  | [] => Ret d
  | track_id :: rest =>
      if assigned track_id asg then
        input_idx <- list_get (rows_of track_id asg) 0 ;;
        c <- list_get input_centroids input_idx ;;
        t <- dict_get Z.eqb track_id d ;;
        let d1 := dict_set Z.eqb track_id (set_centroid c t) d in
        t1 <- dict_get Z.eqb track_id d1 ;;
        let d2 := dict_set Z.eqb track_id (set_disappeared 0 t1) d1 in
        refresh_loop rest asg input_centroids d2
      else
        d1 <- tick track_id d ;;
        refresh_loop rest asg input_centroids d1
  end.

(** ** Lines 105-108: remove stale tracks *)

Fixpoint prune_loop (ids : list Z) (d : tracks_t) : Py tracks_t :=
  match ids with
  | [] => Ret d
  | track_id :: rest =>
      d1 <- drop_if_stale track_id d ;;
      prune_loop rest d1
  end.

(** ** [update] *)

(** Lines 56-108, the branch taken when tracks and detections are both
    present. *)
Definition associate (input_centroids : list point) (self : PersonTracker)
    : Py PersonTracker :=
  let track_ids := dict_keys (tracks self) in
  track_centroids <- centroids_of track_ids (tracks self) ;;
  a <- assign_loop (enumerate input_centroids) track_ids track_centroids
         no_assign ;;
  d1 <- refresh_loop track_ids (assignments a) input_centroids (tracks self) ;;
  let self1 :=
    register_unassigned (enumerate input_centroids) (used_rows a)
      (with_tracks d1 self) in
  d2 <- prune_loop (dict_keys (tracks self1)) (tracks self1) ;;
  Ret (with_tracks d2 self1).

(** Lines 32-110.  The result pairs the returned list with the tracker as the
    call leaves it. *)
Definition update (self : PersonTracker) (detections : list rect)
    : Py (list Z * PersonTracker) :=
  if (length detections =? 0)%nat then
    d <- age_all (dict_keys (tracks self)) (tracks self) ;;
    Ret ([], with_tracks d self)
  else
    let input_centroids := map centroid_of detections in
    self1 <- (if (length (tracks self) =? 0)%nat
              then Ret (register_all input_centroids self)
              else associate input_centroids self) ;;
    Ret (dict_keys (tracks self1), self1).

(** The [assignments] dict a call builds; a call that does not reach line 63
    assigns nothing. *)
Definition matching (self : PersonTracker) (detections : list rect)
    : Py (dict nat Z) :=
  if (length detections =? 0)%nat then Ret []
  else if (length (tracks self) =? 0)%nat then Ret []
  else
    let track_ids := dict_keys (tracks self) in
    track_centroids <- centroids_of track_ids (tracks self) ;;
    a <- assign_loop (enumerate (map centroid_of detections)) track_ids
           track_centroids no_assign ;;
    Ret (assignments a).

(** One [update] per frame, in frame order (the loop of [process_video]). *)
Fixpoint run (self : PersonTracker) (frames : list (list rect))
    : Py PersonTracker :=
  match frames with
  | [] => Ret self
  | detections :: rest =>
      r <- update self detections ;;
      run (snd r) rest
  end.

(** The states a tracker can be in: constructed, then updated. *)
Inductive reachable : PersonTracker -> Prop :=
| reach_init : reachable init
| reach_update self detections ids self' :
    reachable self ->
    update self detections = Ret (ids, self') ->
    reachable self'.

(** ** The arithmetic of lines 44-45 and 74, with its faults

    [update] above computes on integers exactly.  The source computes the
    centroid through a float division and the distance through [np.sqrt];
    both can raise, and the division rounds.  The definitions below follow
    them for rectangles of Python ints; [update_checked] is [update] with
    this arithmetic in place of the exact one. *)

(** The integer nearest to [a >= 0] that a float64 holds: [a] kept to 53
    significant bits, ties to the even mantissa. *)
Definition round53 (a : Z) : Z :=
  if a <? 2 ^ 53 then a
  else
    let sh := Z.log2 a - 52 in
    let q := Z.shiftr a sh in
    let r := a - Z.shiftl q sh in
    let half := 2 ^ (sh - 1) in
    let q' := if (half <? r) || ((r =? half) && Z.odd q) then q + 1 else q in
    Z.shiftl q' sh.

(** [int(s / 2)] for a Python int [s].  [s / 2] is the correctly rounded
    float quotient and raises [OverflowError] when that exceeds the float
    range; [int] truncates toward zero. *)
Definition int_half_checked (s : Z) : Py Z :=
  let a := round53 (Z.abs s) in
  if 2 ^ 1025 <=? a then Raise OverflowError
  else Ret (Z.sgn s * (a / 2)).

(** Lines 43-46. *)
Fixpoint centroids_checked (detections : list rect) : Py (list point) :=
  match detections with
  | [] => Ret []
  | (x1, y1, x2, y2) :: rest =>
      cx <- int_half_checked (x1 + x2) ;;
      cy <- int_half_checked (y1 + y2) ;;
      cs <- centroids_checked rest ;;
      Ret ((cx, cy) :: cs)
  end.

(** The argument of [np.sqrt] at line 74, a Python int: numpy takes it as a
    64-bit integer and raises [TypeError] when it does not fit.  Below
    [2 ^ 64] the root is compared as in [scan_tracks]: a sum of squares of
    10000 or more has a root of 100 or more and is never selected. *)
Definition np_sqrt_arg (d2 : Z) : Py Z :=
  if 2 ^ 64 <=? d2 then Raise TypeError else Ret d2.

(** Lines 69-80, as [scan_tracks]. *)
Fixpoint scan_tracks_checked (input_centroid : point)
    (track_centroids : list point) (used_cols : index_set)
    (cols : list (nat * Z)) (s : scan) : Py scan :=
  match cols with
  | [] => Ret s
  | (j, track_id) :: rest =>
      if set_in j used_cols then
        scan_tracks_checked input_centroid track_centroids used_cols rest s
      else
        track_centroid <- list_get track_centroids j ;;
        d2 <- np_sqrt_arg (dist2 input_centroid track_centroid) ;;
        if closer d2 (min_dist s) && (d2 <? gate * gate) then
          scan_tracks_checked input_centroid track_centroids used_cols rest
            (mkScan (Fin d2) (Some track_id) (Some j))
        else
          scan_tracks_checked input_centroid track_centroids used_cols rest s
  end.

(** Lines 65-85, as [assign_loop]. *)
Fixpoint assign_loop_checked (ics : list (nat * point)) (track_ids : list Z)
    (track_centroids : list point) (a : assign) : Py assign :=
  match ics with
  | [] => Ret a
  | (i, input_centroid) :: rest =>
      s <- scan_tracks_checked input_centroid track_centroids (used_cols a)
             (enumerate track_ids) (mkScan Inf None (last_col a)) ;;
      match best_track s with
      | Some tid =>
          col <- match best_col s with
                 | Some j => Ret j
                 | None => Raise UnboundLocalError
                 end ;;
          assign_loop_checked rest track_ids track_centroids
            (mkAssign (dict_set Nat.eqb i tid (assignments a))
                      (set_add i (used_rows a))
                      (set_add col (used_cols a))
                      (best_col s))
      | None =>
          assign_loop_checked rest track_ids track_centroids
            (mkAssign (assignments a) (used_rows a) (used_cols a) (best_col s))
      end
  end.

(** Lines 56-108, as [associate]. *)
Definition associate_checked (input_centroids : list point)
    (self : PersonTracker) : Py PersonTracker :=
  let track_ids := dict_keys (tracks self) in
  track_centroids <- centroids_of track_ids (tracks self) ;;
  a <- assign_loop_checked (enumerate input_centroids) track_ids
         track_centroids no_assign ;;
  d1 <- refresh_loop track_ids (assignments a) input_centroids (tracks self) ;;
  let self1 :=
    register_unassigned (enumerate input_centroids) (used_rows a)
      (with_tracks d1 self) in
  d2 <- prune_loop (dict_keys (tracks self1)) (tracks self1) ;;
  Ret (with_tracks d2 self1).

(** Lines 32-110, as [update]. *)
Definition update_checked (self : PersonTracker) (detections : list rect)
    : Py (list Z * PersonTracker) :=
  if (length detections =? 0)%nat then
    d <- age_all (dict_keys (tracks self)) (tracks self) ;;
    Ret ([], with_tracks d self)
  else
    input_centroids <- centroids_checked detections ;;
    self1 <- (if (length (tracks self) =? 0)%nat
              then Ret (register_all input_centroids self)
              else associate_checked input_centroids self) ;;
    Ret (dict_keys (tracks self1), self1).

(** The frame loop of [process_video] (lines 121-144) over
    [update_checked]. *)
Fixpoint overlay_counts_checked (tracker : PersonTracker)
    (frames : list (list rect)) : Py (list nat) :=
  match frames with
  | [] => Ret []
  | person_detections :: rest =>
      r <- update_checked tracker person_detections ;;
      counts <- overlay_counts_checked (snd r) rest ;;
      Ret (length (fst r) :: counts)
  end.

(** Coordinates of magnitude at most [2 ^ 30]: far more than any frame is
    wide, and small enough for the arithmetic above to be exact. *)
Definition in_range (z : Z) : bool := Z.abs z <=? 2 ^ 30.

Definition point_in_range (c : point) : bool :=
  in_range (fst c) && in_range (snd c).

Definition rect_in_range (r : rect) : bool :=
  let '(x1, y1, x2, y2) := r in
  in_range x1 && in_range y1 && in_range x2 && in_range y2.

Definition tracks_in_range (d : tracks_t) : bool :=
  forallb (fun kv => point_in_range (centroid (snd kv))) d.

(** ** Closed forms used in the statements *)

(** A track one frame older. *)
Definition older (t : Track) : Track :=
  set_disappeared (disappeared t + 1) t.

(** The test of lines 37 and 107, negated: the track stays. *)
Definition live (t : Track) : bool := negb (disappeared t >? max_disappeared).

Definition map_tracks (f : Z -> Track -> Track) (d : tracks_t) : tracks_t :=
  map (fun kv => (fst kv, f (fst kv) (snd kv))) d.

Definition keep_live (d : tracks_t) : tracks_t :=
  filter (fun kv => live (snd kv)) d.

(** The tracks [register_all] appends when no key is in its way. *)
Fixpoint new_tracks (nid : Z) (cs : list point) : tracks_t :=
  match cs with
  | [] => []
  | c :: rest => (nid, mkTrack c 0) :: new_tracks (nid + 1) rest
  end.

(** The integers [a, a+1, ..., a+n-1]. *)
Fixpoint zrange (a : Z) (n : nat) : list Z :=
  match n with
  | O => []
  | S m => a :: zrange (a + 1) m
  end.

(** The tracks the assignments dict [asg] was built before detection [i]
    claimed: the values stored under smaller keys. *)
Definition claimed_before (i : nat) (asg : dict nat Z) : list Z :=
  map snd (filter (fun kv => (fst kv <? i)%nat) asg).

(** What lines 88-94 leave of a track. *)
Definition refreshed (asg : dict nat Z) (input_centroids : list point)
    (track_id : Z) (t : Track) : Track :=
  if assigned track_id asg then
    mkTrack (nth (hd O (rows_of track_id asg)) input_centroids (0, 0)) 0
  else older t.

(** The detections that lines 97-103 turn into tracks. *)
Definition unassigned (ics : list (nat * point)) (used : index_set)
    : list (nat * point) :=
  filter (fun ic => negb (set_in (fst ic) used)) ics.

(** The Euclidean distance between two centroids, the number line 74
    computes in floating point, as a real. *)
Definition euclid (a b : point) : R := sqrt (IZR (dist2 a b)).

(** The keys of [d'] that [d] does not hold, in the order of [d']. *)
Definition appeared (d d' : tracks_t) : list Z :=
  filter (fun k => negb (existsb (Z.eqb k) (dict_keys d))) (dict_keys d').

(** ** Invariants and closed forms of the loops *)

(** The list line 58 builds: the centroids of the tracks, in dict order. *)
Definition track_centroids_of (d : tracks_t) : list point :=
  map (fun kv => centroid (snd kv)) d.

(** The tracker lines 87-108 leave, given the locals [a] of the matching. *)
Definition associated (cs : list point) (self : PersonTracker) (a : assign)
    : PersonTracker :=
  let self1 :=
    register_all (map snd (unassigned (enumerate cs) (used_rows a)))
      (with_tracks (map_tracks (refreshed (assignments a) cs) (tracks self))
         self) in
  with_tracks (keep_live (tracks self1)) self1.

(** What the locals of the inner loop hold once the tracks of columns below
    [j0] have been visited, for the detection at [c]: either no unclaimed
    track within the gate was seen, or [best_track] is the first unclaimed
    track at the least distance, which is within the gate. *)
Definition scan_inv (c : point) (tcs : list point) (tids : list Z)
    (used : index_set) (j0 : nat) (s : scan) : Prop :=
  match best_track s with
  | None =>
      min_dist s = Inf /\
      forall k tc, (k < j0)%nat -> set_in k used = false ->
        nth_error tcs k = Some tc -> gate * gate <= dist2 c tc
  | Some tid =>
      exists j tc,
        best_col s = Some j /\ (j < j0)%nat /\ set_in j used = false /\
        nth_error tids j = Some tid /\ nth_error tcs j = Some tc /\
        min_dist s = Fin (dist2 c tc) /\ dist2 c tc < gate * gate /\
        forall k tc', (k < j0)%nat -> set_in k used = false ->
          nth_error tcs k = Some tc' ->
          dist2 c tc <= dist2 c tc' /\ ((k < j)%nat -> dist2 c tc < dist2 c tc')
  end.

(** The choice made for detection [i], at [c], judged on the finished
    [assignments]: it holds the first track at the least distance among those
    no earlier detection claimed when that distance is within the gate, and
    nothing when no such track is within the gate. *)
Definition choice_ok (tids : list Z) (tcs : list point) (asg : dict nat Z)
    (i : nat) (c : point) : Prop :=
  match lookup Nat.eqb i asg with
  | Some tid =>
      exists j tc,
        nth_error tids j = Some tid /\ nth_error tcs j = Some tc /\
        ~ In tid (claimed_before i asg) /\
        dist2 c tc < gate * gate /\
        forall k tid' tc',
          nth_error tids k = Some tid' -> nth_error tcs k = Some tc' ->
          ~ In tid' (claimed_before i asg) ->
          dist2 c tc <= dist2 c tc' /\ ((k < j)%nat -> dist2 c tc < dist2 c tc')
  | None =>
      forall k tid' tc',
        nth_error tids k = Some tid' -> nth_error tcs k = Some tc' ->
        ~ In tid' (claimed_before i asg) ->
        gate * gate <= dist2 c tc'
  end.

(** What the locals of the outer loop hold once the detections of index below
    [i0] have been handled. *)
Record assign_inv (tids : list Z) (tcs cs : list point) (i0 : nat)
    (a : assign) : Prop := mkAssignInv {
  inv_keys : forall i, In i (dict_keys (assignments a)) -> (i < i0)%nat;
  inv_keys_nodup : NoDup (dict_keys (assignments a));
  inv_rows : forall i,
    set_in i (used_rows a) = true <-> In i (dict_keys (assignments a));
  inv_cols : forall j,
    set_in j (used_cols a) = true <->
    exists tid, nth_error tids j = Some tid /\
                In tid (dict_values (assignments a));
  inv_values_nodup : NoDup (dict_values (assignments a));
  inv_choice : forall i c,
    nth_error cs i = Some c -> (i < i0)%nat ->
    choice_ok tids tcs (assignments a) i c
}.

(** The dict holds each key once and every key is below [next_id]. *)
Definition wf (self : PersonTracker) : Prop :=
  NoDup (dict_keys (tracks self)) /\
  forall k, In k (dict_keys (tracks self)) -> k < next_id self.

(** The ids that appear in the dict from one call to the next, over a run
    of frames. *)
Fixpoint issued (self : PersonTracker) (frames : list (list rect))
    : Py (list Z) :=
  match frames with
  | [] => Ret []
  | detections :: rest =>
      r <- update self detections ;;
      later <- issued (snd r) rest ;;
      Ret (appeared (tracks self) (tracks (snd r)) ++ later)
  end.

(** [n] frames without a detection. *)
Definition quiet (n : nat) : list (list rect) := repeat [] n.

(** ** The frame loop of [process_video] (lines 121-144) *)

(** The part of the loop that drives the tracker, over the
    [person_detections] of the frames in order: one [update] per frame, and
    [unique_count], the number drawn on the frame, is the length of the list
    [update] returns. *)
Fixpoint overlay_counts (tracker : PersonTracker)
    (frames : list (list rect)) : Py (list nat) :=
  match frames with
  | [] => Ret []
  | person_detections :: rest =>
      r <- update tracker person_detections ;;
      counts <- overlay_counts (snd r) rest ;;
      Ret (length (fst r) :: counts)
  end.

(** Lines 121 and 143-144 for a whole video. *)
Definition process_video_counts (frames : list (list rect)) : Py (list nat) :=
  overlay_counts init frames.

(** ** Predicates used in the further statements *)

(** Tracks in ascending id order, ids from 1 up to [next_id], counters
    between 0 and 10. *)
Definition tidy (self : PersonTracker) : Prop :=
  1 <= next_id self /\
  StronglySorted Z.lt (dict_keys (tracks self)) /\
  forall k t, In (k, t) (tracks self) ->
    1 <= k < next_id self /\ 0 <= disappeared t <= 10.

(** A walk: each rectangle's centroid is less than 100 away from the one
    before it, the first from [c]. *)
Fixpoint walk (c : point) (rs : list rect) : Prop :=
  match rs with
  | [] => True
  | r :: rest => (euclid (centroid_of r) c < 100)%R /\ walk (centroid_of r) rest
  end.

(** The number of detections in a list of frames. *)
Definition detections_in (frames : list (list rect)) : nat :=
  length (concat frames).

(** ** File names: [allowed_file] (lines 15, 23-24), the stored name of an
    upload (line 181) and the search of [process_video_endpoint]
    (lines 206-213, 216)

    File names are strings of ASCII characters; on those [str.lower] changes
    the letters A to Z and nothing else. *)

Module FileNames.
Import Ascii String.
Local Open Scope string_scope.

(** [c in s] for a one-character [c]. *)
Fixpoint contains (c : ascii) (s : string) : bool :=
  match s with
  | EmptyString => false
  | String x rest => Ascii.eqb x c || contains c rest
  end.

(** The text before and the text after the last [sep] of [s], when [s] has
    one. *)
Fixpoint split_last (sep : ascii) (s : string) : option (string * string) :=
  match s with
  | EmptyString => None
  | String x rest =>
      match split_last sep rest with
      | Some (before, after) => Some (String x before, after)
      | None => if Ascii.eqb x sep then Some (EmptyString, rest) else None
      end
  end.

(** [s.rsplit(sep, 1)] *)
Definition rsplit1 (sep : ascii) (s : string) : list string :=
  match split_last sep s with
  | Some (before, after) => [before; after]
  | None => [s]
  end.

(** The names the model speaks for: every character below 128.  A name
    with other characters is outside it ([str.lower] also changes letters
    beyond ASCII, some of them into ASCII letters). *)
Fixpoint is_ascii (s : string) : bool :=
  match s with
  | EmptyString => true
  | String x rest => (nat_of_ascii x <? 128)%nat && is_ascii rest
  end.

(** [str.lower] on one ASCII character. *)
Definition lower_char (c : ascii) : ascii :=
  let n := nat_of_ascii c in
  if ((65 <=? n) && (n <=? 90))%nat then ascii_of_nat (n + 32) else c.

(** [s.lower()], for an ASCII [s]. *)
Fixpoint lower (s : string) : string :=
  match s with
  | EmptyString => EmptyString
  | String x rest => String (lower_char x) (lower rest)
  end.

(** Line 15; a set, of which only membership is used. *)
Definition ALLOWED_EXTENSIONS : list string := ["mp4"; "avi"; "mov"; "mkv"].

(** Lines 23-24.  The subscript [[1]] raises when [rsplit] returns one
    piece. *)
Definition allowed_file (filename : string) : Py bool :=
  if contains "."%char filename then
    ext <- list_get (rsplit1 "."%char filename) 1 ;;
    Ret (existsb (String.eqb (lower ext)) ALLOWED_EXTENSIONS)
  else Ret false.

(** [s.startswith(p)] *)
Fixpoint startswith (s p : string) {struct p} : bool :=
  match p with
  | EmptyString => true
  | String a p' =>
      match s with
      | EmptyString => false
      | String b s' => Ascii.eqb b a && startswith s' p'
      end
  end.

(** Line 181: the name [upload_file] saves a file under. *)
Definition stored_name (file_id filename : string) : string :=
  file_id ++ "_" ++ filename.

(** Lines 207-210: the first name of the listing that starts with
    [file_id]. *)
Fixpoint first_match (file_id : string) (listing : list string)
    : option string :=
  match listing with
  | [] => None
  | filename :: rest =>
      if startswith filename file_id then Some filename
      else first_match file_id rest
  end.

(** Lines 206-213: [None] stands for the 404 answer; [not input_file] holds
    for [None] and for an empty name. *)
Definition find_upload (listing : list string) (file_id : string)
    : option string :=
  match first_match file_id listing with
  | Some EmptyString => None
  | found => found
  end.

(** Line 216. *)
Definition output_name (input_file : string) : string :=
  "processed_" ++ input_file.

End FileNames.

(** ** Facts about dicts *)

Section DictFacts.
Variables K V : Type.
Variable eqb : K -> K -> bool.
Hypothesis eqb_eq : forall a b, eqb a b = true <-> a = b.

Lemma eqb_refl' (k : K) : eqb k k = true.
Proof. now apply eqb_eq. Qed.

Lemma eqb_neq (a b : K) : a <> b -> eqb a b = false.
Proof.
  intros H. destruct (eqb a b) eqn:E; [|reflexivity].
  apply eqb_eq in E. contradiction.
Qed.

Lemma existsb_eqb_In (k : K) (l : list K) :
  existsb (eqb k) l = true <-> In k l.
Proof.
  rewrite existsb_exists. split.
  - intros [x [Hx E]]. apply eqb_eq in E. now subst.
  - intros H. exists k. split; [assumption | apply eqb_refl'].
Qed.

Lemma existsb_eqb_notIn (k : K) (l : list K) :
  existsb (eqb k) l = false <-> ~ In k l.
Proof.
  rewrite <- existsb_eqb_In. destruct (existsb (eqb k) l); split; intros H;
    try reflexivity; try discriminate; try (intros H'; discriminate).
  exfalso. now apply H.
Qed.

Lemma dict_ok_NoDup (d : dict K V) :
  dict_ok eqb d = true <-> NoDup (dict_keys d).
Proof.
  induction d as [|[k v] r IH]; simpl.
  - split; [constructor | reflexivity].
  - rewrite andb_true_iff, negb_true_iff, existsb_eqb_notIn, IH.
    split.
    + intros [H1 H2]. now constructor.
    + intros H. inversion H; subst. now split.
Qed.

Lemma dict_keys_app (d1 d2 : dict K V) :
  dict_keys (d1 ++ d2) = dict_keys d1 ++ dict_keys d2.
Proof. apply map_app. Qed.

Lemma lookup_app_r (k : K) (d1 d2 : dict K V) :
  ~ In k (dict_keys d1) -> lookup eqb k (d1 ++ d2) = lookup eqb k d2.
Proof.
  induction d1 as [|[k' v'] r IH]; simpl; intros H; [reflexivity|].
  rewrite eqb_neq by (intros ->; apply H; now left).
  apply IH. intros H'. apply H. now right.
Qed.

Lemma lookup_mid (k : K) (v : V) (d1 d2 : dict K V) :
  ~ In k (dict_keys d1) -> lookup eqb k (d1 ++ (k, v) :: d2) = Some v.
Proof.
  intros H. rewrite lookup_app_r by assumption. simpl.
  now rewrite eqb_refl'.
Qed.

Lemma lookup_None (k : K) (d : dict K V) :
  lookup eqb k d = None <-> ~ In k (dict_keys d).
Proof.
  induction d as [|[k' v'] r IH]; simpl.
  - tauto.
  - destruct (eqb k k') eqn:E.
    + apply eqb_eq in E. subst. split; [discriminate | intros H; exfalso; apply H; now left].
    + rewrite IH. split.
      * intros H [H'|H']; [|now apply H].
        subst. rewrite eqb_refl' in E. discriminate.
      * intros H H'. apply H. now right.
Qed.

Lemma lookup_Some_In (k : K) (v : V) (d : dict K V) :
  lookup eqb k d = Some v -> In (k, v) d.
Proof.
  induction d as [|[k' v'] r IH]; simpl; [discriminate|].
  destruct (eqb k k') eqn:E.
  - apply eqb_eq in E. subst. intros [= ->]. now left.
  - intros H. right. now apply IH.
Qed.

Lemma In_lookup (k : K) (v : V) (d : dict K V) :
  NoDup (dict_keys d) -> In (k, v) d -> lookup eqb k d = Some v.
Proof.
  induction d as [|[k' v'] r IH]; simpl; [tauto|].
  intros N [H|H].
  - inversion H; subst. now rewrite eqb_refl'.
  - inversion N; subst.
    rewrite eqb_neq.
    + now apply IH.
    + intros ->. apply H2. change k' with (fst (k', v)). now apply in_map.
Qed.

Lemma dict_get_mid (k : K) (v : V) (d1 d2 : dict K V) :
  ~ In k (dict_keys d1) -> dict_get eqb k (d1 ++ (k, v) :: d2) = Ret v.
Proof. intros H. unfold dict_get. now rewrite lookup_mid. Qed.

Lemma dict_set_mid (k : K) (v v' : V) (d1 d2 : dict K V) :
  ~ In k (dict_keys d1) ->
  dict_set eqb k v' (d1 ++ (k, v) :: d2) = d1 ++ (k, v') :: d2.
Proof.
  induction d1 as [|[k1 v1] r IH]; simpl; intros H.
  - now rewrite eqb_refl'.
  - rewrite eqb_neq by (intros ->; apply H; now left).
    f_equal. apply IH. intros H'. apply H. now right.
Qed.

Lemma remove_key_mid (k : K) (v : V) (d1 d2 : dict K V) :
  ~ In k (dict_keys d1) ->
  remove_key eqb k (d1 ++ (k, v) :: d2) = d1 ++ d2.
Proof.
  induction d1 as [|[k1 v1] r IH]; simpl; intros H.
  - now rewrite eqb_refl'.
  - rewrite eqb_neq by (intros ->; apply H; now left).
    f_equal. apply IH. intros H'. apply H. now right.
Qed.

Lemma dict_del_mid (k : K) (v : V) (d1 d2 : dict K V) :
  ~ In k (dict_keys d1) ->
  dict_del eqb k (d1 ++ (k, v) :: d2) = Ret (d1 ++ d2).
Proof.
  intros H. unfold dict_del. rewrite lookup_mid by assumption.
  now rewrite remove_key_mid.
Qed.

Lemma dict_set_new (k : K) (v : V) (d : dict K V) :
  ~ In k (dict_keys d) -> dict_set eqb k v d = d ++ [(k, v)].
Proof.
  induction d as [|[k1 v1] r IH]; simpl; intros H; [reflexivity|].
  rewrite eqb_neq by (intros ->; apply H; now left).
  f_equal. apply IH. intros H'. apply H. now right.
Qed.

Lemma dict_set_held (k : K) (v : V) (d : dict K V) :
  In k (dict_keys d) -> dict_keys (dict_set eqb k v d) = dict_keys d.
Proof.
  induction d as [|[k1 v1] r IH]; simpl; intros H; [contradiction|].
  destruct (eqb k k1) eqn:E; simpl; [reflexivity|].
  f_equal. apply IH. destruct H as [H|H]; [|assumption].
  subst. rewrite eqb_refl' in E. discriminate.
Qed.

Lemma dict_set_NoDup (k : K) (v : V) (d : dict K V) :
  NoDup (dict_keys d) -> NoDup (dict_keys (dict_set eqb k v d)).
Proof.
  intros N. destruct (existsb (eqb k) (dict_keys d)) eqn:E.
  - apply existsb_eqb_In in E. now rewrite dict_set_held.
  - apply existsb_eqb_notIn in E. rewrite dict_set_new by assumption.
    rewrite dict_keys_app. simpl.
    apply NoDup_app; [assumption | repeat constructor; simpl; tauto |].
    intros x Hx [<-|[]]. contradiction.
Qed.

Lemma lookup_dict_set_same (k : K) (v : V) (d : dict K V) :
  lookup eqb k (dict_set eqb k v d) = Some v.
Proof.
  induction d as [|[k1 v1] r IH]; simpl.
  - now rewrite eqb_refl'.
  - destruct (eqb k k1) eqn:E; simpl; rewrite E; [reflexivity | assumption].
Qed.

Lemma lookup_dict_set_other (k k' : K) (v : V) (d : dict K V) :
  k' <> k -> lookup eqb k' (dict_set eqb k v d) = lookup eqb k' d.
Proof.
  intros Hne. induction d as [|[k1 v1] r IH]; simpl.
  - now rewrite eqb_neq.
  - destruct (eqb k k1) eqn:E; simpl.
    + apply eqb_eq in E. subst. now rewrite eqb_neq.
    + destruct (eqb k' k1); [reflexivity | assumption].
Qed.
End DictFacts.

(** ** The loops over the track dict, in closed form *)

Lemma NoDup_keys_mid (k : Z) (t : Track) (d1 d2 : tracks_t) :
  NoDup (dict_keys (d1 ++ (k, t) :: d2)) ->
  ~ In k (dict_keys d1) /\ ~ In k (dict_keys d2) /\
  NoDup (dict_keys (d1 ++ d2)).
Proof.
  rewrite !dict_keys_app. simpl. intros N.
  apply NoDup_remove in N. destruct N as [N H].
  rewrite in_app_iff in H. tauto.
Qed.

Lemma keys_mid_value (k : Z) (t t' : Track) (d1 d2 : tracks_t) :
  dict_keys ((d1 ++ [(k, t')]) ++ d2) = dict_keys (d1 ++ (k, t) :: d2).
Proof. rewrite <- app_assoc. rewrite !dict_keys_app. reflexivity. Qed.

Lemma tick_mid (k : Z) (t : Track) (d1 d2 : tracks_t) :
  ~ In k (dict_keys d1) ->
  tick k (d1 ++ (k, t) :: d2) = Ret (d1 ++ (k, older t) :: d2).
Proof.
  intros H. unfold tick.
  rewrite (dict_get_mid _ Z.eqb_eq) by assumption. simpl.
  now rewrite (dict_set_mid _ Z.eqb_eq).
Qed.

Lemma drop_if_stale_mid (k : Z) (t : Track) (d1 d2 : tracks_t) :
  ~ In k (dict_keys d1) ->
  drop_if_stale k (d1 ++ (k, t) :: d2) =
  Ret (if live t then d1 ++ (k, t) :: d2 else d1 ++ d2).
Proof.
  intros H. unfold drop_if_stale, live.
  rewrite (dict_get_mid _ Z.eqb_eq) by assumption. simpl.
  destruct (disappeared t >? max_disappeared); simpl; [|reflexivity].
  now apply (dict_del_mid _ Z.eqb_eq).
Qed.

Lemma age_all_mid (todo done : tracks_t) :
  NoDup (dict_keys (done ++ todo)) ->
  age_all (dict_keys todo) (done ++ todo) =
  Ret (done ++ keep_live (map_tracks (fun _ => older) todo)).
Proof.
  revert done. induction todo as [|[k t] todo IH]; intros done N; simpl.
  - reflexivity.
  - destruct (NoDup_keys_mid _ _ _ _ N) as [H1 [H2 N']].
    rewrite tick_mid by assumption. simpl.
    rewrite drop_if_stale_mid by assumption. simpl.
    destruct (live (older t)) eqn:L.
    + replace (done ++ (k, older t) :: todo)
        with ((done ++ [(k, older t)]) ++ todo)
        by (now rewrite <- app_assoc).
      rewrite IH.
      * now rewrite <- app_assoc.
      * now rewrite (keys_mid_value k t).
    + now apply IH.
Qed.

Lemma age_all_closed (d : tracks_t) :
  NoDup (dict_keys d) ->
  age_all (dict_keys d) d = Ret (keep_live (map_tracks (fun _ => older) d)).
Proof. intros N. exact (age_all_mid d [] N). Qed.

Lemma prune_loop_mid (todo done : tracks_t) :
  NoDup (dict_keys (done ++ todo)) ->
  prune_loop (dict_keys todo) (done ++ todo) = Ret (done ++ keep_live todo).
Proof.
  revert done. induction todo as [|[k t] todo IH]; intros done N; simpl.
  - reflexivity.
  - destruct (NoDup_keys_mid _ _ _ _ N) as [H1 [H2 N']].
    rewrite drop_if_stale_mid by assumption. simpl.
    destruct (live t) eqn:L.
    + replace (done ++ (k, t) :: todo) with ((done ++ [(k, t)]) ++ todo)
        by (now rewrite <- app_assoc).
      rewrite IH.
      * now rewrite <- app_assoc.
      * now rewrite (keys_mid_value k t).
    + now apply IH.
Qed.

Lemma prune_loop_closed (d : tracks_t) :
  NoDup (dict_keys d) -> prune_loop (dict_keys d) d = Ret (keep_live d).
Proof. intros N. exact (prune_loop_mid d [] N). Qed.

Lemma centroids_of_mid (todo done : tracks_t) :
  NoDup (dict_keys (done ++ todo)) ->
  centroids_of (dict_keys todo) (done ++ todo) =
  Ret (map (fun kv => centroid (snd kv)) todo).
Proof.
  revert done. induction todo as [|[k t] todo IH]; intros done N; simpl.
  - reflexivity.
  - destruct (NoDup_keys_mid _ _ _ _ N) as [H1 [H2 N']].
    rewrite (dict_get_mid _ Z.eqb_eq) by assumption. simpl.
    replace (done ++ (k, t) :: todo) with ((done ++ [(k, t)]) ++ todo)
      by (now rewrite <- app_assoc).
    rewrite IH; [reflexivity|].
    now rewrite (keys_mid_value k t).
Qed.

Lemma centroids_of_closed (d : tracks_t) :
  NoDup (dict_keys d) ->
  centroids_of (dict_keys d) d = Ret (map (fun kv => centroid (snd kv)) d).
Proof. intros N. exact (centroids_of_mid d [] N). Qed.

Lemma keep_live_all (d : tracks_t) (k : Z) (t : Track) :
  In (k, t) (keep_live d) -> disappeared t <= max_disappeared.
Proof.
  unfold keep_live. rewrite filter_In. simpl. unfold live.
  intros [_ H]. apply negb_true_iff in H. lia.
Qed.

Lemma keep_live_NoDup (d : tracks_t) :
  NoDup (dict_keys d) -> NoDup (dict_keys (keep_live d)).
Proof.
  induction d as [|[k t] d IH]; simpl; intros N; [constructor|].
  inversion N; subst. destruct (live t); simpl; [|now apply IH].
  constructor; [|now apply IH].
  intros H. apply H1. unfold dict_keys, keep_live in *.
  apply in_map_iff in H. destruct H as [[k' t'] [E H]]. simpl in E. subst.
  apply filter_In in H. apply in_map_iff. exists (k, t'). tauto.
Qed.

Lemma map_tracks_keys (f : Z -> Track -> Track) (d : tracks_t) :
  dict_keys (map_tracks f d) = dict_keys d.
Proof.
  unfold dict_keys, map_tracks. rewrite map_map. reflexivity.
Qed.

(** ** New tracks *)

Lemma register_unassigned_all (ics : list (nat * point)) (used : index_set)
    (self : PersonTracker) :
  register_unassigned ics used self =
  register_all (map snd (unassigned ics used)) self.
Proof.
  revert self. induction ics as [|[i c] ics IH]; intros self; simpl.
  - reflexivity.
  - destruct (set_in i used); simpl; apply IH.
Qed.

Lemma register_all_next_id (cs : list point) (self : PersonTracker) :
  next_id (register_all cs self) = next_id self + Z.of_nat (length cs).
Proof.
  revert self. induction cs as [|c cs IH]; intros self.
  - simpl. lia.
  - cbn [register_all length]. rewrite IH. unfold register. simpl. lia.
Qed.

Lemma register_all_NoDup (cs : list point) (self : PersonTracker) :
  NoDup (dict_keys (tracks self)) ->
  NoDup (dict_keys (tracks (register_all cs self))).
Proof.
  revert self. induction cs as [|c cs IH]; intros self N; simpl.
  - assumption.
  - apply IH. unfold register. simpl. now apply (dict_set_NoDup _ Z.eqb_eq).
Qed.

Lemma register_all_closed (cs : list point) (d : tracks_t) (nid : Z) :
  (forall k, In k (dict_keys d) -> k < nid) ->
  register_all cs (mkTracker d nid) =
  mkTracker (d ++ new_tracks nid cs) (nid + Z.of_nat (length cs)).
Proof.
  revert d nid. induction cs as [|c cs IH]; intros d nid H.
  - simpl. rewrite app_nil_r. f_equal. lia.
  - cbn [register_all new_tracks length]. unfold register. simpl tracks.
    simpl next_id.
    rewrite (dict_set_new _ Z.eqb_eq)
      by (intros Hin; apply H in Hin; lia).
    rewrite IH.
    + rewrite <- app_assoc. simpl. f_equal. lia.
    + intros k. rewrite dict_keys_app, in_app_iff. simpl.
      intros [Hin|[<-|[]]]; [apply H in Hin|]; lia.
Qed.

Lemma new_tracks_keys (nid : Z) (cs : list point) :
  dict_keys (new_tracks nid cs) = zrange nid (length cs).
Proof.
  revert nid. induction cs as [|c cs IH]; intros nid; simpl.
  - reflexivity.
  - f_equal. apply IH.
Qed.

Lemma new_tracks_In (nid : Z) (cs : list point) (k : Z) (t : Track) :
  In (k, t) (new_tracks nid cs) ->
  disappeared t = 0 /\ nid <= k < nid + Z.of_nat (length cs).
Proof.
  revert nid. induction cs as [|c cs IH]; intros nid; simpl; [tauto|].
  intros [H|H].
  - inversion H; subst. simpl. lia.
  - apply IH in H. lia.
Qed.

Lemma new_tracks_nth (nid : Z) (cs : list point) (n : nat) (c : point) :
  nth_error cs n = Some c ->
  In (nid + Z.of_nat n, mkTrack c 0) (new_tracks nid cs).
Proof.
  revert nid n. induction cs as [|c' cs IH]; intros nid [|n]; simpl;
    try discriminate.
  - intros [= ->]. left. f_equal. lia.
  - intros H. right.
    replace (nid + Z.pos (Pos.of_succ_nat n)) with (nid + 1 + Z.of_nat n)
      by lia.
    now apply IH.
Qed.

Lemma zrange_In (a : Z) (n : nat) (k : Z) :
  In k (zrange a n) <-> a <= k < a + Z.of_nat n.
Proof.
  revert a. induction n as [|n IH]; intros a.
  - simpl. lia.
  - cbn [zrange In]. rewrite IH. lia.
Qed.

Lemma zrange_NoDup (a : Z) (n : nat) : NoDup (zrange a n).
Proof.
  revert a. induction n as [|n IH]; intros a; simpl; constructor.
  - rewrite zrange_In. lia.
  - apply IH.
Qed.

Lemma zrange_length (a : Z) (n : nat) : length (zrange a n) = n.
Proof.
  revert a. induction n as [|n IH]; intros a; simpl; [reflexivity|].
  now rewrite IH.
Qed.

Lemma zrange_app (a : Z) (n m : nat) :
  zrange a (n + m) = zrange a n ++ zrange (a + Z.of_nat n) m.
Proof.
  revert a. induction n as [|n IH]; intros a.
  - simpl. f_equal. lia.
  - cbn [Nat.add zrange app]. f_equal. rewrite IH. do 2 f_equal. lia.
Qed.

(** ** Index sets *)

Lemma set_in_In (i : nat) (s : index_set) : set_in i s = true <-> In i s.
Proof. apply (existsb_eqb_In _ Nat.eqb_eq). Qed.

Lemma set_in_add (j i : nat) (s : index_set) :
  set_in j (set_add i s) = true <-> j = i \/ set_in j s = true.
Proof.
  unfold set_add. destruct (set_in i s) eqn:E.
  - split; [tauto|]. intros [->|H]; assumption.
  - rewrite !set_in_In. simpl. intuition congruence.
Qed.

(** ** The inner loop (lines 69-80) *)

Lemma scan_inv_skip c tcs tids used j0 s :
  set_in j0 used = true ->
  scan_inv c tcs tids used j0 s -> scan_inv c tcs tids used (S j0) s.
Proof.
  unfold scan_inv. intros U. destruct (best_track s) as [tid|].
  - intros (j & tc & ? & ? & ? & ? & ? & ? & ? & H).
    exists j, tc. do 7 (split; [first [assumption | lia]|]).
    intros k tc' Hk Hf Hn.
    destruct (Nat.eq_dec k j0) as [->|]; [congruence|].
    apply H; [lia | assumption | assumption].
  - intros [? H]. split; [assumption|]. intros k tc Hk Hf Hn.
    destruct (Nat.eq_dec k j0) as [->|]; [congruence|].
    apply (H k); [lia | assumption | assumption].
Qed.

Lemma scan_inv_take c tcs tids used j0 s tid tc :
  set_in j0 used = false ->
  nth_error tids j0 = Some tid -> nth_error tcs j0 = Some tc ->
  closer (dist2 c tc) (min_dist s) && (dist2 c tc <? gate * gate) = true ->
  scan_inv c tcs tids used j0 s ->
  scan_inv c tcs tids used (S j0)
    (mkScan (Fin (dist2 c tc)) (Some tid) (Some j0)).
Proof.
  intros U Htid Htc Hb Hs. apply andb_true_iff in Hb. destruct Hb as [Hc Hg].
  apply Z.ltb_lt in Hg.
  unfold scan_inv. simpl. exists j0, tc.
  do 7 (split; [first [assumption | reflexivity | lia]|]).
  intros k tc' Hk Hf Hn.
  destruct (Nat.eq_dec k j0) as [->|Hne].
  - replace tc' with tc by congruence. lia.
  - assert (Hlt : dist2 c tc < dist2 c tc'); [|lia].
    unfold scan_inv in Hs. destruct (best_track s).
    + destruct Hs as (j & tc0 & ? & ? & ? & ? & ? & Hm & ? & Hall).
      rewrite Hm in Hc. cbn [closer] in Hc. apply Z.ltb_lt in Hc.
      destruct (Hall k tc') as [Hle _]; [lia | assumption | assumption |].
      lia.
    + destruct Hs as [_ Hall].
      assert (Hk' : (k < j0)%nat) by lia.
      specialize (Hall k tc' Hk' Hf Hn). lia.
Qed.

Lemma scan_inv_pass c tcs tids used j0 s tc :
  nth_error tcs j0 = Some tc ->
  closer (dist2 c tc) (min_dist s) && (dist2 c tc <? gate * gate) = false ->
  scan_inv c tcs tids used j0 s -> scan_inv c tcs tids used (S j0) s.
Proof.
  intros Htc Hb. unfold scan_inv. destruct (best_track s) as [tid|].
  - intros (j & tc0 & ? & ? & ? & ? & ? & Hm & ? & Hall).
    rewrite Hm in Hb. cbn [closer andb] in Hb. apply andb_false_iff in Hb.
    assert (Hge : dist2 c tc0 <= dist2 c tc).
    { destruct Hb as [Hb|Hb]; apply Z.ltb_ge in Hb; lia. }
    exists j, tc0. do 7 (split; [first [assumption | lia]|]).
    intros k tc' Hk Hf Hn.
    destruct (Nat.eq_dec k j0) as [->|Hne].
    + replace tc' with tc by congruence. split; [assumption | lia].
    + apply Hall; [lia | assumption | assumption].
  - intros [Hm Hall]. split; [assumption|].
    rewrite Hm in Hb. cbn [closer andb] in Hb. apply Z.ltb_ge in Hb.
    intros k tc' Hk Hf Hn.
    destruct (Nat.eq_dec k j0) as [->|Hne].
    + replace tc' with tc by congruence. assumption.
    + apply (Hall k); [lia | assumption | assumption].
Qed.

Lemma scan_tracks_spec c tcs tids used :
  length tcs = length tids ->
  forall suf pre s,
    tids = pre ++ suf ->
    scan_inv c tcs tids used (length pre) s ->
    exists s',
      scan_tracks c tcs used (combine (seq (length pre) (length suf)) suf) s
      = Ret s' /\
      scan_inv c tcs tids used (length tids) s'.
Proof.
  intros Hlen. induction suf as [|tid suf IH]; intros pre s Ht Hs.
  - simpl. exists s. split; [reflexivity|].
    replace (length tids) with (length pre); [assumption|].
    now rewrite Ht, app_nil_r.
  - cbn [length seq combine scan_tracks].
    assert (Htid : nth_error tids (length pre) = Some tid).
    { rewrite Ht, nth_error_app2 by lia. now rewrite Nat.sub_diag. }
    assert (Ht' : tids = (pre ++ [tid]) ++ suf)
      by (now rewrite <- app_assoc).
    assert (Hl' : length (pre ++ [tid]) = S (length pre))
      by (rewrite length_app; simpl; lia).
    destruct (set_in (length pre) used) eqn:U.
    + specialize (IH (pre ++ [tid]) s Ht'). rewrite Hl' in IH.
      apply IH. now apply scan_inv_skip.
    + destruct (nth_error tcs (length pre)) as [tc|] eqn:Htc.
      2:{ apply nth_error_None in Htc.
          assert (Hs' : nth_error tids (length pre) <> None) by congruence.
          apply nth_error_Some in Hs'. lia. }
      unfold list_get. rewrite Htc. cbn [bind].
      destruct (closer (dist2 c tc) (min_dist s) &&
                (dist2 c tc <? gate * gate)) eqn:Hb.
      * specialize (IH (pre ++ [tid])
                      (mkScan (Fin (dist2 c tc)) (Some tid) (Some (length pre)))
                      Ht').
        rewrite Hl' in IH. apply IH. apply scan_inv_take with (s := s); assumption.
      * specialize (IH (pre ++ [tid]) s Ht'). rewrite Hl' in IH.
        apply IH. eapply scan_inv_pass; eauto.
Qed.

(** ** The outer loop (lines 65-85) *)

Lemma claimed_before_all (i0 : nat) (asg : dict nat Z) :
  (forall i, In i (dict_keys asg) -> (i < i0)%nat) ->
  claimed_before i0 asg = dict_values asg.
Proof.
  unfold claimed_before, dict_values. intros H. f_equal.
  induction asg as [|[i t] asg IH]; simpl; [reflexivity|].
  assert (Hi : (i < i0)%nat) by (apply H; now left).
  apply Nat.ltb_lt in Hi. rewrite Hi. f_equal.
  apply IH. intros i' H'. apply H. now right.
Qed.

Lemma claimed_before_snoc (i i0 : nat) (tid : Z) (asg : dict nat Z) :
  (i <= i0)%nat ->
  claimed_before i (asg ++ [(i0, tid)]) = claimed_before i asg.
Proof.
  intros H. unfold claimed_before. rewrite filter_app. simpl.
  assert (E : (i0 <? i)%nat = false) by (apply Nat.ltb_ge; lia).
  rewrite E. now rewrite app_nil_r.
Qed.

Lemma lookup_snoc_other (i i0 : nat) (tid : Z) (asg : dict nat Z) :
  i <> i0 -> lookup Nat.eqb i (asg ++ [(i0, tid)]) = lookup Nat.eqb i asg.
Proof.
  intros Hne. induction asg as [|[k v] asg IH]; simpl.
  - apply Nat.eqb_neq in Hne. now rewrite Hne.
  - destruct (i =? k)%nat; [reflexivity | assumption].
Qed.

Lemma choice_ok_snoc tids tcs asg i0 tid i c :
  (i < i0)%nat ->
  choice_ok tids tcs asg i c ->
  choice_ok tids tcs (asg ++ [(i0, tid)]) i c.
Proof.
  intros Hlt. unfold choice_ok.
  rewrite lookup_snoc_other by lia.
  rewrite claimed_before_snoc by lia. tauto.
Qed.

Lemma assign_inv_start tids tcs cs : assign_inv tids tcs cs 0 no_assign.
Proof.
  constructor; simpl.
  - tauto.
  - constructor.
  - intros i. unfold set_in. simpl. split; [discriminate | tauto].
  - intros j. unfold set_in. simpl. split; [discriminate|].
    intros [tid [_ []]].
  - constructor.
  - intros; lia.
Qed.

Lemma free_col_unclaimed tids tcs cs i0 a k tid :
  assign_inv tids tcs cs i0 a ->
  nth_error tids k = Some tid ->
  (set_in k (used_cols a) = false <-> ~ In tid (dict_values (assignments a))).
Proof.
  intros I Hk. split.
  - intros Hf Hin.
    assert (Ht : set_in k (used_cols a) = true)
      by (apply (inv_cols I); exists tid; tauto).
    congruence.
  - intros Hn. destruct (set_in k (used_cols a)) eqn:E; [|reflexivity].
    apply (inv_cols I) in E. destruct E as [tid' [Ht Hin]].
    exfalso. apply Hn. congruence.
Qed.

(** One detection without a track within reach. *)
Lemma assign_inv_none tids tcs cs i0 a c s :
  assign_inv tids tcs cs i0 a ->
  nth_error cs i0 = Some c ->
  scan_inv c tcs tids (used_cols a) (length tids) s ->
  best_track s = None ->
  assign_inv tids tcs cs (S i0)
    (mkAssign (assignments a) (used_rows a) (used_cols a) (best_col s)).
Proof.
  intros I Hc Hs Hb. unfold scan_inv in Hs. rewrite Hb in Hs.
  destruct Hs as [_ Hall].
  constructor; simpl.
  - intros i Hi. apply (inv_keys I) in Hi. lia.
  - exact (inv_keys_nodup I).
  - exact (inv_rows I).
  - exact (inv_cols I).
  - exact (inv_values_nodup I).
  - intros i c' Hc' Hi. destruct (Nat.eq_dec i i0) as [->|Hne].
    + replace c' with c by congruence.
      unfold choice_ok.
      assert (Hl : lookup Nat.eqb i0 (assignments a) = None).
      { apply (lookup_None _ Nat.eqb_eq). intros Hin.
        apply (inv_keys I) in Hin. lia. }
      rewrite Hl. rewrite (claimed_before_all _ (inv_keys I)).
      intros k tid' tc' Hk Htc Hn.
      apply (Hall k).
      * apply nth_error_Some. congruence.
      * now apply (free_col_unclaimed k I Hk).
      * assumption.
    + apply (inv_choice I); [assumption | lia].
Qed.

(** One detection that claims track [tid] of column [j]. *)
Lemma assign_inv_some tids tcs cs i0 a c s tid j :
  NoDup tids ->
  assign_inv tids tcs cs i0 a ->
  nth_error cs i0 = Some c ->
  scan_inv c tcs tids (used_cols a) (length tids) s ->
  best_track s = Some tid -> best_col s = Some j ->
  assign_inv tids tcs cs (S i0)
    (mkAssign (dict_set Nat.eqb i0 tid (assignments a))
              (set_add i0 (used_rows a)) (set_add j (used_cols a))
              (best_col s)).
Proof.
  intros N I Hc Hs Hb Hj. unfold scan_inv in Hs. rewrite Hb in Hs.
  destruct Hs as (j' & tc & Hj' & Hlt & Hfree & Htid & Htc & _ & Hg & Hall).
  assert (j' = j) by congruence. subst j'.
  assert (Hnew : ~ In i0 (dict_keys (assignments a)))
    by (intros Hin; apply (inv_keys I) in Hin; lia).
  assert (Hun : ~ In tid (dict_values (assignments a)))
    by (now apply (free_col_unclaimed j I Htid)).
  rewrite (dict_set_new _ Nat.eqb_eq) by assumption.
  constructor; simpl.
  - intros i. rewrite dict_keys_app, in_app_iff. simpl.
    intros [Hi|[<-|[]]]; [apply (inv_keys I) in Hi|]; lia.
  - rewrite dict_keys_app. simpl. apply NoDup_app.
    + exact (inv_keys_nodup I).
    + repeat constructor. simpl. tauto.
    + intros x Hx [<-|[]]. contradiction.
  - intros i. rewrite set_in_add, (inv_rows I), dict_keys_app, in_app_iff.
    simpl. intuition congruence.
  - intros k. rewrite set_in_add, (inv_cols I).
    unfold dict_values. rewrite map_app. simpl. split.
    + intros [->|[tid' [Hk Hin]]].
      * exists tid. rewrite in_app_iff. simpl. tauto.
      * exists tid'. rewrite in_app_iff. tauto.
    + intros [tid' [Hk Hin]]. rewrite in_app_iff in Hin. simpl in Hin.
      destruct Hin as [Hin|[<-|[]]].
      * right. exists tid'. tauto.
      * left. apply (proj1 (NoDup_nth_error tids) N).
        -- apply nth_error_Some. congruence.
        -- congruence.
  - unfold dict_values. rewrite map_app. simpl. apply NoDup_app.
    + exact (inv_values_nodup I).
    + repeat constructor. simpl. tauto.
    + intros x Hx [<-|[]]. contradiction.
  - intros i c' Hc' Hi. destruct (Nat.eq_dec i i0) as [->|Hne].
    + replace c' with c by congruence.
      unfold choice_ok.
      rewrite (lookup_mid _ Nat.eqb_eq) by assumption.
      rewrite claimed_before_snoc by lia.
      rewrite (claimed_before_all _ (inv_keys I)).
      exists j, tc. do 4 (split; [assumption|]).
      intros k tid' tc' Hk Htc' Hn.
      apply Hall.
      * apply nth_error_Some. congruence.
      * now apply (free_col_unclaimed k I Hk).
      * assumption.
    + apply choice_ok_snoc; [lia|].
      apply (inv_choice I); [assumption | lia].
Qed.

Lemma assign_loop_spec tids tcs cs :
  NoDup tids -> length tcs = length tids ->
  forall suf pre a,
    cs = pre ++ suf ->
    assign_inv tids tcs cs (length pre) a ->
    exists a',
      assign_loop (combine (seq (length pre) (length suf)) suf) tids tcs a
      = Ret a' /\
      assign_inv tids tcs cs (length cs) a'.
Proof.
  intros N Hlen. induction suf as [|c suf IH]; intros pre a Hcs I.
  - simpl. exists a. split; [reflexivity|].
    replace (length cs) with (length pre); [assumption|].
    now rewrite Hcs, app_nil_r.
  - cbn [length seq combine assign_loop].
    assert (Hc : nth_error cs (length pre) = Some c).
    { rewrite Hcs, nth_error_app2 by lia. now rewrite Nat.sub_diag. }
    assert (Hcs' : cs = (pre ++ [c]) ++ suf) by (now rewrite <- app_assoc).
    assert (Hl' : length (pre ++ [c]) = S (length pre))
      by (rewrite length_app; simpl; lia).
    destruct (@scan_tracks_spec c tcs tids (used_cols a) Hlen tids []
                (mkScan Inf None (last_col a)) eq_refl)
      as [s [Es Hs]].
    { unfold scan_inv. simpl. split; [reflexivity|]. intros; lia. }
    simpl length in Es. unfold enumerate. rewrite Es. cbn [bind].
    specialize (IH (pre ++ [c])). rewrite Hl' in IH.
    destruct (best_track s) as [tid|] eqn:Hb.
    + assert (Hj : exists j, best_col s = Some j).
      { unfold scan_inv in Hs. rewrite Hb in Hs.
        destruct Hs as (j & _ & Hj & _). now exists j. }
      destruct Hj as [j Hj]. rewrite Hj. cbn [bind].
      apply IH; [assumption|].
      rewrite <- Hj. now apply assign_inv_some with (c := c).
    + apply IH; [assumption|].
      now apply assign_inv_none with (c := c).
Qed.

Lemma assign_loop_total tids tcs cs :
  NoDup tids -> length tcs = length tids ->
  exists a,
    assign_loop (enumerate cs) tids tcs no_assign = Ret a /\
    assign_inv tids tcs cs (length cs) a.
Proof.
  intros N Hlen.
  exact (@assign_loop_spec tids tcs cs N Hlen cs [] no_assign eq_refl
           (assign_inv_start tids tcs cs)).
Qed.

(** ** Lines 87-94 in closed form *)

Lemma assigned_In (tid : Z) (asg : dict nat Z) :
  assigned tid asg = true <-> In tid (dict_values asg).
Proof. apply (existsb_eqb_In _ Z.eqb_eq). Qed.

Lemma rows_of_In (tid : Z) (asg : dict nat Z) (i : nat) :
  In i (rows_of tid asg) <-> In (i, tid) asg.
Proof.
  unfold rows_of. rewrite in_map_iff. split.
  - intros [[i' t] [E H]]. simpl in E. subst i'.
    apply filter_In in H. simpl in H. destruct H as [H E].
    apply Z.eqb_eq in E. now subst.
  - intros H. exists (i, tid). split; [reflexivity|].
    apply filter_In. simpl. split; [assumption | apply Z.eqb_refl].
Qed.

Lemma rows_of_assigned (tid : Z) (asg : dict nat Z) :
  assigned tid asg = true ->
  exists i rest, rows_of tid asg = i :: rest /\ In (i, tid) asg.
Proof.
  intros H. apply assigned_In in H. unfold dict_values in H.
  apply in_map_iff in H. destruct H as [[i t] [E H]]. simpl in E. subst t.
  apply rows_of_In in H.
  destruct (rows_of tid asg) as [|i' rest] eqn:R; [contradiction|].
  exists i', rest. split; [reflexivity|].
  apply rows_of_In. rewrite R. now left.
Qed.

Lemma refresh_loop_mid (asg : dict nat Z) (ics : list point)
    (todo done : tracks_t) :
  (forall i, In i (dict_keys asg) -> (i < length ics)%nat) ->
  NoDup (dict_keys (done ++ todo)) ->
  refresh_loop (dict_keys todo) asg ics (done ++ todo) =
  Ret (done ++ map_tracks (refreshed asg ics) todo).
Proof.
  intros Hr. revert done.
  induction todo as [|[k t] todo IH]; intros done N.
  - reflexivity.
  - cbn [dict_keys map fst refresh_loop map_tracks snd].
    destruct (NoDup_keys_mid _ _ _ _ N) as [H1 [H2 N']].
    assert (N1 : forall t', NoDup (dict_keys ((done ++ [(k, t')]) ++ todo)))
      by (intros t'; now rewrite (keys_mid_value k t)).
    unfold refreshed at 1.
    destruct (assigned k asg) eqn:A.
    + destruct (rows_of_assigned _ _ A) as (i & rest & R & Hin).
      rewrite R. cbn [list_get nth_error bind hd].
      assert (Hi : (i < length ics)%nat).
      { apply Hr. change i with (fst (i, k)). now apply in_map. }
      unfold list_get. rewrite (nth_error_nth' ics (0, 0) Hi). cbn [bind].
      rewrite (dict_get_mid _ Z.eqb_eq) by assumption. cbn [bind].
      rewrite (dict_set_mid _ Z.eqb_eq) by assumption.
      rewrite (dict_get_mid _ Z.eqb_eq) by assumption. cbn [bind].
      rewrite (dict_set_mid _ Z.eqb_eq) by assumption.
      unfold set_disappeared, set_centroid. cbn [centroid disappeared].
      replace (done ++ (k, mkTrack (nth i ics (0, 0)) 0) :: todo)
        with ((done ++ [(k, mkTrack (nth i ics (0, 0)) 0)]) ++ todo)
        by (now rewrite <- app_assoc).
      rewrite (IH _ (N1 _)). now rewrite <- app_assoc.
    + rewrite tick_mid by assumption. cbn [bind].
      replace (done ++ (k, older t) :: todo)
        with ((done ++ [(k, older t)]) ++ todo)
        by (now rewrite <- app_assoc).
      rewrite (IH _ (N1 _)). now rewrite <- app_assoc.
Qed.

Lemma refresh_loop_closed (asg : dict nat Z) (ics : list point)
    (d : tracks_t) :
  (forall i, In i (dict_keys asg) -> (i < length ics)%nat) ->
  NoDup (dict_keys d) ->
  refresh_loop (dict_keys d) asg ics d =
  Ret (map_tracks (refreshed asg ics) d).
Proof. intros Hr N. exact (refresh_loop_mid asg ics d [] Hr N). Qed.

(** ** [associate] and [update] in closed form *)

Lemma associate_closed (cs : list point) (self : PersonTracker) :
  NoDup (dict_keys (tracks self)) ->
  exists a,
    assign_loop (enumerate cs) (dict_keys (tracks self))
      (track_centroids_of (tracks self)) no_assign = Ret a /\
    assign_inv (dict_keys (tracks self)) (track_centroids_of (tracks self))
      cs (length cs) a /\
    associate cs self = Ret (associated cs self a).
Proof.
  intros N.
  destruct (@assign_loop_total (dict_keys (tracks self))
              (track_centroids_of (tracks self)) cs N) as [a [Ea Ia]].
  { unfold track_centroids_of, dict_keys. now rewrite !length_map. }
  exists a. split; [assumption|]. split; [assumption|].
  unfold associate.
  rewrite centroids_of_closed by assumption. cbn [bind].
  fold (track_centroids_of (tracks self)). rewrite Ea. cbn [bind].
  rewrite refresh_loop_closed; [|exact (inv_keys Ia)|assumption].
  cbn [bind]. rewrite register_unassigned_all.
  rewrite prune_loop_closed; [reflexivity|].
  apply register_all_NoDup. simpl. now rewrite map_tracks_keys.
Qed.

Lemma length_zero_nil {A : Type} (l : list A) :
  (length l =? 0)%nat = true <-> l = [].
Proof.
  destruct l; simpl; split; intros H; try reflexivity; discriminate.
Qed.

Lemma update_no_detections (self : PersonTracker) :
  NoDup (dict_keys (tracks self)) ->
  update self [] =
  Ret ([], with_tracks (keep_live (map_tracks (fun _ => older) (tracks self)))
             self).
Proof.
  intros N. unfold update. simpl.
  now rewrite age_all_closed.
Qed.

Lemma update_no_tracks (nid : Z) (r : rect) (rs : list rect) :
  update (mkTracker [] nid) (r :: rs) =
  Ret (zrange nid (length (r :: rs)),
       mkTracker (new_tracks nid (map centroid_of (r :: rs)))
                 (nid + Z.of_nat (length (r :: rs)))).
Proof.
  unfold update. cbn [length Nat.eqb tracks].
  rewrite register_all_closed by (simpl; tauto).
  cbn [bind app tracks]. rewrite new_tracks_keys, !length_map.
  reflexivity.
Qed.

Lemma update_both (self : PersonTracker) (r : rect) (rs : list rect) :
  tracks self <> [] ->
  NoDup (dict_keys (tracks self)) ->
  exists a,
    assign_loop (enumerate (map centroid_of (r :: rs)))
      (dict_keys (tracks self)) (track_centroids_of (tracks self)) no_assign
    = Ret a /\
    assign_inv (dict_keys (tracks self)) (track_centroids_of (tracks self))
      (map centroid_of (r :: rs)) (length (r :: rs)) a /\
    matching self (r :: rs) = Ret (assignments a) /\
    update self (r :: rs) =
    Ret (dict_keys (tracks (associated (map centroid_of (r :: rs)) self a)),
         associated (map centroid_of (r :: rs)) self a).
Proof.
  intros Hne N.
  destruct (associate_closed (map centroid_of (r :: rs)) self N)
    as (a & Ea & Ia & E).
  exists a. split; [assumption|]. split.
  { now rewrite length_map in Ia. }
  assert (Hl : (length (tracks self) =? 0)%nat = false).
  { destruct (tracks self); [congruence | reflexivity]. }
  split.
  - unfold matching. cbn [length Nat.eqb]. rewrite Hl.
    rewrite centroids_of_closed by assumption. cbn [bind].
    fold (track_centroids_of (tracks self)). now rewrite Ea.
  - unfold update. cbn [length Nat.eqb]. rewrite Hl.
    now rewrite E.
Qed.

(** ** Looking tracks up after a call *)

Lemma lookup_app (k : Z) (d1 d2 : tracks_t) :
  lookup Z.eqb k (d1 ++ d2) =
  match lookup Z.eqb k d1 with
  | Some t => Some t
  | None => lookup Z.eqb k d2
  end.
Proof.
  induction d1 as [|[k' t'] d1 IH]; simpl; [reflexivity|].
  destruct (k =? k'); [reflexivity | assumption].
Qed.

Lemma lookup_keep_map (f : Z -> Track -> Track) (k : Z) (d : tracks_t) :
  NoDup (dict_keys d) ->
  lookup Z.eqb k (keep_live (map_tracks f d)) =
  match lookup Z.eqb k d with
  | Some t => if live (f k t) then Some (f k t) else None
  | None => None
  end.
Proof.
  induction d as [|[k' t'] d IH]; simpl; intros N; [reflexivity|].
  inversion N as [|? ? Hn N']; subst.
  destruct (k =? k') eqn:E.
  - apply Z.eqb_eq in E. subst k'.
    destruct (live (f k t')) eqn:L.
    + simpl. now rewrite Z.eqb_refl.
    + rewrite (IH N').
      apply (lookup_None _ Z.eqb_eq) in Hn. now rewrite Hn.
  - destruct (live (f k' t')); [simpl; rewrite E|]; now apply IH.
Qed.

Lemma keep_live_keys (d : tracks_t) (k : Z) :
  In k (dict_keys (keep_live d)) -> In k (dict_keys d).
Proof.
  unfold dict_keys, keep_live. rewrite !in_map_iff.
  intros [kv [E H]]. apply filter_In in H. exists kv. tauto.
Qed.

Lemma keep_live_app (d1 d2 : tracks_t) :
  keep_live (d1 ++ d2) = keep_live d1 ++ keep_live d2.
Proof. apply filter_app. Qed.

Lemma keep_live_new (nid : Z) (cs : list point) :
  keep_live (new_tracks nid cs) = new_tracks nid cs.
Proof.
  revert nid. induction cs as [|c cs IH]; intros nid; simpl; [reflexivity|].
  f_equal. apply IH.
Qed.

Lemma lookup_live (d : tracks_t) (id : Z) :
  NoDup (dict_keys d) ->
  (forall k t, In (k, t) d -> disappeared t <= 10) ->
  In id (dict_keys d) ->
  exists t, lookup Z.eqb id d = Some t /\ disappeared t <= 10.
Proof.
  intros N H Hin. unfold dict_keys in Hin. apply in_map_iff in Hin.
  destruct Hin as [[k t] [E Hin]]. simpl in E. subst k.
  exists t. split; [now apply (In_lookup _ Z.eqb_eq) | now apply (H id)].
Qed.

Lemma new_tracks_NoDup (nid : Z) (cs : list point) :
  NoDup (dict_keys (new_tracks nid cs)).
Proof. rewrite new_tracks_keys. apply zrange_NoDup. Qed.

Lemma associated_NoDup (cs : list point) (self : PersonTracker) (a : assign) :
  NoDup (dict_keys (tracks self)) ->
  NoDup (dict_keys (tracks (associated cs self a))).
Proof.
  intros N. unfold associated. simpl. apply keep_live_NoDup.
  apply register_all_NoDup. simpl. now rewrite map_tracks_keys.
Qed.

(** ** The state a call leaves, case by case *)

(** The three paths of [update], for a dict that holds every key once. *)
Lemma update_cases (self : PersonTracker) (detections : list rect) :
  NoDup (dict_keys (tracks self)) ->
  exists ids self',
    update self detections = Ret (ids, self') /\
    NoDup (dict_keys (tracks self')) /\
    (forall k t, In (k, t) (tracks self') -> disappeared t <= 10) /\
    (forall id, In id ids -> In id (dict_keys (tracks self'))).
Proof.
  intros N. destruct detections as [|r rs].
  - eexists _, _. split; [now apply update_no_detections|].
    simpl. split; [|split].
    + apply keep_live_NoDup. now rewrite map_tracks_keys.
    + intros k t H. now apply keep_live_all in H.
    + tauto.
  - destruct self as [d nid]. destruct d as [|kt d].
    + eexists _, _. split; [apply update_no_tracks|].
      cbn [tracks]. split; [|split].
      * apply new_tracks_NoDup.
      * intros k t H. apply new_tracks_In in H. lia.
      * intros id. now rewrite new_tracks_keys, length_map.
    + destruct (@update_both (mkTracker (kt :: d) nid) r rs) as (a & _ & _ & _ & E);
        [discriminate | assumption |].
      eexists _, _. split; [exact E|]. split; [|split].
      * now apply associated_NoDup.
      * intros k t H. unfold associated in H. simpl in H.
        now apply keep_live_all in H.
      * tauto.
Qed.

(** ** The claims *)

(** With the exact arithmetic, no dict subscript, list subscript, [del] or
    unbound local raises, whatever the coordinates. *)
Lemma update_returns (self : PersonTracker) (detections : list rect) :
  dict_ok Z.eqb (tracks self) = true ->
  exists ids self', update self detections = Ret (ids, self').
Proof.
  intros H. apply (dict_ok_NoDup _ Z.eqb_eq) in H.
  destruct (update_cases self detections H) as (ids & self' & E & _).
  now exists ids, self'.
Qed.

(** C7.  The ids [update] returns never include a track whose [disappeared]
    exceeds 10 in the tracker the call leaves: every returned id is a key of
    the track dict, and its counter is at most 10. *)
Theorem returned_ids_not_stale (self : PersonTracker) (detections : list rect) :
  dict_ok Z.eqb (tracks self) = true ->
  exists ids self',
    update self detections = Ret (ids, self') /\
    forall id, In id ids ->
      exists t, lookup Z.eqb id (tracks self') = Some t /\
                disappeared t <= 10.
Proof.
  intros H. apply (dict_ok_NoDup _ Z.eqb_eq) in H.
  destruct (update_cases self detections H) as (ids & self' & E & N & L & I).
  exists ids, self'. split; [assumption|].
  intros id Hid. apply lookup_live; auto.
Qed.

Lemma returned_ids_not_stale_witness :
  exists ids self',
    update (mkTracker [(1, mkTrack (0, 0) 10); (2, mkTrack (500, 500) 3)] 3)
      [(490, 490, 510, 510)] = Ret (ids, self') /\
    forall id, In id ids ->
      exists t, lookup Z.eqb id (tracks self') = Some t /\
                disappeared t <= 10.
Proof. apply returned_ids_not_stale. reflexivity. Defined.

(** What lines 33-38 do to the tracker on a frame without detections, for
    every dict that holds each key once: every track is aged by one, the
    tracks whose counter then exceeds 10 are removed, no track is created
    (no key appears and [next_id] stays), and the call returns the empty
    list. *)
Lemma update_no_detections_ages (self : PersonTracker) :
  dict_ok Z.eqb (tracks self) = true ->
  exists self',
    update self [] = Ret ([], self') /\
    next_id self' = next_id self /\
    forall k,
      lookup Z.eqb k (tracks self') =
      match lookup Z.eqb k (tracks self) with
      | Some t =>
          if disappeared t + 1 >? 10 then None
          else Some (mkTrack (centroid t) (disappeared t + 1))
      | None => None
      end.
Proof.
  intros H. apply (dict_ok_NoDup _ Z.eqb_eq) in H.
  eexists. split; [now apply update_no_detections|].
  split; [reflexivity|]. intros k. simpl.
  rewrite lookup_keep_map by assumption.
  destruct (lookup Z.eqb k (tracks self)) as [t|]; [|reflexivity].
  unfold live, older, set_disappeared, max_disappeared. simpl.
  now destruct (disappeared t + 1 >? 10).
Qed.

(** C1.  The claim has [update] return the ids that remain after an empty
    frame; line 39 returns the empty list instead.  On the tracker a first
    frame with one detection leaves (track 1, [next_id] 2), a frame without
    detections ages track 1, keeps it in the dict and returns [[]], not
    [[1]]; the path with detections (line 110) does return a track it did
    not match: the same tracker given one far detection returns
    [[1; 2]]. *)
Lemma update_no_detections_returns_no_id :
  (exists ids self',
     update (mkTracker [(1, mkTrack (5, 5) 0)] 2) [] = Ret (ids, self') /\
     tracks self' = [(1, mkTrack (5, 5) 1)] /\
     dict_keys (tracks self') = [1] /\
     ids = [] /\
     ids <> dict_keys (tracks self')) /\
  (exists ids self',
     update (mkTracker [(1, mkTrack (5, 5) 0)] 2) [(300, 300, 320, 320)]
     = Ret (ids, self') /\
     tracks self' = [(1, mkTrack (5, 5) 1); (2, mkTrack (310, 310) 0)] /\
     ids = [1; 2] /\
     ids = dict_keys (tracks self')).
Proof.
  split.
  - exists [], (mkTracker [(1, mkTrack (5, 5) 1)] 2).
    repeat split; try reflexivity. discriminate.
  - exists [1; 2],
      (mkTracker [(1, mkTrack (5, 5) 1); (2, mkTrack (310, 310) 0)] 3).
    repeat split; reflexivity.
Qed.

(** C3.  On a tracker as constructed, [update] with N detections creates
    exactly N tracks, the n-th detection (from 0) becoming track n+1 at its
    centroid with [disappeared] 0, and returns the ids 1..N in that order;
    with three detections it returns [[1; 2; 3]]. *)
Theorem update_init_ids (detections : list rect) :
  exists self',
    update init detections
    = Ret (zrange 1 (length detections), self') /\
    next_id self' = 1 + Z.of_nat (length detections) /\
    dict_keys (tracks self') = zrange 1 (length detections) /\
    (forall n r, nth_error detections n = Some r ->
       nth_error (tracks self') n
       = Some (1 + Z.of_nat n, mkTrack (centroid_of r) 0)) /\
    (forall r1 r2 r3, detections = [r1; r2; r3] ->
       exists self3, update init detections = Ret ([1; 2; 3], self3)).
Proof.
  assert (Hnth : forall cs nid n c, nth_error cs n = Some c ->
            nth_error (new_tracks nid cs) n
            = Some (nid + Z.of_nat n, mkTrack c 0)).
  { induction cs as [|c' cs IH]; intros nid [|n] c; simpl; try discriminate.
    - intros [= ->]. do 2 f_equal. lia.
    - intros H. rewrite (IH (nid + 1) n c H). do 2 f_equal. lia. }
  destruct detections as [|r rs].
  - exists init. repeat split; try reflexivity.
    + intros [|n] r; discriminate.
    + discriminate.
  - eexists. split; [apply update_no_tracks|]. cbn [tracks next_id].
    split; [reflexivity|]. split; [|split].
    + now rewrite new_tracks_keys, length_map.
    + intros n r' H. apply Hnth. now apply map_nth_error.
    + intros r1 r2 r3 [= -> ->]. eexists. reflexivity.
Qed.

Example update_init_three (r1 r2 r3 : rect) :
  exists self', update init [r1; r2; r3] = Ret ([1; 2; 3], self').
Proof. eexists. reflexivity. Qed.

Lemma run_quiet_single (n : nat) (c : point) (m nid : Z) :
  m <= 10 ->
  run (mkTracker [(1, mkTrack c m)] nid) (quiet n) =
  Ret (mkTracker (if m + Z.of_nat n <=? 10
                  then [(1, mkTrack c (m + Z.of_nat n))] else []) nid).
Proof.
  revert m. induction n as [|n IH]; intros m Hm.
  - simpl. rewrite Z.add_0_r.
    destruct (m <=? 10) eqn:E; [reflexivity|]. apply Z.leb_gt in E. lia.
  - cbn [quiet repeat run]. fold (quiet n).
    rewrite update_no_detections by (repeat constructor; simpl; tauto).
    unfold with_tracks.
    cbn [bind snd tracks next_id map_tracks map fst].
    unfold keep_live, live, older, set_disappeared, max_disappeared.
    cbn [filter snd disappeared centroid].
    destruct (m + 1 >? 10) eqn:E; cbn [negb].
    + assert (E' : (m + Z.of_nat (S n) <=? 10) = false)
        by (apply Z.leb_gt; lia).
      rewrite E'. clear. induction n as [|n IH]; [reflexivity|].
      cbn [quiet repeat run]. exact IH.
    + rewrite IH by lia.
      replace (m + 1 + Z.of_nat n) with (m + Z.of_nat (S n)) by lia.
      reflexivity.
Qed.

(** ** Squared distances and Euclidean distances *)

Lemma dist2_nonneg (a b : point) : 0 <= dist2 a b.
Proof. unfold dist2. nia. Qed.

Lemma sqrt_gate : sqrt (IZR (gate * gate)) = 100%R.
Proof. unfold gate. rewrite mult_IZR. apply sqrt_square. lra. Qed.

Lemma euclid_within_gate (a b : point) :
  dist2 a b < gate * gate <-> (euclid a b < 100)%R.
Proof.
  unfold euclid. rewrite <- sqrt_gate. split.
  - intros H. apply sqrt_lt_1_alt. split.
    + apply IZR_le, dist2_nonneg.
    + now apply IZR_lt.
  - intros H. apply sqrt_lt_0_alt in H. now apply lt_IZR.
Qed.

Lemma euclid_beyond_gate (a b : point) :
  gate * gate <= dist2 a b <-> (100 <= euclid a b)%R.
Proof.
  unfold euclid. rewrite <- sqrt_gate. split.
  - intros H. apply sqrt_le_1_alt. now apply IZR_le.
  - intros H. apply sqrt_le_0 in H.
    + now apply le_IZR.
    + apply IZR_le. unfold gate. lia.
    + apply IZR_le, dist2_nonneg.
Qed.

Lemma euclid_le (c a b : point) :
  dist2 c a <= dist2 c b <-> (euclid c a <= euclid c b)%R.
Proof.
  unfold euclid. split.
  - intros H. apply sqrt_le_1_alt. now apply IZR_le.
  - intros H. apply sqrt_le_0 in H.
    + now apply le_IZR.
    + apply IZR_le, dist2_nonneg.
    + apply IZR_le, dist2_nonneg.
Qed.

Lemma euclid_lt (c a b : point) :
  dist2 c a < dist2 c b <-> (euclid c a < euclid c b)%R.
Proof.
  unfold euclid. split.
  - intros H. apply sqrt_lt_1_alt. split.
    + apply IZR_le, dist2_nonneg.
    + now apply IZR_lt.
  - intros H. apply sqrt_lt_0_alt in H. now apply lt_IZR.
Qed.

(** ** The matching, read on the track dict *)

Lemma nth_error_track (d : tracks_t) (k : nat) (tid : Z) (t : Track) :
  nth_error d k = Some (tid, t) ->
  nth_error (dict_keys d) k = Some tid /\
  nth_error (track_centroids_of d) k = Some (centroid t).
Proof.
  intros H. unfold dict_keys, track_centroids_of. split.
  - now apply (map_nth_error fst) in H.
  - now apply (map_nth_error (fun kv => centroid (snd kv))) in H.
Qed.

Lemma nth_error_track_inv (d : tracks_t) (k : nat) (tid : Z) (tc : point) :
  nth_error (dict_keys d) k = Some tid ->
  nth_error (track_centroids_of d) k = Some tc ->
  exists t, nth_error d k = Some (tid, t) /\ tc = centroid t.
Proof.
  unfold dict_keys, track_centroids_of. rewrite !nth_error_map.
  destruct (nth_error d k) as [[tid' t]|]; simpl; [|discriminate].
  intros [= ->] [= <-]. now exists t.
Qed.

Lemma NoDup_map_In_inj {A B : Type} (f : A -> B) (l : list A) (x y : A) :
  NoDup (map f l) -> In x l -> In y l -> f x = f y -> x = y.
Proof.
  induction l as [|a l IH]; simpl; [tauto|].
  intros N Hx Hy E. inversion N as [|? ? Hn N']; subst.
  destruct Hx as [->|Hx], Hy as [->|Hy].
  - reflexivity.
  - exfalso. apply Hn. rewrite E. now apply in_map.
  - exfalso. apply Hn. rewrite <- E. now apply in_map.
  - now apply IH.
Qed.

(** The matching of a call that has tracks and detections, with the facts
    the outer loop keeps. *)
Lemma matching_spec (self : PersonTracker) (detections : list rect) :
  NoDup (dict_keys (tracks self)) ->
  tracks self <> [] -> detections <> [] ->
  exists a,
    matching self detections = Ret (assignments a) /\
    assign_inv (dict_keys (tracks self)) (track_centroids_of (tracks self))
      (map centroid_of detections) (length detections) a.
Proof.
  intros N Ht Hd. destruct detections as [|r rs]; [congruence|].
  destruct (@update_both self r rs Ht N) as (a & _ & I & M & _).
  now exists a.
Qed.

(** The choice for one detection, read on the track dict. *)
Lemma choice_on_tracks (d : tracks_t) (asg : dict nat Z) (i : nat)
    (c : point) :
  choice_ok (dict_keys d) (track_centroids_of d) asg i c ->
  match lookup Nat.eqb i asg with
  | Some tid =>
      exists j t,
        nth_error d j = Some (tid, t) /\
        ~ In tid (claimed_before i asg) /\
        dist2 c (centroid t) < gate * gate /\
        forall k tid' t',
          nth_error d k = Some (tid', t') ->
          ~ In tid' (claimed_before i asg) ->
          dist2 c (centroid t) <= dist2 c (centroid t') /\
          ((k < j)%nat -> dist2 c (centroid t) < dist2 c (centroid t'))
  | None =>
      forall k tid' t',
        nth_error d k = Some (tid', t') ->
        ~ In tid' (claimed_before i asg) ->
        gate * gate <= dist2 c (centroid t')
  end.
Proof.
  unfold choice_ok. destruct (lookup Nat.eqb i asg) as [tid|].
  - intros (j & tc & Hj & Htc & Hn & Hg & Hall).
    destruct (@nth_error_track_inv _ _ _ _ Hj Htc) as [t [Ht ->]].
    exists j, t. do 3 (split; [assumption|]).
    intros k tid' t' Hk Hn'. destruct (@nth_error_track _ _ _ _ Hk) as [H1 H2].
    now apply (Hall k tid').
  - intros Hall k tid' t' Hk Hn'. destruct (@nth_error_track _ _ _ _ Hk) as [H1 H2].
    now apply (Hall k tid').
Qed.

(** C2.  With tracks and detections both present, the matching is greedy and
    single-pass.  Detection [i], in input order, is assigned a track exactly
    when some track not claimed by an earlier detection lies at a Euclidean
    centroid distance strictly below 100; the track it gets is one of least
    distance among those unclaimed tracks.  No track is assigned to two
    detections and no detection to two tracks. *)
Theorem greedy_matching (self : PersonTracker) (detections : list rect) :
  dict_ok Z.eqb (tracks self) = true ->
  tracks self <> [] -> detections <> [] ->
  exists asg,
    matching self detections = Ret asg /\
    (forall i r, nth_error detections i = Some r ->
       match lookup Nat.eqb i asg with
       | Some tid =>
           exists j t,
             nth_error (tracks self) j = Some (tid, t) /\
             ~ In tid (claimed_before i asg) /\
             (euclid (centroid_of r) (centroid t) < 100)%R /\
             forall k tid' t',
               nth_error (tracks self) k = Some (tid', t') ->
               ~ In tid' (claimed_before i asg) ->
               (euclid (centroid_of r) (centroid t)
                <= euclid (centroid_of r) (centroid t'))%R
       | None =>
           forall k tid' t',
             nth_error (tracks self) k = Some (tid', t') ->
             ~ In tid' (claimed_before i asg) ->
             (100 <= euclid (centroid_of r) (centroid t'))%R
       end) /\
    (forall i i' tid, In (i, tid) asg -> In (i', tid) asg -> i = i') /\
    (forall i tid tid', In (i, tid) asg -> In (i, tid') asg -> tid = tid') /\
    (forall i tid, In (i, tid) asg ->
       lookup Nat.eqb i asg = Some tid /\ (i < length detections)%nat).
Proof.
  intros H Ht Hd. apply (dict_ok_NoDup _ Z.eqb_eq) in H.
  destruct (@matching_spec self detections H Ht Hd) as (a & M & I).
  exists (assignments a). split; [assumption|]. split; [|split; [|split]].
  - intros i r Hr.
    assert (Hc : choice_ok (dict_keys (tracks self))
                   (track_centroids_of (tracks self)) (assignments a) i
                   (centroid_of r)).
    { apply (inv_choice I).
      - now apply map_nth_error.
      - apply nth_error_Some. congruence. }
    apply choice_on_tracks in Hc.
    destruct (lookup Nat.eqb i (assignments a)) as [tid|].
    + destruct Hc as (j & t & Hj & Hn & Hg & Hall).
      exists j, t. do 2 (split; [assumption|]).
      split; [now apply euclid_within_gate|].
      intros k tid' t' Hk Hn'. apply euclid_le. now apply (Hall k tid' t').
    + intros k tid' t' Hk Hn'. apply euclid_beyond_gate.
      now apply (Hc k tid' t').
  - intros i i' tid H1 H2.
    assert (E : (i, tid) = (i', tid))
      by (apply (NoDup_map_In_inj snd _ _ _ (inv_values_nodup I) H1 H2);
          reflexivity).
    congruence.
  - intros i tid tid' H1 H2.
    assert (E : (i, tid) = (i, tid'))
      by (apply (NoDup_map_In_inj fst _ _ _ (inv_keys_nodup I) H1 H2);
          reflexivity).
    congruence.
  - intros i tid Hin. split.
    + apply (In_lookup _ Nat.eqb_eq); [exact (inv_keys_nodup I) | assumption].
    + apply (inv_keys I). change i with (fst (i, tid)). now apply in_map.
Qed.

Lemma greedy_matching_witness :
  exists asg,
    matching (mkTracker [(1, mkTrack (0, 0) 0); (2, mkTrack (50, 0) 2)] 3)
      [(28, 0, 32, 0); (30, 0, 40, 0); (600, 600, 620, 620)] = Ret asg /\
    (forall i r,
       nth_error [(28, 0, 32, 0); (30, 0, 40, 0); (600, 600, 620, 620)] i
       = Some r ->
       match lookup Nat.eqb i asg with
       | Some tid =>
           exists j t,
             nth_error [(1, mkTrack (0, 0) 0); (2, mkTrack (50, 0) 2)] j
             = Some (tid, t) /\
             ~ In tid (claimed_before i asg) /\
             (euclid (centroid_of r) (centroid t) < 100)%R /\
             forall k tid' t',
               nth_error [(1, mkTrack (0, 0) 0); (2, mkTrack (50, 0) 2)] k
               = Some (tid', t') ->
               ~ In tid' (claimed_before i asg) ->
               (euclid (centroid_of r) (centroid t)
                <= euclid (centroid_of r) (centroid t'))%R
       | None =>
           forall k tid' t',
             nth_error [(1, mkTrack (0, 0) 0); (2, mkTrack (50, 0) 2)] k
             = Some (tid', t') ->
             ~ In tid' (claimed_before i asg) ->
             (100 <= euclid (centroid_of r) (centroid t'))%R
       end) /\
    (forall i i' tid, In (i, tid) asg -> In (i', tid) asg -> i = i') /\
    (forall i tid tid', In (i, tid) asg -> In (i, tid') asg -> tid = tid') /\
    (forall i tid, In (i, tid) asg ->
       lookup Nat.eqb i asg = Some tid /\ (i < 3)%nat).
Proof.
  apply (@greedy_matching
           (mkTracker [(1, mkTrack (0, 0) 0); (2, mkTrack (50, 0) 2)] 3)
           [(28, 0, 32, 0); (30, 0, 40, 0); (600, 600, 620, 620)]).
  - reflexivity.
  - discriminate.
  - discriminate.
Defined.

(** The detection at (30,0) is nearer to track 2 than to track 1, and at
    (35,0) the second detection is nearer to track 2 still; the first takes
    track 2, the second is left with track 1, the third is out of reach. *)
Example greedy_matching_run :
  matching (mkTracker [(1, mkTrack (0, 0) 0); (2, mkTrack (50, 0) 2)] 3)
    [(28, 0, 32, 0); (30, 0, 40, 0); (600, 600, 620, 620)]
  = Ret [(0%nat, 2); (1%nat, 1)].
Proof. reflexivity. Qed.

(** C9.  [update] is deterministic, ties included.  Equal trackers (same
    tracks in the same insertion order, same [next_id]) and equal detection
    lists give the same returned ids and the same resulting tracker.  What a
    detection is assigned is fixed by the tracks and their order alone: if a
    track that no earlier detection claimed lies within 100 of the
    detection, is at least as near as every other unclaimed track and
    strictly nearer than every unclaimed track before it in the dict, then
    the detection is assigned that track.  So of several unclaimed tracks at
    the least distance the one the dict yields first wins; and conversely
    the track a detection is assigned is strictly nearer than every
    unclaimed track before it. *)
Theorem update_deterministic (self1 self2 : PersonTracker)
    (detections1 detections2 : list rect) :
  self1 = self2 -> detections1 = detections2 ->
  update self1 detections1 = update self2 detections2 /\
  (dict_ok Z.eqb (tracks self1) = true ->
   tracks self1 <> [] -> detections1 <> [] ->
   exists asg,
     matching self1 detections1 = Ret asg /\
     matching self2 detections2 = Ret asg /\
     (forall i r k tid t,
        nth_error detections1 i = Some r ->
        nth_error (tracks self1) k = Some (tid, t) ->
        ~ In tid (claimed_before i asg) ->
        (euclid (centroid_of r) (centroid t) < 100)%R ->
        (forall k' tid' t',
           nth_error (tracks self1) k' = Some (tid', t') ->
           ~ In tid' (claimed_before i asg) ->
           (euclid (centroid_of r) (centroid t)
            <= euclid (centroid_of r) (centroid t'))%R /\
           ((k' < k)%nat ->
            (euclid (centroid_of r) (centroid t)
             < euclid (centroid_of r) (centroid t'))%R)) ->
        lookup Nat.eqb i asg = Some tid) /\
     (forall i r tid j t,
        nth_error detections1 i = Some r ->
        lookup Nat.eqb i asg = Some tid ->
        nth_error (tracks self1) j = Some (tid, t) ->
        forall k tid' t',
          (k < j)%nat ->
          nth_error (tracks self1) k = Some (tid', t') ->
          ~ In tid' (claimed_before i asg) ->
          (euclid (centroid_of r) (centroid t)
           < euclid (centroid_of r) (centroid t'))%R)).
Proof.
  intros <- <-. split; [reflexivity|].
  intros H Ht Hd. apply (dict_ok_NoDup _ Z.eqb_eq) in H.
  destruct (@matching_spec self1 detections1 H Ht Hd) as (a & M & I).
  exists (assignments a). do 2 (split; [assumption|]).
  assert (Hchoice : forall i r, nth_error detections1 i = Some r ->
            choice_ok (dict_keys (tracks self1))
              (track_centroids_of (tracks self1)) (assignments a) i
              (centroid_of r)).
  { intros i r Hr. apply (inv_choice I).
    - now apply map_nth_error.
    - apply nth_error_Some. congruence. }
  split.
  - intros i r k tid t Hr Hk Hn Hg Hfirst.
    pose proof (Hchoice i r Hr) as Hc. apply choice_on_tracks in Hc.
    destruct (lookup Nat.eqb i (assignments a)) as [tid0|].
    + destruct Hc as (j0 & t0 & Hj0 & Hn0 & _ & Hall).
      destruct (Hall k tid t Hk Hn) as [Hle Hlt].
      destruct (Hfirst j0 tid0 t0 Hj0 Hn0) as [Hle' Hlt'].
      destruct (Nat.lt_trichotomy j0 k) as [Hjk|[Hjk|Hjk]].
      * apply Hlt' in Hjk. apply euclid_lt in Hjk. lia.
      * subst j0. congruence.
      * apply Hlt in Hjk. apply euclid_le in Hle'. lia.
    + exfalso. apply euclid_within_gate in Hg.
      specialize (Hc k tid t Hk Hn). lia.
  - intros i r tid j t Hr Hl Hj k tid' t' Hk Hk' Hn.
    pose proof (Hchoice i r Hr) as Hc.
    apply choice_on_tracks in Hc. rewrite Hl in Hc.
    destruct Hc as (j0 & t0 & Hj0 & _ & _ & Hall).
    assert (Ej : j = j0).
    { apply (proj1 (NoDup_nth_error (dict_keys (tracks self1))) H).
      - apply nth_error_Some.
        destruct (@nth_error_track _ _ _ _ Hj) as [E _]. congruence.
      - destruct (@nth_error_track _ _ _ _ Hj) as [E _].
        destruct (@nth_error_track _ _ _ _ Hj0) as [E0 _]. congruence. }
    subst j0. assert (t0 = t) by congruence. subst t0.
    apply euclid_lt. now apply (Hall k tid' t').
Qed.

(** Tracks 1 and 2 at the same distance from the one detection. *)
Lemma update_deterministic_witness :
  update (mkTracker [(1, mkTrack (0, 0) 0); (2, mkTrack (20, 0) 0)] 3)
    [(10, 0, 10, 0)]
  = update (mkTracker [(1, mkTrack (0, 0) 0); (2, mkTrack (20, 0) 0)] 3)
      [(10, 0, 10, 0)] /\
  (dict_ok Z.eqb [(1, mkTrack (0, 0) 0); (2, mkTrack (20, 0) 0)] = true ->
   [(1, mkTrack (0, 0) 0); (2, mkTrack (20, 0) 0)] <> [] ->
   [(10, 0, 10, 0)] <> [] ->
   exists asg,
     matching (mkTracker [(1, mkTrack (0, 0) 0); (2, mkTrack (20, 0) 0)] 3)
       [(10, 0, 10, 0)] = Ret asg /\
     matching (mkTracker [(1, mkTrack (0, 0) 0); (2, mkTrack (20, 0) 0)] 3)
       [(10, 0, 10, 0)] = Ret asg /\
     (forall i r k tid t,
        nth_error [(10, 0, 10, 0)] i = Some r ->
        nth_error [(1, mkTrack (0, 0) 0); (2, mkTrack (20, 0) 0)] k
        = Some (tid, t) ->
        ~ In tid (claimed_before i asg) ->
        (euclid (centroid_of r) (centroid t) < 100)%R ->
        (forall k' tid' t',
           nth_error [(1, mkTrack (0, 0) 0); (2, mkTrack (20, 0) 0)] k'
           = Some (tid', t') ->
           ~ In tid' (claimed_before i asg) ->
           (euclid (centroid_of r) (centroid t)
            <= euclid (centroid_of r) (centroid t'))%R /\
           ((k' < k)%nat ->
            (euclid (centroid_of r) (centroid t)
             < euclid (centroid_of r) (centroid t'))%R)) ->
        lookup Nat.eqb i asg = Some tid) /\
     (forall i r tid j t,
        nth_error [(10, 0, 10, 0)] i = Some r ->
        lookup Nat.eqb i asg = Some tid ->
        nth_error [(1, mkTrack (0, 0) 0); (2, mkTrack (20, 0) 0)] j
        = Some (tid, t) ->
        forall k tid' t',
          (k < j)%nat ->
          nth_error [(1, mkTrack (0, 0) 0); (2, mkTrack (20, 0) 0)] k
          = Some (tid', t') ->
          ~ In tid' (claimed_before i asg) ->
          (euclid (centroid_of r) (centroid t)
           < euclid (centroid_of r) (centroid t'))%R)).
Proof.
  apply (@update_deterministic
           (mkTracker [(1, mkTrack (0, 0) 0); (2, mkTrack (20, 0) 0)] 3)
           (mkTracker [(1, mkTrack (0, 0) 0); (2, mkTrack (20, 0) 0)] 3)
           [(10, 0, 10, 0)] [(10, 0, 10, 0)]); reflexivity.
Defined.

(** Two tracks at the same distance from the detection: the one the dict
    yields first is taken, whichever id it has. *)
Example tie_first_in_dict_wins :
  matching (mkTracker [(1, mkTrack (0, 0) 0); (2, mkTrack (20, 0) 0)] 3)
    [(10, 0, 10, 0)] = Ret [(0%nat, 1)] /\
  matching (mkTracker [(2, mkTrack (20, 0) 0); (1, mkTrack (0, 0) 0)] 3)
    [(10, 0, 10, 0)] = Ret [(0%nat, 2)].
Proof. split; reflexivity. Qed.

(** ** What every reachable tracker satisfies *)

Lemma associated_shape (cs : list point) (self : PersonTracker) (a : assign) :
  wf self ->
  associated cs self a =
  mkTracker
    (keep_live (map_tracks (refreshed (assignments a) cs) (tracks self)) ++
     new_tracks (next_id self)
       (map snd (unassigned (enumerate cs) (used_rows a))))
    (next_id self +
     Z.of_nat (length (map snd (unassigned (enumerate cs) (used_rows a))))).
Proof.
  intros [N B]. unfold associated, with_tracks.
  rewrite register_all_closed by (now rewrite map_tracks_keys).
  cbn [tracks next_id]. now rewrite keep_live_app, keep_live_new.
Qed.

(** The tracker a call leaves: some of the old tracks, then the new ones
    under the ids from [next_id] on. *)
Lemma update_shape (self : PersonTracker) (detections : list rect) :
  wf self ->
  exists ids self' kept cs,
    update self detections = Ret (ids, self') /\
    tracks self' = kept ++ new_tracks (next_id self) cs /\
    next_id self' = next_id self + Z.of_nat (length cs) /\
    NoDup (dict_keys kept) /\
    (forall k, In k (dict_keys kept) -> In k (dict_keys (tracks self))).
Proof.
  intros W. destruct W as [N B]. destruct detections as [|r rs].
  - exists [], (with_tracks
                 (keep_live (map_tracks (fun _ => older) (tracks self))) self),
      (keep_live (map_tracks (fun _ => older) (tracks self))), [].
    split; [now apply update_no_detections|]. cbn [tracks next_id with_tracks].
    split; [now rewrite app_nil_r|]. split; [simpl; lia|]. split.
    + apply keep_live_NoDup. now rewrite map_tracks_keys.
    + intros k Hk. apply keep_live_keys in Hk.
      now rewrite map_tracks_keys in Hk.
  - destruct self as [d nid]. destruct d as [|kt d].
    + eexists _, _, [], _. split; [apply update_no_tracks|].
      cbn [tracks next_id app]. split; [reflexivity|].
      split; [now rewrite length_map|]. split; [constructor | tauto].
    + destruct (@update_both (mkTracker (kt :: d) nid) r rs)
        as (a & _ & _ & _ & E); [discriminate | assumption |].
      rewrite associated_shape in E by (split; assumption).
      eexists _, _, _, _. split; [exact E|]. cbn [tracks next_id].
      split; [reflexivity|]. split; [reflexivity|]. split.
      * apply keep_live_NoDup. now rewrite map_tracks_keys.
      * intros k Hk. apply keep_live_keys in Hk.
        now rewrite map_tracks_keys in Hk.
Qed.

Lemma shape_wf (self : PersonTracker) (kept : tracks_t) (cs : list point) :
  wf self ->
  NoDup (dict_keys kept) ->
  (forall k, In k (dict_keys kept) -> In k (dict_keys (tracks self))) ->
  wf (mkTracker (kept ++ new_tracks (next_id self) cs)
        (next_id self + Z.of_nat (length cs))).
Proof.
  intros [N B] Nk Hk. split; cbn [tracks next_id].
  - rewrite dict_keys_app, new_tracks_keys. apply NoDup_app.
    + assumption.
    + apply zrange_NoDup.
    + intros k H1 H2. apply Hk, B in H1. apply zrange_In in H2. lia.
  - intros k. rewrite dict_keys_app, new_tracks_keys, in_app_iff, zrange_In.
    intros [H|H]; [apply Hk, B in H|]; lia.
Qed.

Lemma update_wf (self self' : PersonTracker) (detections : list rect)
    (ids : list Z) :
  wf self -> update self detections = Ret (ids, self') -> wf self'.
Proof.
  intros W E.
  destruct (@update_shape self detections W)
    as (ids' & s' & kept & cs & E' & Ht & Hn & Nk & Hk).
  rewrite E in E'. inversion E'; subst ids' s'.
  destruct self' as [d' n']. cbn [tracks next_id] in Ht, Hn. subst d' n'.
  now apply shape_wf.
Qed.

Lemma reachable_wf (self : PersonTracker) : reachable self -> wf self.
Proof.
  induction 1 as [|self detections ids self' _ IH E].
  - split; simpl; [constructor | tauto].
  - exact (@update_wf _ _ _ _ IH E).
Qed.

Lemma filter_none {A : Type} (p : A -> bool) (l : list A) :
  (forall x, In x l -> p x = false) -> filter p l = [].
Proof.
  induction l as [|a l IH]; simpl; intros H; [reflexivity|].
  rewrite (H a) by (now left). apply IH. intros x Hx. apply H. now right.
Qed.

Lemma filter_all {A : Type} (p : A -> bool) (l : list A) :
  (forall x, In x l -> p x = true) -> filter p l = l.
Proof.
  induction l as [|a l IH]; simpl; intros H; [reflexivity|].
  rewrite (H a) by (now left). f_equal. apply IH. intros x Hx. apply H.
  now right.
Qed.

Lemma appeared_shape (self : PersonTracker) (kept : tracks_t)
    (cs : list point) :
  wf self ->
  (forall k, In k (dict_keys kept) -> In k (dict_keys (tracks self))) ->
  appeared (tracks self) (kept ++ new_tracks (next_id self) cs)
  = zrange (next_id self) (length cs).
Proof.
  intros [N B] Hk. unfold appeared.
  rewrite dict_keys_app, filter_app, new_tracks_keys.
  rewrite filter_none, filter_all; [reflexivity | |].
  - intros k H. apply zrange_In in H. apply negb_true_iff.
    apply (existsb_eqb_notIn _ Z.eqb_eq). intros H'. apply B in H'. lia.
  - intros k H. apply negb_false_iff.
    apply (existsb_eqb_In _ Z.eqb_eq). now apply Hk.
Qed.

Lemma nth_error_zrange (a : Z) (n i : nat) (x : Z) :
  nth_error (zrange a n) i = Some x -> x = a + Z.of_nat i.
Proof.
  revert a i. induction n as [|n IH]; intros a [|i]; simpl; try discriminate.
  - intros [= <-]. lia.
  - intros H. apply IH in H. lia.
Qed.

Lemma issued_from (frames : list (list rect)) (self : PersonTracker) :
  wf self ->
  exists self' log,
    run self frames = Ret self' /\
    issued self frames = Ret log /\
    log = zrange (next_id self) (length log) /\
    next_id self' = next_id self + Z.of_nat (length log) /\
    wf self'.
Proof.
  revert self. induction frames as [|detections rest IH]; intros self W.
  - exists self, []. simpl. repeat split; try reflexivity; try lia;
      apply W.
  - destruct (@update_shape self detections W)
      as (ids & s1 & kept & cs & E & Ht & Hn & Nk & Hk).
    assert (W1 : wf s1) by exact (@update_wf _ _ _ _ W E).
    destruct (IH s1 W1) as (self' & log & R & L & Hl & Hn' & W').
    exists self', (zrange (next_id self) (length cs) ++ log).
    cbn [run issued]. rewrite E. cbn [bind snd]. rewrite R, L. cbn [bind].
    rewrite Ht, appeared_shape by assumption.
    split; [reflexivity|]. split; [reflexivity|].
    rewrite length_app, zrange_length. split; [|split].
    + rewrite zrange_app. f_equal. rewrite <- Hn. exact Hl.
    + lia.
    + assumption.
Qed.

(** C5.  Over any sequence of [update] calls on a tracker as constructed,
    the ids that appear in the track dict, in order of appearance, are
    1, 2, 3, ... without gap: the first is 1, each is greater than all
    before it, none appears twice (so none comes back after its track was
    removed), and as many appeared as [next_id] advanced. *)
Theorem ids_issued_in_order (frames : list (list rect)) :
  exists self' log,
    run init frames = Ret self' /\
    issued init frames = Ret log /\
    log = zrange 1 (length log) /\
    next_id self' = 1 + Z.of_nat (length log) /\
    NoDup log /\
    (forall i j a b, (i < j)%nat ->
       nth_error log i = Some a -> nth_error log j = Some b -> a < b).
Proof.
  destruct (@issued_from frames init) as (self' & log & R & L & Hl & Hn & _).
  { split; simpl; [constructor | tauto]. }
  exists self', log. cbn [next_id init] in Hl, Hn.
  do 4 (split; [assumption|]). split.
  - rewrite Hl. apply zrange_NoDup.
  - intros i j a b Hij Ha Hb. rewrite Hl in Ha, Hb.
    apply nth_error_zrange in Ha, Hb. lia.
Qed.

(** One detection, eleven frames without any, the same detection again:
    track 1 is gone by then and the detection becomes track 2. *)
Example id_not_reused_after_removal :
  issued init ([[(0, 0, 10, 10)]] ++ quiet 11 ++ [[(0, 0, 10, 10)]])
  = Ret [1; 2] /\
  run init ([[(0, 0, 10, 10)]] ++ quiet 11 ++ [[(0, 0, 10, 10)]])
  = Ret (mkTracker [(2, mkTrack (5, 5) 0)] 3).
Proof. split; reflexivity. Qed.

(** Tracks at (0,0) and (500,500), detections centred at (5,5) and
    (520,520): both tracks are kept and no id is created. *)
Example two_tracks_two_detections :
  update (mkTracker [(1, mkTrack (0, 0) 0); (2, mkTrack (500, 500) 0)] 3)
    [(0, 0, 10, 10); (510, 510, 530, 530)]
  = Ret ([1; 2],
         mkTracker [(1, mkTrack (5, 5) 0); (2, mkTrack (520, 520) 0)] 3).
Proof. reflexivity. Qed.

(** ** Matched and unmatched tracks after a call *)

Section AfterMatching.
Variable d : tracks_t.
Variable detections : list rect.
Variable a : assign.
Hypothesis d_ok : NoDup (dict_keys d).
Hypothesis a_inv :
  assign_inv (dict_keys d) (track_centroids_of d)
    (map centroid_of detections) (length detections) a.

Let cs := map centroid_of detections.
Let asg := assignments a.

Lemma assigned_detection (i : nat) (tid : Z) :
  In (i, tid) asg ->
  exists r, nth_error detections i = Some r /\
            lookup Nat.eqb i asg = Some tid.
Proof.
  intros Hin.
  assert (Hi : (i < length detections)%nat).
  { apply (inv_keys a_inv). change i with (fst (i, tid)). now apply in_map. }
  destruct (nth_error detections i) as [r|] eqn:E.
  - exists r. split; [reflexivity|].
    apply (In_lookup _ Nat.eqb_eq); [exact (inv_keys_nodup a_inv)|assumption].
  - apply nth_error_None in E. lia.
Qed.

Lemma assigned_is_track (i : nat) (tid : Z) :
  In (i, tid) asg -> exists t, lookup Z.eqb tid d = Some t.
Proof.
  intros Hin. destruct (assigned_detection _ _ Hin) as (r & Hr & Hl).
  assert (Hc : choice_ok (dict_keys d) (track_centroids_of d) asg i
                 (centroid_of r)).
  { apply (inv_choice a_inv).
    - now apply map_nth_error.
    - apply nth_error_Some. congruence. }
  unfold choice_ok in Hc. rewrite Hl in Hc.
  destruct Hc as (j & tc & Hj & _).
  apply nth_error_In in Hj.
  destruct (lookup Z.eqb tid d) as [t|] eqn:E; [now exists t|].
  apply (lookup_None _ Z.eqb_eq) in E. contradiction.
Qed.

Lemma refreshed_assigned (i : nat) (tid : Z) (r : rect) (t : Track) :
  In (i, tid) asg -> nth_error detections i = Some r ->
  refreshed asg cs tid t = mkTrack (centroid_of r) 0.
Proof.
  intros Hin Hr. unfold refreshed.
  assert (A : assigned tid asg = true).
  { apply assigned_In. change tid with (snd (i, tid)). now apply in_map. }
  rewrite A. destruct (rows_of_assigned _ _ A) as (i' & rest & R & Hin').
  rewrite R. cbn [hd].
  assert (E : (i', tid) = (i, tid)).
  { apply (NoDup_map_In_inj snd _ _ _ (inv_values_nodup a_inv) Hin' Hin).
    reflexivity. }
  inversion E; subst i'. f_equal.
  apply nth_error_nth. unfold cs. now apply map_nth_error.
Qed.

Lemma lookup_assigned (i : nat) (tid : Z) (r : rect) :
  In (i, tid) asg -> nth_error detections i = Some r ->
  lookup Z.eqb tid (keep_live (map_tracks (refreshed asg cs) d))
  = Some (mkTrack (centroid_of r) 0).
Proof.
  intros Hin Hr. rewrite lookup_keep_map by assumption.
  destruct (assigned_is_track _ _ Hin) as [t Ht]. rewrite Ht.
  now rewrite (refreshed_assigned _ _ t Hin Hr).
Qed.

Lemma lookup_unassigned (k : Z) (t : Track) :
  lookup Z.eqb k d = Some t -> assigned k asg = false ->
  lookup Z.eqb k (keep_live (map_tracks (refreshed asg cs) d))
  = if disappeared t + 1 >? 10 then None
    else Some (mkTrack (centroid t) (disappeared t + 1)).
Proof.
  intros Ht A. rewrite lookup_keep_map by assumption. rewrite Ht.
  unfold refreshed. rewrite A.
  unfold live, older, set_disappeared, max_disappeared. simpl.
  now destruct (disappeared t + 1 >? 10).
Qed.
End AfterMatching.

Lemma lookup_new_tracks_below (nid k : Z) (cs : list point) :
  k < nid -> lookup Z.eqb k (new_tracks nid cs) = None.
Proof.
  intros H. apply (lookup_None _ Z.eqb_eq).
  rewrite new_tracks_keys, zrange_In. lia.
Qed.

Lemma lookup_Some_key (k : Z) (t : Track) (d : tracks_t) :
  lookup Z.eqb k d = Some t -> In k (dict_keys d).
Proof.
  intros H. apply (lookup_Some_In _ Z.eqb_eq) in H.
  change k with (fst (k, t)). now apply in_map.
Qed.

(** C6.  In every [update] call on a reachable tracker, a track the call
    matches to a detection ends the call with that detection's centroid and
    [disappeared] 0, and a track it does not match ends it with its centroid
    unchanged and [disappeared] one higher, or is removed when that exceeds
    10: every surviving track was changed once, in one of the two ways. *)
Theorem tracks_reset_or_aged (self : PersonTracker) (detections : list rect) :
  reachable self ->
  exists ids self' asg,
    update self detections = Ret (ids, self') /\
    matching self detections = Ret asg /\
    forall k t, lookup Z.eqb k (tracks self) = Some t ->
      if assigned k asg then
        exists i r,
          lookup Nat.eqb i asg = Some k /\
          nth_error detections i = Some r /\
          lookup Z.eqb k (tracks self') = Some (mkTrack (centroid_of r) 0)
      else
        lookup Z.eqb k (tracks self') =
        if disappeared t + 1 >? 10 then None
        else Some (mkTrack (centroid t) (disappeared t + 1)).
Proof.
  intros R. pose proof (reachable_wf R) as W. destruct W as [N B].
  destruct detections as [|r rs].
  - eexists _, _, []. split; [now apply update_no_detections|].
    split; [reflexivity|]. intros k t Ht. cbn [assigned dict_values map existsb].
    cbn [tracks with_tracks]. rewrite lookup_keep_map by assumption.
    rewrite Ht. unfold live, older, set_disappeared, max_disappeared. simpl.
    now destruct (disappeared t + 1 >? 10).
  - destruct self as [d nid]. destruct d as [|kt d].
    + eexists _, _, []. split; [apply update_no_tracks|].
      split; [reflexivity|]. intros k t Ht. discriminate.
    + destruct (@update_both (mkTracker (kt :: d) nid) r rs)
        as (a & _ & I & M & E); [discriminate | assumption |].
      rewrite associated_shape in E by (split; assumption).
      eexists _, _, _. split; [exact E|]. split; [exact M|].
      cbn [tracks next_id] in *. intros k t Ht.
      rewrite lookup_app.
      destruct (assigned k (assignments a)) eqn:A.
      * destruct (rows_of_assigned _ _ A) as (i & rest & _ & Hin).
        destruct (assigned_detection _ _ I _ _ Hin) as (r' & Hr & Hl).
        exists i, r'. do 2 (split; [assumption|]).
        now rewrite (lookup_assigned _ _ N I _ _ Hin Hr).
      * rewrite (lookup_unassigned _ (r :: rs) a N _ Ht A).
        destruct (disappeared t + 1 >? 10); [|reflexivity].
        apply lookup_new_tracks_below. apply B. now apply lookup_Some_key in Ht.
Qed.

(** The tracker after a first frame with one detection. *)
Lemma reachable_one_track :
  reachable (mkTracker [(1, mkTrack (5, 5) 0)] 2).
Proof.
  apply (@reach_update init [(0, 0, 10, 10)] [1]); [exact reach_init|].
  reflexivity.
Defined.

Lemma tracks_reset_or_aged_witness :
  exists ids self' asg,
    update (mkTracker [(1, mkTrack (5, 5) 0)] 2) [(2, 2, 12, 12)]
    = Ret (ids, self') /\
    matching (mkTracker [(1, mkTrack (5, 5) 0)] 2) [(2, 2, 12, 12)]
    = Ret asg /\
    forall k t, lookup Z.eqb k [(1, mkTrack (5, 5) 0)] = Some t ->
      if assigned k asg then
        exists i r,
          lookup Nat.eqb i asg = Some k /\
          nth_error [(2, 2, 12, 12)] i = Some r /\
          lookup Z.eqb k (tracks self') = Some (mkTrack (centroid_of r) 0)
      else
        lookup Z.eqb k (tracks self') =
        if disappeared t + 1 >? 10 then None
        else Some (mkTrack (centroid t) (disappeared t + 1)).
Proof.
  apply (@tracks_reset_or_aged (mkTracker [(1, mkTrack (5, 5) 0)] 2)
           [(2, 2, 12, 12)]).
  exact reachable_one_track.
Defined.

(** ** Counting the tracks a call returns *)

Lemma enumerate_from_In {A : Type} (l : list A) (s i : nat) (x : A) :
  nth_error l i = Some x -> In ((s + i)%nat, x) (combine (seq s (length l)) l).
Proof.
  revert s i. induction l as [|a l IH]; intros s [|i]; simpl;
    try discriminate.
  - intros [= ->]. left. f_equal. lia.
  - intros H. right. replace (s + S i)%nat with (S s + i)%nat by lia.
    now apply IH.
Qed.

Lemma enumerate_In {A : Type} (l : list A) (i : nat) (x : A) :
  nth_error l i = Some x -> In (i, x) (enumerate l).
Proof. intros H. exact (enumerate_from_In l 0 i H). Qed.

Lemma enumerate_from_fst {A : Type} (l : list A) (s : nat) :
  map fst (combine (seq s (length l)) l) = seq s (length l).
Proof.
  revert s. induction l as [|a l IH]; intros s; simpl; [reflexivity|].
  f_equal. apply IH.
Qed.

Lemma filter_split_length {A : Type} (p : A -> bool) (l : list A) :
  (length (filter p l) + length (filter (fun x => negb (p x)) l))%nat
  = length l.
Proof.
  induction l as [|a l IH]; simpl; [reflexivity|].
  destruct (p a); simpl; lia.
Qed.

Lemma filter_map_fst_length {A : Type} (p : nat -> bool)
    (l : list (nat * A)) :
  length (filter (fun ic => p (fst ic)) l) = length (filter p (map fst l)).
Proof.
  induction l as [|a l IH]; simpl; [reflexivity|].
  destruct (p (fst a)); simpl; now rewrite IH.
Qed.

Lemma same_elements_length (l1 l2 : list nat) :
  NoDup l1 -> NoDup l2 -> (forall x, In x l1 <-> In x l2) ->
  length l1 = length l2.
Proof.
  intros N1 N2 H. apply Nat.le_antisymm; apply NoDup_incl_length;
    try assumption; intros x Hx; now apply H.
Qed.

(** Detections split into those with an assignment and those that become
    new tracks. *)
Lemma unassigned_count (tids : list Z) (tcs cs : list point) (a : assign) :
  assign_inv tids tcs cs (length cs) a ->
  (length (unassigned (enumerate cs) (used_rows a)) +
   length (assignments a))%nat = length cs.
Proof.
  intros I. unfold unassigned.
  rewrite (filter_map_fst_length (fun i => negb (set_in i (used_rows a)))).
  unfold enumerate. rewrite enumerate_from_fst.
  pose proof (filter_split_length (fun i => set_in i (used_rows a))
                (seq 0 (length cs))) as Hs.
  rewrite length_seq in Hs.
  assert (Hc : length (filter (fun i => set_in i (used_rows a))
                         (seq 0 (length cs)))
               = length (dict_keys (assignments a))); [|
    unfold dict_keys in Hc; rewrite length_map in Hc; lia].
  apply same_elements_length.
  - apply NoDup_filter, seq_NoDup.
  - exact (inv_keys_nodup I).
  - intros i. rewrite filter_In, in_seq, (inv_rows I). split.
    + tauto.
    + intros H. split; [|assumption]. apply (inv_keys I) in H. lia.
Qed.

Lemma lookup_new_tracks_In (nid tid : Z) (cs : list point) (t : Track) :
  In (tid, t) (new_tracks nid cs) ->
  lookup Z.eqb tid (new_tracks nid cs) = Some t.
Proof.
  intros H. apply (In_lookup _ Z.eqb_eq); [apply new_tracks_NoDup|assumption].
Qed.

Lemma lookup_old_above (nid tid : Z) (d : tracks_t) :
  (forall k, In k (dict_keys d) -> k < nid) -> nid <= tid ->
  lookup Z.eqb tid d = None.
Proof.
  intros B H. apply (lookup_None _ Z.eqb_eq). intros Hin. apply B in Hin. lia.
Qed.

(** The tracks under the ids from [nid] on, after old tracks all below
    [nid]. *)
Lemma new_ids_present (nid tid : Z) (kept : tracks_t) (cs : list point) :
  (forall k, In k (dict_keys kept) -> k < nid) ->
  nid <= tid < nid + Z.of_nat (length cs) ->
  In tid (dict_keys (kept ++ new_tracks nid cs)) /\
  exists t, lookup Z.eqb tid (kept ++ new_tracks nid cs) = Some t /\
            disappeared t = 0.
Proof.
  intros B H.
  assert (Hk : In tid (dict_keys (new_tracks nid cs)))
    by (rewrite new_tracks_keys; now apply zrange_In).
  split.
  - rewrite dict_keys_app, in_app_iff. now right.
  - unfold dict_keys in Hk. apply in_map_iff in Hk.
    destruct Hk as [[k t] [E Hin]]. simpl in E. subst k.
    exists t. rewrite lookup_app, (lookup_old_above _ B) by lia.
    split; [now apply lookup_new_tracks_In|].
    now apply new_tracks_In in Hin.
Qed.

Lemma new_track_for (nid : Z) (kept : tracks_t) (cs : list point)
    (c : point) :
  (forall k, In k (dict_keys kept) -> k < nid) ->
  In c cs ->
  exists tid,
    nid <= tid < nid + Z.of_nat (length cs) /\
    lookup Z.eqb tid (kept ++ new_tracks nid cs) = Some (mkTrack c 0).
Proof.
  intros B Hin. apply In_nth_error in Hin. destruct Hin as [p Hp].
  assert (Hlt : (p < length cs)%nat) by (apply nth_error_Some; congruence).
  exists (nid + Z.of_nat p). split; [lia|].
  rewrite lookup_app, (lookup_old_above _ B) by lia.
  apply lookup_new_tracks_In. now apply new_tracks_nth.
Qed.

(** C10.  In every [update] call on a reachable tracker with at least one
    detection, each detection either resets an existing track (the track it
    is matched to ends the call at the detection's centroid with
    [disappeared] 0) or creates a track under a fresh id with [disappeared]
    0; every id created in the call, that is every id from the old
    [next_id] up to the new one, is still in the dict and in the returned
    list; and the returned list is at least as long as the detection list. *)
Theorem detections_all_tracked (self : PersonTracker)
    (detections : list rect) :
  reachable self -> detections <> [] ->
  exists ids self' asg,
    update self detections = Ret (ids, self') /\
    matching self detections = Ret asg /\
    (forall i r, nth_error detections i = Some r ->
       match lookup Nat.eqb i asg with
       | Some tid =>
           (exists t, lookup Z.eqb tid (tracks self) = Some t) /\
           lookup Z.eqb tid (tracks self')
           = Some (mkTrack (centroid_of r) 0)
       | None =>
           exists tid,
             next_id self <= tid < next_id self' /\
             lookup Z.eqb tid (tracks self) = None /\
             lookup Z.eqb tid (tracks self')
             = Some (mkTrack (centroid_of r) 0)
       end) /\
    (forall tid, next_id self <= tid < next_id self' ->
       In tid ids /\
       exists t, lookup Z.eqb tid (tracks self') = Some t /\
                 disappeared t = 0) /\
    (length detections <= length ids)%nat.
Proof.
  intros R Hd. pose proof (reachable_wf R) as W. destruct W as [N B].
  destruct detections as [|r0 rs]; [congruence|]. clear Hd.
  destruct self as [d nid]. cbn [tracks next_id] in *.
  destruct d as [|kt d].
  - eexists _, _, []. split; [apply update_no_tracks|].
    split; [reflexivity|]. cbn [tracks next_id lookup].
    rewrite <- (length_map centroid_of (r0 :: rs)).
    split; [|split].
    + intros i r Hr.
      destruct (@new_track_for nid [] (map centroid_of (r0 :: rs))
                  (centroid_of r)) as (tid & Ht & Hl).
      * simpl. tauto.
      * apply in_map. now apply nth_error_In in Hr.
      * exists tid. now split.
    + intros tid Ht.
      destruct (@new_ids_present nid tid [] (map centroid_of (r0 :: rs)))
        as [Hin Hex]; [simpl; tauto | assumption |].
      cbn [app] in Hin, Hex. rewrite new_tracks_keys in Hin. now split.
    + now rewrite zrange_length.
  - destruct (@update_both (mkTracker (kt :: d) nid) r0 rs)
      as (a & _ & I & M & E); [discriminate | assumption |].
    rewrite associated_shape in E by (split; assumption).
    cbn [tracks next_id] in *.
    set (cs := map centroid_of (r0 :: rs)) in *.
    set (X := keep_live (map_tracks (refreshed (assignments a) cs) (kt :: d)))
      in *.
    set (cs' := map snd (unassigned (enumerate cs) (used_rows a))) in *.
    assert (BX : forall k, In k (dict_keys X) -> k < nid).
    { intros k Hk. apply B. apply keep_live_keys in Hk.
      now rewrite map_tracks_keys in Hk. }
    eexists _, _, _. split; [exact E|]. split; [exact M|].
    cbn [tracks next_id]. split; [|split].
    + intros i r Hr.
      destruct (lookup Nat.eqb i (assignments a)) as [tid|] eqn:L.
      * apply (lookup_Some_In _ Nat.eqb_eq) in L. split.
        -- exact (assigned_is_track _ _ I _ _ L).
        -- rewrite lookup_app. fold cs.
           unfold X, cs. now rewrite (lookup_assigned _ _ N I _ _ L Hr).
      * apply (lookup_None _ Nat.eqb_eq) in L.
        assert (Hc : In (centroid_of r) cs').
        { unfold cs'. change (centroid_of r) with (snd (i, centroid_of r)).
          apply in_map. unfold unassigned. apply filter_In. split.
          - apply enumerate_In. unfold cs. now apply map_nth_error.
          - simpl. apply negb_true_iff.
            destruct (set_in i (used_rows a)) eqn:U; [|reflexivity].
            apply (inv_rows I) in U. contradiction. }
        destruct (@new_track_for nid X cs' _ BX Hc) as (tid & Ht & Hl).
        exists tid. split; [assumption|]. split; [|assumption].
        apply (lookup_old_above _ B). lia.
    + intros tid Ht. now apply new_ids_present.
    + unfold dict_keys. rewrite length_map, length_app.
      assert (HY : length (new_tracks nid cs') = length cs').
      { rewrite <- (length_map fst (new_tracks nid cs')).
        fold (dict_keys (new_tracks nid cs')).
        now rewrite new_tracks_keys, zrange_length. }
      rewrite HY.
      assert (Hc : (length (unassigned (enumerate cs) (used_rows a)) +
                    length (assignments a))%nat = length cs).
      { eapply unassigned_count.
        replace (length cs) with (length (r0 :: rs))
          by (unfold cs; now rewrite length_map).
        exact I. }
      assert (HX : (length (assignments a) <= length X)%nat).
      { rewrite <- (length_map snd (assignments a)).
        rewrite <- (length_map fst X).
        apply NoDup_incl_length; [exact (inv_values_nodup I)|].
        intros v Hv. apply in_map_iff in Hv.
        destruct Hv as [[i v'] [Ev Hin]]. simpl in Ev. subst v'.
        destruct (assigned_detection _ _ I _ _ Hin) as (r & Hr & _).
        apply (@lookup_Some_key v (mkTrack (centroid_of r) 0)).
        unfold X, cs. exact (lookup_assigned _ _ N I _ _ Hin Hr). }
      unfold cs'. rewrite length_map.
      unfold cs in Hc at 2. rewrite length_map in Hc. lia.
Qed.

Lemma detections_all_tracked_witness :
  exists ids self' asg,
    update (mkTracker [(1, mkTrack (5, 5) 0)] 2)
      [(2, 2, 12, 12); (300, 300, 320, 320)] = Ret (ids, self') /\
    matching (mkTracker [(1, mkTrack (5, 5) 0)] 2)
      [(2, 2, 12, 12); (300, 300, 320, 320)] = Ret asg /\
    (forall i r,
       nth_error [(2, 2, 12, 12); (300, 300, 320, 320)] i = Some r ->
       match lookup Nat.eqb i asg with
       | Some tid =>
           (exists t, lookup Z.eqb tid [(1, mkTrack (5, 5) 0)] = Some t) /\
           lookup Z.eqb tid (tracks self')
           = Some (mkTrack (centroid_of r) 0)
       | None =>
           exists tid,
             2 <= tid < next_id self' /\
             lookup Z.eqb tid [(1, mkTrack (5, 5) 0)] = None /\
             lookup Z.eqb tid (tracks self')
             = Some (mkTrack (centroid_of r) 0)
       end) /\
    (forall tid, 2 <= tid < next_id self' ->
       In tid ids /\
       exists t, lookup Z.eqb tid (tracks self') = Some t /\
                 disappeared t = 0) /\
    (2 <= length ids)%nat.
Proof.
  apply (@detections_all_tracked (mkTracker [(1, mkTrack (5, 5) 0)] 2)
           [(2, 2, 12, 12); (300, 300, 320, 320)]).
  - exact reachable_one_track.
  - discriminate.
Defined.

(** ** Further properties of the tracker *)

Lemma refreshed_cases (asg : dict nat Z) (cs : list point) (k : Z)
    (t : Track) :
  disappeared (refreshed asg cs k t) = 0 \/ refreshed asg cs k t = older t.
Proof. unfold refreshed. destruct (assigned k asg); [now left | now right]. Qed.

(** The tracker a call leaves, with the way each old track was changed. *)
Lemma update_refined (self : PersonTracker) (detections : list rect) :
  wf self ->
  exists ids self' f cs,
    update self detections = Ret (ids, self') /\
    tracks self' =
      keep_live (map_tracks f (tracks self)) ++ new_tracks (next_id self) cs /\
    next_id self' = next_id self + Z.of_nat (length cs) /\
    (forall k t, disappeared (f k t) = 0 \/ f k t = older t) /\
    (length cs <= length detections)%nat /\
    (detections = [] -> ids = []) /\
    (detections <> [] -> ids = dict_keys (tracks self')).
Proof.
  intros W. destruct W as [N B]. destruct detections as [|r rs].
  - exists [], (with_tracks
                 (keep_live (map_tracks (fun _ => older) (tracks self))) self),
      (fun _ => older), [].
    split; [now apply update_no_detections|]. cbn [tracks next_id with_tracks].
    split; [now rewrite app_nil_r|]. split; [simpl; lia|].
    split; [now right|]. split; [simpl; lia|]. split; [reflexivity|congruence].
  - destruct self as [d nid]. destruct d as [|kt d].
    + eexists _, _, (fun _ => older), _. split; [apply update_no_tracks|].
      cbn [tracks next_id].
      split; [reflexivity|]. split; [now rewrite length_map|].
      split; [now right|]. split; [now rewrite length_map|].
      split; [discriminate|]. intros _. now rewrite new_tracks_keys, length_map.
    + destruct (@update_both (mkTracker (kt :: d) nid) r rs)
        as (a & _ & I & _ & E); [discriminate | assumption |].
      rewrite associated_shape in E by (split; assumption).
      eexists _, _, _, _. split; [exact E|]. cbn [tracks next_id].
      split; [reflexivity|]. split; [reflexivity|].
      split; [apply refreshed_cases|]. split.
      * rewrite length_map. unfold unassigned.
        etransitivity; [apply filter_length_le|].
        unfold enumerate. rewrite length_combine, length_seq, !length_map.
        cbn [length]. lia.
      * split; [discriminate | reflexivity].
Qed.

Lemma sorted_app (l1 l2 : list Z) :
  StronglySorted Z.lt l1 -> StronglySorted Z.lt l2 ->
  (forall x y, In x l1 -> In y l2 -> x < y) ->
  StronglySorted Z.lt (l1 ++ l2).
Proof.
  induction l1 as [|a l1 IH]; simpl; intros S1 S2 H; [assumption|].
  inversion S1 as [|? ? S1' F]; subst. constructor.
  - apply IH; [assumption | assumption |]. intros x y Hx Hy. apply H; tauto.
  - apply Forall_app. split; [assumption|].
    apply Forall_forall. intros y Hy. apply H; tauto.
Qed.

Lemma zrange_sorted (a : Z) (n : nat) : StronglySorted Z.lt (zrange a n).
Proof.
  revert a. induction n as [|n IH]; intros a; simpl; constructor.
  - apply IH.
  - apply Forall_forall. intros y Hy. apply zrange_In in Hy. lia.
Qed.

Lemma sorted_NoDup (l : list Z) : StronglySorted Z.lt l -> NoDup l.
Proof.
  induction 1 as [|a l S IH F]; constructor; [|assumption].
  intros Hin. rewrite Forall_forall in F. apply F in Hin. lia.
Qed.

Lemma keep_map_sorted (f : Z -> Track -> Track) (d : tracks_t) :
  StronglySorted Z.lt (dict_keys d) ->
  StronglySorted Z.lt (dict_keys (keep_live (map_tracks f d))).
Proof.
  induction d as [|[k t] d IH]; simpl; intros S; [constructor|].
  inversion S as [|? ? S' F]; subst.
  destruct (live (f k t)); simpl; [|now apply IH].
  constructor; [now apply IH|].
  apply Forall_forall. intros y Hy. rewrite Forall_forall in F. apply F.
  apply keep_live_keys in Hy. now rewrite map_tracks_keys in Hy.
Qed.

Lemma keep_map_In (f : Z -> Track -> Track) (d : tracks_t) (k : Z)
    (t' : Track) :
  In (k, t') (keep_live (map_tracks f d)) ->
  exists t, In (k, t) d /\ t' = f k t /\ disappeared t' <= 10.
Proof.
  intros H. pose proof (keep_live_all _ _ _ H) as L.
  unfold keep_live in H. apply filter_In in H. destruct H as [H _].
  unfold map_tracks in H. apply in_map_iff in H.
  destruct H as [[k0 t0] [E Hin]]. simpl in E. inversion E; subst.
  exists t0. unfold max_disappeared in L. tauto.
Qed.

Lemma sorted_length_bound (l : list Z) (a b : Z) :
  StronglySorted Z.lt l -> (forall x, In x l -> a <= x < b) -> a <= b ->
  Z.of_nat (length l) <= b - a.
Proof.
  intros S. revert a. induction S as [|x l S IH F]; intros a H Hab.
  - simpl. lia.
  - rewrite Forall_forall in F.
    assert (Hx : a <= x < b) by (apply H; now left).
    specialize (IH (x + 1)).
    cbn [length]. rewrite Nat2Z.inj_succ.
    assert (Z.of_nat (length l) <= b - (x + 1)); [|lia].
    apply IH; [|lia]. intros y Hy.
    assert (a <= y < b) by (apply H; now right).
    apply F in Hy. lia.
Qed.

Lemma tidy_wf (self : PersonTracker) : tidy self -> wf self.
Proof.
  intros (_ & S & B). split; [now apply sorted_NoDup|].
  intros k Hk. unfold dict_keys in Hk. apply in_map_iff in Hk.
  destruct Hk as [[k' t] [E Hin]]. simpl in E. subst k'.
  now apply B in Hin.
Qed.

Lemma update_tidy (self self' : PersonTracker) (detections : list rect)
    (ids : list Z) :
  tidy self -> update self detections = Ret (ids, self') -> tidy self'.
Proof.
  intros T E. pose proof (tidy_wf T) as W. destruct T as (H1 & S & B).
  destruct (@update_refined self detections W)
    as (ids' & s' & f & cs & E' & Ht & Hn & Hf & _).
  rewrite E in E'. inversion E'; subst ids' s'. clear E'.
  split; [lia|]. rewrite Ht. split.
  - rewrite dict_keys_app, new_tracks_keys. apply sorted_app.
    + now apply keep_map_sorted.
    + apply zrange_sorted.
    + intros x y Hx Hy. apply keep_live_keys in Hx.
      rewrite map_tracks_keys in Hx. apply (proj2 W) in Hx.
      apply zrange_In in Hy. lia.
  - intros k t Hin. apply in_app_iff in Hin. destruct Hin as [Hin|Hin].
    + apply keep_map_In in Hin. destruct Hin as (t0 & Hin & -> & L).
      apply B in Hin. split; [lia|]. split; [|assumption].
      destruct (Hf k t0) as [H0|H0]; [lia|].
      rewrite H0. unfold older. simpl. lia.
    + apply new_tracks_In in Hin. lia.
Qed.

Lemma reachable_tidy (self : PersonTracker) : reachable self -> tidy self.
Proof.
  induction 1 as [|self detections ids self' _ IH E].
  - split; [simpl; lia|]. split; [constructor | simpl; tauto].
  - exact (@update_tidy _ _ _ _ IH E).
Qed.

Lemma tidy_count (self : PersonTracker) :
  tidy self -> Z.of_nat (length (tracks self)) <= next_id self - 1.
Proof.
  intros T. destruct T as (H1 & S & B).
  rewrite <- (length_map fst (tracks self)).
  apply (@sorted_length_bound (dict_keys (tracks self)) 1 (next_id self));
    [assumption | | lia].
  intros x Hx. unfold dict_keys in Hx. apply in_map_iff in Hx.
  destruct Hx as [[k t] [E Hin]]. simpl in E. subst k.
  now apply B in Hin.
Qed.

Lemma sorted_nth_le (l : list Z) (j k : nat) (a b : Z) :
  StronglySorted Z.lt l -> (j <= k)%nat ->
  nth_error l j = Some a -> nth_error l k = Some b -> a <= b.
Proof.
  intros S. revert j k. induction S as [|x l S IH F]; intros j k Hjk Ha Hb.
  - destruct j; discriminate.
  - destruct j as [|j], k as [|k]; simpl in Ha, Hb.
    + inversion Ha; inversion Hb; subst. lia.
    + inversion Ha; subst. apply nth_error_In in Hb.
      rewrite Forall_forall in F. apply F in Hb. lia.
    + lia.
    + apply (IH j k); [lia | assumption | assumption].
Qed.

(** X1.  Every tracker reached from the constructor by [update] calls keeps
    its tracks in strictly ascending id order, every id between 1 and
    [next_id] - 1, every [disappeared] between 0 and 10; so it never holds
    more tracks than ids were handed out. *)
Theorem reachable_tracker_tidy (self : PersonTracker) :
  reachable self ->
  1 <= next_id self /\
  StronglySorted Z.lt (dict_keys (tracks self)) /\
  (forall k t, lookup Z.eqb k (tracks self) = Some t ->
     1 <= k < next_id self /\ 0 <= disappeared t <= 10) /\
  Z.of_nat (length (tracks self)) <= next_id self - 1.
Proof.
  intros R. pose proof (reachable_tidy R) as T.
  pose proof (tidy_count T) as C. destruct T as (H1 & S & B).
  do 2 (split; [assumption|]). split; [|assumption].
  intros k t Hl. apply B. now apply (lookup_Some_In _ Z.eqb_eq).
Qed.

Lemma reachable_tracker_tidy_witness :
  1 <= 2 /\
  StronglySorted Z.lt (dict_keys [(1, mkTrack (5, 5) 0)]) /\
  (forall k t, lookup Z.eqb k [(1, mkTrack (5, 5) 0)] = Some t ->
     1 <= k < 2 /\ 0 <= disappeared t <= 10) /\
  Z.of_nat (length [(1, mkTrack (5, 5) 0)]) <= 2 - 1.
Proof.
  apply (@reachable_tracker_tidy (mkTracker [(1, mkTrack (5, 5) 0)] 2)).
  exact reachable_one_track.
Defined.

(** X2.  On a reachable tracker the list [update] returns is in strictly
    ascending order (so without repeats), holds only ids between 1 and the
    new [next_id] - 1, is the whole key list of the dict when the frame has
    detections, and is never longer than the tracks held before plus the
    detections of the frame. *)
Theorem returned_ids_ascending (self : PersonTracker)
    (detections : list rect) :
  reachable self ->
  exists ids self',
    update self detections = Ret (ids, self') /\
    StronglySorted Z.lt ids /\
    (forall id, In id ids -> 1 <= id < next_id self') /\
    (detections <> [] -> ids = dict_keys (tracks self')) /\
    (length ids <= length (tracks self) + length detections)%nat.
Proof.
  intros R. pose proof (reachable_tidy R) as T. pose proof (tidy_wf T) as W.
  destruct (@update_refined self detections W)
    as (ids & self' & f & cs & E & Ht & Hn & Hf & Hc & He & Hne).
  pose proof (@update_tidy _ _ _ _ T E) as T'.
  exists ids, self'. split; [assumption|].
  destruct detections as [|r rs].
  - rewrite (He eq_refl). split; [constructor|]. split; [simpl; tauto|].
    split; [congruence | simpl; lia].
  - assert (Hi : ids = dict_keys (tracks self')) by (apply Hne; discriminate).
    destruct T' as (H1 & S & B). split; [now rewrite Hi|]. split.
    + intros id Hid. rewrite Hi in Hid. unfold dict_keys in Hid.
      apply in_map_iff in Hid. destruct Hid as [[k t] [Ek Hin]].
      simpl in Ek. subst k. now apply B in Hin.
    + split; [intros _; assumption|].
      rewrite Hi. unfold dict_keys. rewrite length_map, Ht, length_app.
      assert (HY : length (new_tracks (next_id self) cs) = length cs).
      { rewrite <- (length_map fst). fold (dict_keys (new_tracks (next_id self) cs)).
        now rewrite new_tracks_keys, zrange_length. }
      assert (HX : (length (keep_live (map_tracks f (tracks self)))
                    <= length (tracks self))%nat).
      { etransitivity; [apply filter_length_le|].
        unfold map_tracks. now rewrite length_map. }
      lia.
Qed.

Lemma returned_ids_ascending_witness :
  exists ids self',
    update (mkTracker [(1, mkTrack (5, 5) 0)] 2)
      [(300, 300, 320, 320); (2, 2, 12, 12)] = Ret (ids, self') /\
    StronglySorted Z.lt ids /\
    (forall id, In id ids -> 1 <= id < next_id self') /\
    ([(300, 300, 320, 320); (2, 2, 12, 12)] <> [] ->
     ids = dict_keys (tracks self')) /\
    (length ids <= 1 + 2)%nat.
Proof.
  apply (@returned_ids_ascending (mkTracker [(1, mkTrack (5, 5) 0)] 2)
           [(300, 300, 320, 320); (2, 2, 12, 12)]).
  exact reachable_one_track.
Defined.

(** X3.  On a reachable tracker, when several tracks that no earlier
    detection claimed lie at the same distance from a detection and one of
    them is assigned to it, the one assigned has the lowest id: dict order
    is id order there, so the tie-break by dict order is a tie-break by
    id. *)
Theorem tie_goes_to_lowest_id (self : PersonTracker)
    (detections : list rect) :
  reachable self -> tracks self <> [] -> detections <> [] ->
  exists asg,
    matching self detections = Ret asg /\
    forall i r tid t tid' t',
      nth_error detections i = Some r ->
      lookup Nat.eqb i asg = Some tid ->
      lookup Z.eqb tid (tracks self) = Some t ->
      lookup Z.eqb tid' (tracks self) = Some t' ->
      ~ In tid' (claimed_before i asg) ->
      euclid (centroid_of r) (centroid t')
      = euclid (centroid_of r) (centroid t) ->
      tid <= tid'.
Proof.
  intros R Ht Hd. pose proof (reachable_tidy R) as T.
  pose proof (tidy_wf T) as [N _]. destruct T as (_ & S & _).
  destruct (@matching_spec self detections N Ht Hd) as (a & M & I).
  exists (assignments a). split; [assumption|].
  intros i r tid t tid' t' Hr Hl Hk Hk' Hn He.
  assert (Hc : choice_ok (dict_keys (tracks self))
                 (track_centroids_of (tracks self)) (assignments a) i
                 (centroid_of r)).
  { apply (inv_choice I).
    - now apply map_nth_error.
    - apply nth_error_Some. congruence. }
  apply choice_on_tracks in Hc. rewrite Hl in Hc.
  destruct Hc as (j & t0 & Hj & _ & _ & Hall).
  assert (t0 = t).
  { apply nth_error_In in Hj. apply (In_lookup _ Z.eqb_eq) in Hj;
      [congruence | assumption]. }
  subst t0.
  apply (lookup_Some_In _ Z.eqb_eq) in Hk'. apply In_nth_error in Hk'.
  destruct Hk' as [k Hk'].
  destruct (Hall k tid' t' Hk' Hn) as [_ Hstrict].
  assert (Hjk : (j <= k)%nat).
  { destruct (Nat.le_gt_cases j k) as [|Hlt]; [assumption|].
    apply Hstrict in Hlt. apply euclid_lt in Hlt. rewrite He in Hlt.
    exfalso. exact (Rlt_irrefl _ Hlt). }
  destruct (@nth_error_track _ _ _ _ Hj) as [Ej _].
  destruct (@nth_error_track _ _ _ _ Hk') as [Ek _].
  exact (sorted_nth_le S Hjk Ej Ek).
Qed.

Lemma tie_goes_to_lowest_id_witness :
  exists asg,
    matching (mkTracker [(1, mkTrack (5, 5) 0); (2, mkTrack (25, 5) 0)] 3)
      [(10, 0, 20, 10)] = Ret asg /\
    forall i r tid t tid' t',
      nth_error [(10, 0, 20, 10)] i = Some r ->
      lookup Nat.eqb i asg = Some tid ->
      lookup Z.eqb tid [(1, mkTrack (5, 5) 0); (2, mkTrack (25, 5) 0)]
      = Some t ->
      lookup Z.eqb tid' [(1, mkTrack (5, 5) 0); (2, mkTrack (25, 5) 0)]
      = Some t' ->
      ~ In tid' (claimed_before i asg) ->
      euclid (centroid_of r) (centroid t')
      = euclid (centroid_of r) (centroid t) ->
      tid <= tid'.
Proof.
  apply (@tie_goes_to_lowest_id
           (mkTracker [(1, mkTrack (5, 5) 0); (2, mkTrack (25, 5) 0)] 3)
           [(10, 0, 20, 10)]).
  - apply (@reach_update init [(0, 0, 10, 10); (20, 0, 30, 10)] [1; 2]);
      [exact reach_init | reflexivity].
  - discriminate.
  - discriminate.
Defined.

(** ** A tracker that holds one track *)

Lemma scan_single_near (c : point) (k : Z) (t : Track) (last : option nat) :
  dist2 c (centroid t) < gate * gate ->
  scan_tracks c [centroid t] [] (enumerate [k]) (mkScan Inf None last)
  = Ret (mkScan (Fin (dist2 c (centroid t))) (Some k) (Some 0%nat)).
Proof.
  intros H. apply Z.ltb_lt in H.
  cbn [enumerate length seq combine scan_tracks set_in existsb list_get
       nth_error bind min_dist closer andb].
  now rewrite H.
Qed.

Lemma scan_single_far (c : point) (k : Z) (t : Track) (last : option nat) :
  gate * gate <= dist2 c (centroid t) ->
  scan_tracks c [centroid t] [] (enumerate [k]) (mkScan Inf None last)
  = Ret (mkScan Inf None last).
Proof.
  intros H. apply Z.ltb_ge in H.
  cbn [enumerate length seq combine scan_tracks set_in existsb list_get
       nth_error bind min_dist closer andb].
  now rewrite H.
Qed.

Lemma assign_single_near (c : point) (k : Z) (t : Track) :
  dist2 c (centroid t) < gate * gate ->
  assign_loop (enumerate [c]) [k] [centroid t] no_assign
  = Ret (mkAssign [(0%nat, k)] [0%nat] [0%nat] (Some 0%nat)).
Proof.
  intros H. unfold enumerate at 1.
  cbn [length seq combine assign_loop no_assign used_cols last_col].
  rewrite scan_single_near by assumption.
  cbn [bind best_track best_col assignments used_rows used_cols dict_set
       set_add set_in existsb assign_loop].
  reflexivity.
Qed.

Lemma assign_single_far (c : point) (k : Z) (t : Track) :
  gate * gate <= dist2 c (centroid t) ->
  assign_loop (enumerate [c]) [k] [centroid t] no_assign
  = Ret (mkAssign [] [] [] None).
Proof.
  intros H. unfold enumerate at 1.
  cbn [length seq combine assign_loop no_assign used_cols last_col].
  rewrite scan_single_far by assumption.
  cbn [bind best_track best_col assignments used_rows used_cols assign_loop].
  reflexivity.
Qed.

Lemma assign_single_two (c1 c2 : point) (k : Z) (t : Track) :
  dist2 c1 (centroid t) < gate * gate ->
  assign_loop (enumerate [c1; c2]) [k] [centroid t] no_assign
  = Ret (mkAssign [(0%nat, k)] [0%nat] [0%nat] (Some 0%nat)).
Proof.
  intros H. unfold enumerate at 1.
  cbn [length seq combine assign_loop no_assign used_cols last_col].
  rewrite scan_single_near by assumption.
  cbn [bind best_track best_col assignments used_rows used_cols dict_set
       set_add set_in existsb assign_loop].
  reflexivity.
Qed.

Lemma refreshed_single (k : Z) (t : Track) (c : point) (cs : list point) :
  refreshed [(0%nat, k)] (c :: cs) k t = mkTrack c 0.
Proof.
  unfold refreshed, assigned, rows_of.
  cbn [dict_values map snd existsb filter]. rewrite Z.eqb_refl. reflexivity.
Qed.

Lemma follow_step (k nid : Z) (t : Track) (r : rect) :
  dist2 (centroid_of r) (centroid t) < gate * gate ->
  update (mkTracker [(k, t)] nid) [r]
  = Ret ([k], mkTracker [(k, mkTrack (centroid_of r) 0)] nid).
Proof.
  intros H.
  destruct (@update_both (mkTracker [(k, t)] nid) r [])
    as (a & Ea & _ & _ & E); [discriminate | repeat constructor; simpl; tauto |].
  cbn [tracks dict_keys track_centroids_of map fst snd] in Ea.
  rewrite assign_single_near in Ea by assumption. inversion Ea; subst a. clear Ea.
  rewrite E. unfold associated, unassigned.
  cbn [map assignments used_rows enumerate length seq combine filter fst
       set_in existsb Nat.eqb orb negb snd register_all with_tracks tracks
       next_id map_tracks].
  rewrite refreshed_single. reflexivity.
Qed.

Lemma jump_step (k nid : Z) (t : Track) (r : rect) :
  k < nid ->
  gate * gate <= dist2 (centroid_of r) (centroid t) ->
  update (mkTracker [(k, t)] nid) [r]
  = Ret (dict_keys (keep_live [(k, older t)]) ++ [nid],
         mkTracker (keep_live [(k, older t)] ++
                    [(nid, mkTrack (centroid_of r) 0)]) (nid + 1)).
Proof.
  intros Hk H.
  destruct (@update_both (mkTracker [(k, t)] nid) r [])
    as (a & Ea & _ & _ & E); [discriminate | repeat constructor; simpl; tauto |].
  cbn [tracks dict_keys track_centroids_of map fst snd] in Ea.
  rewrite assign_single_far in Ea by assumption. inversion Ea; subst a. clear Ea.
  rewrite E. rewrite associated_shape.
  2:{ split; cbn [tracks next_id dict_keys map fst].
      - repeat constructor. simpl. tauto.
      - intros x [<-|[]]. assumption. }
  unfold unassigned.
  cbn [map assignments used_rows enumerate length seq combine filter fst
       set_in existsb negb snd tracks next_id map_tracks new_tracks].
  unfold refreshed. cbn [assigned dict_values map existsb].
  rewrite dict_keys_app. reflexivity.
Qed.

Lemma priority_step (k nid : Z) (t : Track) (r1 r2 : rect) :
  k < nid ->
  dist2 (centroid_of r1) (centroid t) < gate * gate ->
  update (mkTracker [(k, t)] nid) [r1; r2]
  = Ret ([k; nid],
         mkTracker [(k, mkTrack (centroid_of r1) 0);
                    (nid, mkTrack (centroid_of r2) 0)] (nid + 1)).
Proof.
  intros Hk H.
  destruct (@update_both (mkTracker [(k, t)] nid) r1 [r2])
    as (a & Ea & _ & _ & E); [discriminate | repeat constructor; simpl; tauto |].
  cbn [tracks dict_keys track_centroids_of map fst snd] in Ea.
  rewrite assign_single_two in Ea by assumption. inversion Ea; subst a. clear Ea.
  rewrite E. rewrite associated_shape.
  2:{ split; cbn [tracks next_id dict_keys map fst].
      - repeat constructor. simpl. tauto.
      - intros x [<-|[]]. assumption. }
  unfold unassigned.
  cbn [map assignments used_rows enumerate length seq combine filter fst
       set_in existsb Nat.eqb orb negb snd tracks next_id map_tracks new_tracks].
  rewrite refreshed_single. reflexivity.
Qed.

(** X4.  A tracker holding one track, fed one detection per frame whose
    centroid is each time less than 100 away from where the track was left,
    keeps that one track under the same id for the whole walk: no id is
    created ([next_id] stays), the track ends at the last centroid with
    [disappeared] 0, and every frame's count is 1. *)
Theorem walk_keeps_id (k nid : Z) (t : Track) (rs : list rect) :
  walk (centroid t) rs ->
  run (mkTracker [(k, t)] nid) (map (fun r => [r]) rs)
  = Ret (mkTracker
           [(k, fold_left (fun _ r => mkTrack (centroid_of r) 0) rs t)] nid) /\
  overlay_counts (mkTracker [(k, t)] nid) (map (fun r => [r]) rs)
  = Ret (repeat 1%nat (length rs)).
Proof.
  revert t. induction rs as [|r rs IH]; intros t W.
  - split; reflexivity.
  - destruct W as [Hr W]. apply euclid_within_gate in Hr.
    cbn [map run overlay_counts fold_left length repeat].
    rewrite (follow_step k nid t r Hr). cbn [bind snd fst length].
    destruct (IH (mkTrack (centroid_of r) 0) W) as [E1 E2].
    rewrite E1, E2. split; reflexivity.
Qed.

Lemma walk_keeps_id_witness :
  run (mkTracker [(1, mkTrack (0, 0) 3)] 2)
    (map (fun r => [r]) [(50, 50, 70, 70); (100, 100, 140, 140)])
  = Ret (mkTracker
           [(1, fold_left (fun _ r => mkTrack (centroid_of r) 0)
                  [(50, 50, 70, 70); (100, 100, 140, 140)]
                  (mkTrack (0, 0) 3))] 2) /\
  overlay_counts (mkTracker [(1, mkTrack (0, 0) 3)] 2)
    (map (fun r => [r]) [(50, 50, 70, 70); (100, 100, 140, 140)])
  = Ret (repeat 1%nat 2).
Proof.
  apply (@walk_keeps_id 1 2 (mkTrack (0, 0) 3)
           [(50, 50, 70, 70); (100, 100, 140, 140)]).
  cbn [walk]. repeat split; apply euclid_within_gate; reflexivity.
Defined.

(** X5.  A tracker holding one track [k], given one detection whose centroid
    is 100 or more away from it, does not move the track: the detection
    becomes a new track under [next_id], and track [k] is aged by one, or
    removed when that takes its counter over 10. *)
Theorem far_detection_new_id (k nid : Z) (t : Track) (r : rect) :
  k < nid ->
  (100 <= euclid (centroid_of r) (centroid t))%R ->
  update (mkTracker [(k, t)] nid) [r]
  = Ret ((if disappeared t + 1 >? 10 then [] else [k]) ++ [nid],
         mkTracker
           ((if disappeared t + 1 >? 10 then []
             else [(k, mkTrack (centroid t) (disappeared t + 1))]) ++
            [(nid, mkTrack (centroid_of r) 0)])
           (nid + 1)).
Proof.
  intros Hk H. apply euclid_beyond_gate in H.
  rewrite (jump_step t r Hk H).
  unfold keep_live, live, older, set_disappeared, max_disappeared.
  cbn [filter snd disappeared centroid].
  destruct (disappeared t + 1 >? 10); reflexivity.
Qed.

Lemma far_detection_new_id_witness :
  update (mkTracker [(1, mkTrack (0, 0) 10)] 2) [(60, 80, 60, 80)]
  = Ret ((if disappeared (mkTrack (0, 0) 10) + 1 >? 10 then [] else [1]) ++
         [2],
         mkTracker
           ((if disappeared (mkTrack (0, 0) 10) + 1 >? 10 then []
             else [(1, mkTrack (centroid (mkTrack (0, 0) 10))
                         (disappeared (mkTrack (0, 0) 10) + 1))]) ++
            [(2, mkTrack (centroid_of (60, 80, 60, 80)) 0)])
           (2 + 1)).
Proof.
  apply (@far_detection_new_id 1 2 (mkTrack (0, 0) 10) (60, 80, 60, 80)).
  - reflexivity.
  - apply euclid_beyond_gate. discriminate.
Defined.

(** X6.  The matching is first come, first served: with one track [k] and
    two detections, the first of them, when within 100 of the track, takes
    it, however near the second is; the second becomes a new track under
    [next_id]. *)
Theorem first_detection_takes_track (k nid : Z) (t : Track) (r1 r2 : rect) :
  k < nid ->
  (euclid (centroid_of r1) (centroid t) < 100)%R ->
  update (mkTracker [(k, t)] nid) [r1; r2]
  = Ret ([k; nid],
         mkTracker [(k, mkTrack (centroid_of r1) 0);
                    (nid, mkTrack (centroid_of r2) 0)] (nid + 1)).
Proof.
  intros Hk H. apply euclid_within_gate in H. now apply priority_step.
Qed.

Lemma first_detection_takes_track_witness :
  update (mkTracker [(1, mkTrack (0, 0) 0)] 2)
    [(90, 0, 90, 0); (0, 0, 0, 0)]
  = Ret ([1; 2],
         mkTracker [(1, mkTrack (centroid_of (90, 0, 90, 0)) 0);
                    (2, mkTrack (centroid_of (0, 0, 0, 0)) 0)] (2 + 1)).
Proof.
  apply (@first_detection_takes_track 1 2 (mkTrack (0, 0) 0)
           (90, 0, 90, 0) (0, 0, 0, 0)).
  - reflexivity.
  - apply euclid_within_gate. reflexivity.
Defined.

(** ** The id counter and the number of tracks *)

Lemma matched_le_tracks (d : tracks_t) (detections : list rect) (a : assign) :
  assign_inv (dict_keys d) (track_centroids_of d)
    (map centroid_of detections) (length detections) a ->
  (length (assignments a) <= length d)%nat.
Proof.
  intros I. rewrite <- (length_map snd (assignments a)).
  rewrite <- (length_map fst d).
  apply NoDup_incl_length; [exact (inv_values_nodup I)|].
  intros v Hv. apply in_map_iff in Hv.
  destruct Hv as [[i v'] [Ev Hin]]. simpl in Ev. subst v'.
  destruct (assigned_is_track _ _ I _ _ Hin) as [t Ht].
  now apply lookup_Some_key in Ht.
Qed.

(** X7.  [next_id] never goes back and advances by exactly the number of
    detections the call left unmatched: the detections of the frame minus
    the assignments made.  At most one assignment is made per detection and
    per track. *)
Theorem next_id_advance (self : PersonTracker) (detections : list rect) :
  dict_ok Z.eqb (tracks self) = true ->
  exists ids self' asg,
    update self detections = Ret (ids, self') /\
    matching self detections = Ret asg /\
    next_id self' =
      next_id self + Z.of_nat (length detections) - Z.of_nat (length asg) /\
    (length asg <= length detections)%nat /\
    (length asg <= length (tracks self))%nat.
Proof.
  intros H. apply (dict_ok_NoDup _ Z.eqb_eq) in H.
  destruct detections as [|r rs].
  - eexists _, _, []. split; [now apply update_no_detections|].
    split; [reflexivity|]. simpl. repeat split; lia.
  - destruct self as [d nid]. destruct d as [|kt d].
    + eexists _, _, []. split; [apply update_no_tracks|].
      split; [reflexivity|]. cbn [next_id length]. repeat split; lia.
    + destruct (@update_both (mkTracker (kt :: d) nid) r rs)
        as (a & _ & I & M & E); [discriminate | assumption |].
      eexists _, _, _. split; [exact E|]. split; [exact M|].
      assert (Hc : (length (unassigned (enumerate (map centroid_of (r :: rs)))
                              (used_rows a)) +
                    length (assignments a))%nat
                   = length (map centroid_of (r :: rs))).
      { eapply unassigned_count. rewrite length_map. exact I. }
      rewrite length_map in Hc.
      split; [|split].
      * unfold associated, with_tracks. cbn [next_id].
        rewrite register_all_next_id. cbn [next_id].
        rewrite length_map. lia.
      * lia.
      * exact (matched_le_tracks _ _ I).
Qed.

Lemma next_id_advance_witness :
  exists ids self' asg,
    update (mkTracker [(1, mkTrack (5, 5) 0)] 2)
      [(300, 300, 320, 320); (2, 2, 12, 12)] = Ret (ids, self') /\
    matching (mkTracker [(1, mkTrack (5, 5) 0)] 2)
      [(300, 300, 320, 320); (2, 2, 12, 12)] = Ret asg /\
    next_id self' = 2 + Z.of_nat 2 - Z.of_nat (length asg) /\
    (length asg <= 2)%nat /\
    (length asg <= 1)%nat.
Proof.
  apply (@next_id_advance (mkTracker [(1, mkTrack (5, 5) 0)] 2)
           [(300, 300, 320, 320); (2, 2, 12, 12)]).
  reflexivity.
Defined.

(** ** Frames without detections *)

Lemma run_quiet_lookup (n : nat) (self : PersonTracker) :
  NoDup (dict_keys (tracks self)) ->
  exists self',
    run self (quiet (S n)) = Ret self' /\
    NoDup (dict_keys (tracks self')) /\
    next_id self' = next_id self /\
    forall k,
      lookup Z.eqb k (tracks self') =
      match lookup Z.eqb k (tracks self) with
      | Some t =>
          if disappeared t + Z.of_nat (S n) >? 10 then None
          else Some (mkTrack (centroid t) (disappeared t + Z.of_nat (S n)))
      | None => None
      end.
Proof.
  revert self. induction n as [|n IH]; intros self N.
  - cbn [quiet repeat run]. rewrite update_no_detections by assumption.
    cbn [bind snd]. eexists. split; [reflexivity|].
    cbn [with_tracks tracks next_id]. split; [|split; [reflexivity|]].
    + apply keep_live_NoDup. now rewrite map_tracks_keys.
    + intros k. rewrite lookup_keep_map by assumption.
      destruct (lookup Z.eqb k (tracks self)) as [t|]; [|reflexivity].
      unfold live, older, set_disappeared, max_disappeared. simpl.
      now destruct (disappeared t + 1 >? 10).
  - change (quiet (S (S n))) with ([] :: quiet (S n)). cbn [run].
    rewrite update_no_detections by assumption. cbn [bind snd].
    set (s1 := with_tracks
                 (keep_live (map_tracks (fun _ => older) (tracks self))) self).
    assert (N1 : NoDup (dict_keys (tracks s1))).
    { unfold s1. cbn [with_tracks tracks]. apply keep_live_NoDup.
      now rewrite map_tracks_keys. }
    destruct (IH s1 N1) as (self' & E & N' & Hn & Hl).
    exists self'. split; [assumption|]. split; [assumption|].
    split; [exact Hn|]. intros k. rewrite Hl.
    unfold s1. cbn [with_tracks tracks].
    rewrite lookup_keep_map by assumption.
    destruct (lookup Z.eqb k (tracks self)) as [t|]; [|reflexivity].
    unfold live, older, set_disappeared, max_disappeared.
    cbn [disappeared centroid].
    destruct (disappeared t + 1 >? 10) eqn:E1; cbn [negb].
    + destruct (disappeared t + Z.of_nat (S (S n)) >? 10) eqn:E2;
        [reflexivity|].
      exfalso. rewrite Z.gtb_ltb in E1, E2.
      apply Z.ltb_lt in E1. apply Z.ltb_ge in E2. lia.
    + cbn [disappeared centroid].
      replace (disappeared t + 1 + Z.of_nat (S n))
        with (disappeared t + Z.of_nat (S (S n))) by lia.
      reflexivity.
Qed.

(** X8.  After [n >= 1] consecutive frames without detections, on any
    tracker, a track is still held exactly when its counter plus [n] is at
    most 10, and then with its centroid unchanged and its counter raised by
    [n]; no track appears and [next_id] is unchanged. *)
Theorem quiet_frames_age (self : PersonTracker) (n : nat) :
  dict_ok Z.eqb (tracks self) = true -> (1 <= n)%nat ->
  exists self',
    run self (quiet n) = Ret self' /\
    next_id self' = next_id self /\
    forall k,
      lookup Z.eqb k (tracks self') =
      match lookup Z.eqb k (tracks self) with
      | Some t =>
          if disappeared t + Z.of_nat n >? 10 then None
          else Some (mkTrack (centroid t) (disappeared t + Z.of_nat n))
      | None => None
      end.
Proof.
  intros H Hn. apply (dict_ok_NoDup _ Z.eqb_eq) in H.
  destruct n as [|n]; [lia|].
  destruct (@run_quiet_lookup n self H) as (self' & E & _ & Hid & Hl).
  now exists self'.
Qed.

Lemma quiet_frames_age_witness :
  exists self',
    run (mkTracker [(1, mkTrack (0, 0) 7); (2, mkTrack (9, 9) 2)] 3) (quiet 5)
    = Ret self' /\
    next_id self' = 3 /\
    forall k,
      lookup Z.eqb k (tracks self') =
      match lookup Z.eqb k [(1, mkTrack (0, 0) 7); (2, mkTrack (9, 9) 2)] with
      | Some t =>
          if disappeared t + Z.of_nat 5 >? 10 then None
          else Some (mkTrack (centroid t) (disappeared t + Z.of_nat 5))
      | None => None
      end.
Proof.
  apply (@quiet_frames_age
           (mkTracker [(1, mkTrack (0, 0) 7); (2, mkTrack (9, 9) 2)] 3) 5).
  - reflexivity.
  - repeat constructor.
Defined.

Lemma lookup_all_None (d : tracks_t) :
  (forall k, lookup Z.eqb k d = None) -> d = [].
Proof.
  destruct d as [|[k t] d]; [reflexivity|]. intros H. specialize (H k).
  simpl in H. rewrite Z.eqb_refl in H. discriminate.
Qed.

(** X9.  Eleven or more consecutive frames without detections empty every
    reachable tracker, and do not reset the id counter: the tracks are gone
    and [next_id] is what it was, so ids handed out before are not handed
    out again afterwards. *)
Theorem quiet_frames_clear (self : PersonTracker) (n : nat) :
  reachable self -> (11 <= n)%nat ->
  run self (quiet n) = Ret (mkTracker [] (next_id self)).
Proof.
  intros R Hn. pose proof (reachable_tidy R) as T.
  pose proof (tidy_wf T) as [N _]. destruct T as (_ & _ & B).
  destruct n as [|n]; [lia|].
  destruct (@run_quiet_lookup n self N) as (self' & E & _ & Hid & Hl).
  rewrite E. f_equal. destruct self' as [d' n']. cbn [tracks next_id] in *.
  subst n'. f_equal. apply lookup_all_None. intros k. rewrite Hl.
  destruct (lookup Z.eqb k (tracks self)) as [t|] eqn:L; [|reflexivity].
  apply (lookup_Some_In _ Z.eqb_eq) in L. apply B in L.
  destruct (disappeared t + Z.of_nat (S n) >? 10) eqn:E1; [reflexivity|].
  exfalso. rewrite Z.gtb_ltb in E1. apply Z.ltb_ge in E1. lia.
Qed.

Lemma quiet_frames_clear_witness :
  run (mkTracker [(1, mkTrack (5, 5) 0)] 2) (quiet 11)
  = Ret (mkTracker [] 2).
Proof.
  apply (@quiet_frames_clear (mkTracker [(1, mkTrack (5, 5) 0)] 2) 11).
  - exact reachable_one_track.
  - repeat constructor.
Defined.

(** ** The counts drawn by [process_video] *)

Lemma update_count_ge (self self' : PersonTracker) (detections : list rect)
    (ids : list Z) :
  wf self -> update self detections = Ret (ids, self') ->
  (length detections <= length ids)%nat.
Proof.
  intros [N B] E. destruct detections as [|r0 rs]; [simpl; lia|].
  destruct self as [d nid]. cbn [tracks next_id] in *.
  destruct d as [|kt d].
  - assert (Hi : ids = zrange nid (length (r0 :: rs)))
      by (rewrite update_no_tracks in E; congruence).
    rewrite Hi, zrange_length. lia.
  - destruct (@update_both (mkTracker (kt :: d) nid) r0 rs)
      as (a & _ & I & _ & E'); [discriminate | assumption |].
    assert (Hi : ids = dict_keys (tracks (associated
                         (map centroid_of (r0 :: rs))
                         (mkTracker (kt :: d) nid) a)))
      by congruence.
    rewrite Hi. clear Hi E E'.
    rewrite associated_shape by (split; assumption).
    cbn [tracks next_id].
    unfold dict_keys. rewrite length_map, length_app.
    set (cs := map centroid_of (r0 :: rs)) in *.
    set (cs' := map snd (unassigned (enumerate cs) (used_rows a))).
    assert (HY : length (new_tracks nid cs') = length cs').
    { rewrite <- (length_map fst (new_tracks nid cs')).
      fold (dict_keys (new_tracks nid cs')).
      now rewrite new_tracks_keys, zrange_length. }
    rewrite HY.
    assert (Hc : (length (unassigned (enumerate cs) (used_rows a)) +
                  length (assignments a))%nat = length cs).
    { eapply unassigned_count.
      replace (length cs) with (length (r0 :: rs))
        by (unfold cs; now rewrite length_map).
      exact I. }
    assert (HX : (length (assignments a)
                  <= length (keep_live
                               (map_tracks (refreshed (assignments a) cs)
                                  (kt :: d))))%nat).
    { rewrite <- (length_map snd (assignments a)).
      rewrite <- (length_map fst (keep_live _)).
      apply NoDup_incl_length; [exact (inv_values_nodup I)|].
      intros v Hv. apply in_map_iff in Hv.
      destruct Hv as [[i v'] [Ev Hin]]. simpl in Ev. subst v'.
      destruct (assigned_detection _ _ I _ _ Hin) as (r & Hr & _).
      apply (@lookup_Some_key v (mkTrack (centroid_of r) 0)).
      unfold cs. exact (lookup_assigned _ _ N I _ _ Hin Hr). }
    unfold cs'. rewrite length_map.
    unfold cs in Hc at 2. rewrite length_map in Hc. lia.
Qed.

Lemma overlay_counts_from (frames : list (list rect))
    (self : PersonTracker) :
  tidy self ->
  exists counts,
    overlay_counts self frames = Ret counts /\
    length counts = length frames /\
    forall k detections c,
      nth_error frames k = Some detections ->
      nth_error counts k = Some c ->
      (detections = [] -> c = 0%nat) /\
      (length detections <= c)%nat /\
      Z.of_nat c <= next_id self - 1
                    + Z.of_nat (detections_in (firstn (S k) frames)).
Proof.
  revert self. induction frames as [|ds rest IH]; intros self T.
  - exists []. split; [reflexivity|]. split; [reflexivity|].
    intros [|k] ? ? H; discriminate.
  - pose proof (tidy_wf T) as W.
    destruct (@update_refined self ds W)
      as (ids & s1 & f & cs & E & Ht & Hn & _ & Hcs & He & Hne).
    pose proof (@update_tidy _ _ _ _ T E) as T1.
    pose proof (tidy_count T1) as C1.
    pose proof (@update_count_ge _ _ _ _ W E) as G.
    destruct (IH s1 T1) as (counts & Ec & Hl & Hall).
    exists (length ids :: counts). cbn [overlay_counts].
    rewrite E. cbn [bind snd fst]. rewrite Ec. cbn [bind].
    split; [reflexivity|]. split; [simpl; now rewrite Hl|].
    assert (Hids : Z.of_nat (length ids) <= next_id s1 - 1).
    { destruct ds as [|r rs].
      - rewrite (He eq_refl). simpl. destruct T1 as (? & _). lia.
      - rewrite Hne by discriminate. unfold dict_keys.
        now rewrite length_map. }
    intros [|k] detections c Hf Hc; cbn [nth_error] in Hf, Hc.
    + inversion Hf; inversion Hc; subst. split; [|split].
      * intros ->. now rewrite (He eq_refl).
      * assumption.
      * unfold detections_in. cbn [firstn concat]. rewrite app_nil_r. lia.
    + destruct (Hall k detections c Hf Hc) as (H0 & H1 & H2).
      split; [assumption|]. split; [assumption|].
      unfold detections_in in *. cbn [firstn concat].
      rewrite length_app. cbn [firstn] in H2. lia.
Qed.

(** A person seen in frames 1 and 3 but missed in frame 2: the track is
    kept through frame 2, yet the count drawn on frame 2 is 0. *)
Example count_drops_on_missed_frame :
  process_video_counts [[(0, 0, 10, 10)]; []; [(2, 2, 12, 12)]]
  = Ret [1%nat; 0%nat; 1%nat] /\
  run init [[(0, 0, 10, 10)]; []]
  = Ret (mkTracker [(1, mkTrack (5, 5) 1)] 2).
Proof. split; reflexivity. Qed.

(** ** File names *)

Module FileNamesFacts.
Import Ascii String FileNames.
Local Open Scope string_scope.

Lemma dot_append (s : string) : "." ++ s = String "."%char s.
Proof. reflexivity. Qed.

Lemma split_last_no_sep (c : ascii) (s : string) :
  contains c s = false -> split_last c s = None.
Proof.
  induction s as [|x rest IH]; simpl; [reflexivity|].
  intros H. apply orb_false_iff in H. destruct H as [Hx Hr].
  now rewrite (IH Hr), Hx.
Qed.

Lemma split_last_sep (c : ascii) (s : string) :
  contains c s = true -> exists a b, split_last c s = Some (a, b).
Proof.
  induction s as [|x rest IH]; simpl; [discriminate|].
  intros H. destruct (split_last c rest) as [[a b]|] eqn:E.
  - now exists (String x a), b.
  - destruct (Ascii.eqb x c) eqn:Ex.
    + now exists EmptyString, rest.
    + simpl in H. destruct (IH H) as (a & b & Hab). discriminate.
Qed.

Lemma split_last_parts (c : ascii) (s a b : string) :
  split_last c s = Some (a, b) ->
  s = a ++ String c b /\ contains c b = false.
Proof.
  revert a b. induction s as [|x rest IH]; simpl; intros a b; [discriminate|].
  destruct (split_last c rest) as [[a' b']|] eqn:E.
  - intros [= <- <-]. destruct (IH a' b' eq_refl) as [-> Hb].
    split; [reflexivity | assumption].
  - destruct (Ascii.eqb x c) eqn:Ex; [|discriminate].
    intros [= <- <-]. apply Ascii.eqb_eq in Ex. subst x.
    split; [reflexivity|].
    destruct (contains c rest) eqn:Hc; [|reflexivity].
    destruct (split_last_sep c rest Hc) as (a & b & Hab). congruence.
Qed.

Lemma split_last_append (c : ascii) (a b : string) :
  contains c b = false -> split_last c (a ++ String c b) = Some (a, b).
Proof.
  intros Hb. induction a as [|x a IH]; simpl.
  - now rewrite (split_last_no_sep c b Hb), Ascii.eqb_refl.
  - now rewrite IH.
Qed.

(** [allowed_file] without the subscript. *)
Lemma allowed_file_closed (filename : string) :
  allowed_file filename =
  match split_last "."%char filename with
  | Some (_, ext) => Ret (existsb (String.eqb (lower ext)) ALLOWED_EXTENSIONS)
  | None => Ret false
  end.
Proof.
  unfold allowed_file, rsplit1.
  destruct (contains "."%char filename) eqn:Hc.
  - destruct (split_last_sep _ _ Hc) as (a & b & E). now rewrite E.
  - now rewrite (split_last_no_sep _ _ Hc).
Qed.

Lemma lower_char_dot (x : ascii) :
  Ascii.eqb (lower_char x) "."%char = Ascii.eqb x "."%char.
Proof. destruct x as [[] [] [] [] [] [] [] []]; reflexivity. Qed.

Lemma lower_char_idem (x : ascii) : lower_char (lower_char x) = lower_char x.
Proof. destruct x as [[] [] [] [] [] [] [] []]; reflexivity. Qed.

Lemma lower_idem (s : string) : lower (lower s) = lower s.
Proof.
  induction s as [|x s IH]; simpl; [reflexivity|].
  now rewrite lower_char_idem, IH.
Qed.

Lemma contains_dot_lower (s : string) :
  contains "."%char (lower s) = contains "."%char s.
Proof.
  induction s as [|x s IH]; simpl; [reflexivity|].
  now rewrite lower_char_dot, IH.
Qed.

Lemma split_last_lower (s : string) :
  split_last "."%char (lower s) =
  match split_last "."%char s with
  | Some (a, b) => Some (lower a, lower b)
  | None => None
  end.
Proof.
  induction s as [|x s IH]; simpl; [reflexivity|].
  rewrite IH. destruct (split_last "."%char s) as [[a b]|]; [reflexivity|].
  rewrite lower_char_dot. now destruct (Ascii.eqb x "."%char).
Qed.

Lemma split_last_prefix (p s : string) :
  contains "."%char p = false ->
  split_last "."%char (p ++ s) =
  match split_last "."%char s with
  | Some (a, b) => Some (p ++ a, b)
  | None => None
  end.
Proof.
  induction p as [|x p IH]; simpl; intros H.
  - now destruct (split_last "."%char s) as [[a b]|].
  - apply orb_false_iff in H. destruct H as [Hx Hp].
    rewrite (IH Hp). destruct (split_last "."%char s) as [[a b]|];
      [reflexivity|]. now rewrite Hx.
Qed.

Lemma allowed_no_dot (ext : string) :
  In (lower ext) ALLOWED_EXTENSIONS -> contains "."%char ext = false.
Proof.
  intros H. rewrite <- contains_dot_lower. unfold ALLOWED_EXTENSIONS in H.
  simpl in H. destruct H as [<-|[<-|[<-|[<-|[]]]]]; reflexivity.
Qed.

Lemma in_extensions (e : string) :
  existsb (String.eqb e) ALLOWED_EXTENSIONS = true <->
  In e ALLOWED_EXTENSIONS.
Proof.
  rewrite existsb_exists. split.
  - intros [x [Hx E]]. apply String.eqb_eq in E. now subst.
  - intros H. exists e. split; [assumption | apply String.eqb_refl].
Qed.

(** X11.  On a name of ASCII characters [allowed_file] never raises, and
    answers [True] exactly when the name has the form [base.ext] with
    [ext], put in lower case, one of mp4, avi, mov, mkv: an ASCII name
    without a dot, or whose text after the last dot is anything else (the
    empty text included), is refused. *)
Theorem allowed_file_spec (filename : string) :
  is_ascii filename = true ->
  exists b,
    allowed_file filename = Ret b /\
    (b = true <->
     exists base ext,
       filename = base ++ "." ++ ext /\
       In (lower ext) ALLOWED_EXTENSIONS).
Proof.
  intros _. rewrite allowed_file_closed.
  destruct (split_last "."%char filename) as [[a ext]|] eqn:E.
  - eexists. split; [reflexivity|]. rewrite in_extensions.
    apply split_last_parts in E. destruct E as [-> Hc]. split.
    + intros H. now exists a, ext.
    + intros (base & ext' & Heq & Hin).
      pose proof (allowed_no_dot ext' Hin) as Hc'.
      rewrite dot_append in Heq.
      assert (E1 := split_last_append "."%char a ext Hc).
      assert (E2 := split_last_append "."%char base ext' Hc').
      rewrite Heq in E1. rewrite E1 in E2. inversion E2; subst. assumption.
  - exists false. split; [reflexivity|]. split; [discriminate|].
    intros (base & ext & Heq & Hin).
    pose proof (allowed_no_dot ext Hin) as Hc.
    rewrite dot_append in Heq. subst filename.
    rewrite (split_last_append "."%char base ext Hc) in E. discriminate.
Qed.

Lemma allowed_file_spec_witness :
  exists b,
    allowed_file "holiday.clip.MkV" = Ret b /\
    (b = true <->
     exists base ext,
       "holiday.clip.MkV" = base ++ "." ++ ext /\
       In (lower ext) ALLOWED_EXTENSIONS).
Proof. apply (allowed_file_spec "holiday.clip.MkV"). reflexivity. Defined.

(** X12.  [allowed_file] does not look at letter case: two names that are
    equal once put in lower case get the same answer. *)
Theorem allowed_file_ignores_case (f g : string) :
  lower f = lower g -> allowed_file f = allowed_file g.
Proof.
  assert (H : forall s, allowed_file (lower s) = allowed_file s).
  { intros s. rewrite !allowed_file_closed, split_last_lower.
    destruct (split_last "."%char s) as [[a b]|]; [|reflexivity].
    now rewrite lower_idem. }
  intros E. rewrite <- (H f), <- (H g). now rewrite E.
Qed.

Lemma allowed_file_ignores_case_witness :
  allowed_file "Clip.MP4" = allowed_file "cLIP.mp4".
Proof. apply allowed_file_ignores_case. reflexivity. Defined.

(** X13.  Putting a text without a dot in front of a name does not change
    what [allowed_file] answers for it; so the name an upload is stored
    under (line 181) and the name of the processed output (line 216) are
    accepted exactly when the uploaded name was, for an id without a dot. *)
Theorem allowed_file_prefix (p filename : string) :
  contains "."%char p = false ->
  allowed_file (p ++ filename) = allowed_file filename /\
  allowed_file (stored_name p filename) = allowed_file filename /\
  allowed_file (output_name (stored_name p filename)) = allowed_file filename.
Proof.
  assert (H : forall q s, contains "."%char q = false ->
            allowed_file (q ++ s) = allowed_file s).
  { intros q s Hq. rewrite !allowed_file_closed, (split_last_prefix q s Hq).
    now destruct (split_last "."%char s) as [[a b]|]. }
  intros Hp. split; [now apply H|]. unfold output_name, stored_name.
  split.
  - rewrite (H p _ Hp). now apply H.
  - rewrite (H "processed_" _ eq_refl), (H p _ Hp). now apply H.
Qed.

Lemma allowed_file_prefix_witness :
  allowed_file ("3f2a-77" ++ "walk.mov") = allowed_file "walk.mov" /\
  allowed_file (stored_name "3f2a-77" "walk.mov") = allowed_file "walk.mov" /\
  allowed_file (output_name (stored_name "3f2a-77" "walk.mov"))
  = allowed_file "walk.mov".
Proof. apply allowed_file_prefix. reflexivity. Defined.

Lemma startswith_same_length (a p x : string) :
  String.length a = String.length p ->
  startswith (a ++ x) p = String.eqb a p.
Proof.
  revert p. induction a as [|c a IH]; intros [|d p] H; simpl in *;
    try discriminate H; try reflexivity.
  rewrite IH by (now inversion H). reflexivity.
Qed.

Lemma stored_name_not_empty (file_id filename : string) :
  stored_name file_id filename <> EmptyString.
Proof. unfold stored_name. destruct file_id; discriminate. Qed.

Lemma find_upload_found (listing : list string) (file_id f : string) :
  first_match file_id listing = Some f -> f <> EmptyString ->
  find_upload listing file_id = Some f.
Proof.
  intros E Hf. unfold find_upload. rewrite E.
  destruct f; [congruence | reflexivity].
Qed.

(** X14.  Upload, then process.  When the upload folder holds the names
    [upload_file] stored, each under an id as long as [file_id] (the ids are
    UUID strings, all of one length), the search of [process_video_endpoint]
    finds a file stored under exactly [file_id] whenever there is one, and
    answers not found only when no file was stored under [file_id]. *)
Theorem find_upload_round_trip (entries : list (string * string))
    (file_id : string) :
  (forall e, In e entries ->
     String.length (fst e) = String.length file_id) ->
  match find_upload (map (fun e => stored_name (fst e) (snd e)) entries)
          file_id with
  | Some f =>
      exists filename,
        f = stored_name file_id filename /\ In (file_id, filename) entries
  | None => ~ In file_id (map fst entries)
  end.
Proof.
  induction entries as [|[id name] entries IH]; intros H.
  - simpl. tauto.
  - assert (Hid : String.length id = String.length file_id)
      by (apply (H (id, name)); now left).
    assert (IH' := IH (fun e He => H e (or_intror He))). clear IH.
    unfold find_upload in *. cbn [map first_match fst snd].
    unfold stored_name at 1. rewrite (startswith_same_length _ _ _ Hid).
    destruct (String.eqb id file_id) eqn:E.
    + apply String.eqb_eq in E. subst id.
      fold (stored_name file_id name).
      destruct (stored_name file_id name) eqn:Es.
      * now apply stored_name_not_empty in Es.
      * rewrite <- Es. exists name. split; [reflexivity | now left].
    + destruct (first_match file_id
                  (map (fun e => stored_name (fst e) (snd e)) entries))
        as [[|c f]|].
      * intros [Heq|Hin]; [|now apply IH'].
        simpl in Heq. subst id. rewrite String.eqb_refl in E. discriminate.
      * destruct IH' as (filename & Hf & Hin).
        exists filename. split; [assumption | now right].
      * intros [Heq|Hin]; [|now apply IH'].
        simpl in Heq. subst id. rewrite String.eqb_refl in E. discriminate.
Qed.

Lemma find_upload_round_trip_witness :
  match find_upload
          (map (fun e => stored_name (fst e) (snd e))
             [("id-1", "a.mp4"); ("id-2", "b.avi")])
          "id-2" with
  | Some f =>
      exists filename,
        f = stored_name "id-2" filename /\
        In ("id-2", filename) [("id-1", "a.mp4"); ("id-2", "b.avi")]
  | None => ~ In "id-2" (map fst [("id-1", "a.mp4"); ("id-2", "b.avi")])
  end.
Proof.
  apply (find_upload_round_trip [("id-1", "a.mp4"); ("id-2", "b.avi")] "id-2").
  intros e [<-|[<-|[]]]; reflexivity.
Defined.

(** X15.  The search does not ask for a whole id: it answers not found only
    when no name of the folder starts with [file_id], and otherwise takes
    the first name that does.  With an empty [file_id] it takes the first
    file of the folder, whatever it is. *)
Theorem find_upload_any_prefix (listing : list string) (file_id : string) :
  (forall n, In n listing -> n <> EmptyString) ->
  match find_upload listing file_id with
  | Some f =>
      exists before after,
        listing = (before ++ f :: after)%list /\
        startswith f file_id = true /\
        forall n, In n before -> startswith n file_id = false
  | None => forall n, In n listing -> startswith n file_id = false
  end /\
  (file_id = EmptyString -> find_upload listing file_id = hd_error listing).
Proof.
  intros Hne. split.
  - induction listing as [|n rest IH].
    + simpl. tauto.
    + assert (IH' := IH (fun m Hm => Hne m (or_intror Hm))). clear IH.
      unfold find_upload in *. cbn [first_match].
      destruct (startswith n file_id) eqn:E.
      * assert (Hn : n <> EmptyString) by (apply Hne; now left).
        destruct n as [|c n']; [congruence|].
        exists [], rest. split; [reflexivity|]. split; [assumption|].
        intros m [].
      * destruct (first_match file_id rest) as [[|c f]|].
        -- intros m [<-|Hm]; [assumption | now apply IH'].
        -- destruct IH' as (before & after & Hl & Hs & Hb).
           exists (n :: before), after. split; [now rewrite Hl|].
           split; [assumption|]. intros m [<-|Hm]; [assumption|now apply Hb].
        -- intros m [<-|Hm]; [assumption | now apply IH'].
  - intros ->. destruct listing as [|n rest]; [reflexivity|].
    assert (Hn : n <> EmptyString) by (apply Hne; now left).
    unfold find_upload. simpl. destruct n; [congruence | reflexivity].
Qed.

Lemma find_upload_any_prefix_witness :
  match find_upload ["id-1_a.mp4"; "id-2_b.avi"] "id" with
  | Some f =>
      exists before after,
        ["id-1_a.mp4"; "id-2_b.avi"] = (before ++ f :: after)%list /\
        startswith f "id" = true /\
        forall n, In n before -> startswith n "id" = false
  | None =>
      forall n, In n ["id-1_a.mp4"; "id-2_b.avi"] -> startswith n "id" = false
  end /\
  ("id" = EmptyString ->
   find_upload ["id-1_a.mp4"; "id-2_b.avi"] "id"
   = hd_error ["id-1_a.mp4"; "id-2_b.avi"]).
Proof.
  apply (find_upload_any_prefix ["id-1_a.mp4"; "id-2_b.avi"] "id").
  intros n [<-|[<-|[]]]; discriminate.
Defined.

End FileNamesFacts.

(** ** The arithmetic within pixel range *)

Lemma in_range_abs (z : Z) : in_range z = true <-> Z.abs z <= 1073741824.
Proof. unfold in_range. rewrite Z.leb_le. reflexivity. Qed.

Lemma int_half_checked_exact (s : Z) :
  Z.abs s < 2 ^ 53 -> int_half_checked s = Ret (int_half s).
Proof.
  intros H. unfold int_half_checked, round53.
  assert (E1 : (Z.abs s <? 2 ^ 53) = true) by now apply Z.ltb_lt.
  rewrite E1.
  assert (E2 : (2 ^ 1025 <=? Z.abs s) = false).
  { apply Z.leb_gt. apply Z.lt_le_trans with (2 ^ 53); [assumption|].
    apply Z.pow_le_mono_r; lia. }
  rewrite E2. f_equal. unfold int_half.
  rewrite Z.quot_div by lia. change (Z.sgn 2) with 1. change (Z.abs 2) with 2.
  now rewrite Z.mul_1_r.
Qed.

Lemma int_half_in_range (s : Z) :
  Z.abs s <= 2147483648 -> in_range (int_half s) = true.
Proof.
  intros H. apply in_range_abs. unfold int_half.
  Z.quot_rem_to_equations. lia.
Qed.

Lemma rect_in_range_coords (x1 y1 x2 y2 : Z) :
  rect_in_range (x1, y1, x2, y2) = true ->
  Z.abs (x1 + x2) <= 2147483648 /\ Z.abs (y1 + y2) <= 2147483648.
Proof.
  unfold rect_in_range. rewrite !andb_true_iff, !in_range_abs. lia.
Qed.

Lemma centroid_of_in_range (r : rect) :
  rect_in_range r = true -> point_in_range (centroid_of r) = true.
Proof.
  destruct r as [[[x1 y1] x2] y2]. intros H.
  apply rect_in_range_coords in H. destruct H as [Hx Hy].
  unfold point_in_range, centroid_of. simpl.
  now rewrite !int_half_in_range.
Qed.

Lemma centroids_checked_exact (detections : list rect) :
  forallb rect_in_range detections = true ->
  centroids_checked detections = Ret (map centroid_of detections).
Proof.
  induction detections as [|[[[x1 y1] x2] y2] rest IH]; simpl; intros H.
  - reflexivity.
  - apply andb_true_iff in H. destruct H as [Hr Hrest].
    apply rect_in_range_coords in Hr. destruct Hr as [Hx Hy].
    rewrite !int_half_checked_exact
      by (apply Z.le_lt_trans with 2147483648; [assumption | reflexivity]).
    cbn [bind]. now rewrite (IH Hrest).
Qed.

Lemma dist2_fits (a b : point) :
  point_in_range a = true -> point_in_range b = true ->
  np_sqrt_arg (dist2 a b) = Ret (dist2 a b).
Proof.
  unfold point_in_range. rewrite !andb_true_iff, !in_range_abs.
  intros [Ha1 Ha2] [Hb1 Hb2]. unfold np_sqrt_arg.
  assert (E : (2 ^ 64 <=? dist2 a b) = false); [|now rewrite E].
  apply Z.leb_gt. unfold dist2.
  change (2 ^ 64) with 18446744073709551616.
  assert (H1 : Z.abs (fst a - fst b) <= 2147483648) by lia.
  assert (H2 : Z.abs (snd a - snd b) <= 2147483648) by lia.
  assert (H3 : (fst a - fst b) ^ 2 <= 2147483648 * 2147483648).
  { rewrite Z.pow_2_r. rewrite <- Z.abs_square. apply Z.mul_le_mono_nonneg; lia. }
  assert (H4 : (snd a - snd b) ^ 2 <= 2147483648 * 2147483648).
  { rewrite Z.pow_2_r. rewrite <- Z.abs_square. apply Z.mul_le_mono_nonneg; lia. }
  lia.
Qed.

Lemma scan_tracks_checked_exact (c : point) (tcs : list point)
    (used : index_set) (cols : list (nat * Z)) (s : scan) :
  point_in_range c = true ->
  forallb point_in_range tcs = true ->
  scan_tracks_checked c tcs used cols s = scan_tracks c tcs used cols s.
Proof.
  intros Hc Ht. revert s.
  induction cols as [|[j tid] cols IH]; intros s;
    cbn [scan_tracks_checked scan_tracks]; [reflexivity|].
  destruct (set_in j used); [apply IH|].
  unfold list_get. destruct (nth_error tcs j) as [tc|] eqn:E; [|reflexivity].
  cbn [bind]. rewrite dist2_fits; [|assumption|].
  - cbn [bind].
    destruct (closer (dist2 c tc) (min_dist s) && (dist2 c tc <? gate * gate));
      apply IH.
  - apply nth_error_In in E. rewrite forallb_forall in Ht. now apply Ht.
Qed.

Lemma assign_loop_checked_exact (ics : list (nat * point)) (tids : list Z)
    (tcs : list point) (a : assign) :
  forallb (fun ic => point_in_range (snd ic)) ics = true ->
  forallb point_in_range tcs = true ->
  assign_loop_checked ics tids tcs a = assign_loop ics tids tcs a.
Proof.
  intros Hi Ht. revert a.
  induction ics as [|[i c] ics IH]; intros a; [reflexivity|].
  cbn [forallb snd] in Hi. apply andb_true_iff in Hi. destruct Hi as [Hc Hi].
  cbn [assign_loop_checked assign_loop].
  rewrite scan_tracks_checked_exact by assumption.
  destruct (scan_tracks c tcs (used_cols a) (enumerate tids)
              (mkScan Inf None (last_col a))) as [s|e]; [|reflexivity].
  cbn [bind]. destruct (best_track s); [|now apply IH].
  destruct (best_col s); [|reflexivity]. cbn [bind]. now apply IH.
Qed.

Lemma enumerate_in_range (cs : list point) :
  forallb point_in_range cs = true ->
  forallb (fun ic => point_in_range (snd ic)) (enumerate cs) = true.
Proof.
  intros H. apply forallb_forall. intros [i c] Hin. simpl.
  unfold enumerate in Hin. apply in_combine_r in Hin.
  rewrite forallb_forall in H. now apply H.
Qed.

Lemma centroids_of_in_range (ids : list Z) (d : tracks_t) (l : list point) :
  tracks_in_range d = true ->
  centroids_of ids d = Ret l -> forallb point_in_range l = true.
Proof.
  intros Hd. revert l. induction ids as [|k ids IH]; simpl; intros l.
  - intros [= <-]. reflexivity.
  - unfold dict_get. destruct (lookup Z.eqb k d) as [t|] eqn:E; [|discriminate].
    cbn [bind]. destruct (centroids_of ids d) as [cs|]; [|discriminate].
    cbn [bind]. intros [= <-]. simpl. rewrite (IH cs eq_refl), andb_true_r.
    apply (lookup_Some_In _ Z.eqb_eq) in E.
    unfold tracks_in_range in Hd. rewrite forallb_forall in Hd.
    exact (Hd (k, t) E).
Qed.

Lemma map_centroid_in_range (detections : list rect) :
  forallb rect_in_range detections = true ->
  forallb point_in_range (map centroid_of detections) = true.
Proof.
  intros H. apply forallb_forall. intros c Hc. apply in_map_iff in Hc.
  destruct Hc as (r & <- & Hr). apply centroid_of_in_range.
  rewrite forallb_forall in H. now apply H.
Qed.

(** Within range the arithmetic of the source is the exact one: the two
    models of [update] agree. *)
Lemma update_checked_exact (self : PersonTracker) (detections : list rect) :
  tracks_in_range (tracks self) = true ->
  forallb rect_in_range detections = true ->
  update_checked self detections = update self detections.
Proof.
  intros Hs Hd. unfold update_checked, update.
  destruct (length detections =? 0)%nat; [reflexivity|].
  rewrite centroids_checked_exact by assumption. cbn [bind].
  destruct (length (tracks self) =? 0)%nat; [reflexivity|].
  unfold associate_checked, associate.
  destruct (centroids_of (dict_keys (tracks self)) (tracks self))
    as [tcs|e] eqn:E; [|reflexivity].
  cbn [bind]. rewrite assign_loop_checked_exact; [reflexivity | |].
  - apply enumerate_in_range. now apply map_centroid_in_range.
  - exact (centroids_of_in_range _ _ Hs E).
Qed.

Lemma keep_live_in_range (d : tracks_t) :
  tracks_in_range d = true -> tracks_in_range (keep_live d) = true.
Proof.
  unfold tracks_in_range, keep_live. rewrite !forallb_forall.
  intros H kv Hin. apply filter_In in Hin. now apply H.
Qed.

Lemma map_tracks_in_range (f : Z -> Track -> Track) (d : tracks_t) :
  (forall k t, point_in_range (centroid t) = true ->
     point_in_range (centroid (f k t)) = true) ->
  tracks_in_range d = true -> tracks_in_range (map_tracks f d) = true.
Proof.
  intros Hf. unfold tracks_in_range, map_tracks. rewrite !forallb_forall.
  intros H kv Hin. apply in_map_iff in Hin. destruct Hin as (kv0 & <- & Hin).
  simpl. apply Hf. now apply H.
Qed.

Lemma dict_set_in_range (k : Z) (v : Track) (d : tracks_t) :
  point_in_range (centroid v) = true ->
  tracks_in_range d = true -> tracks_in_range (dict_set Z.eqb k v d) = true.
Proof.
  intros Hv. induction d as [|[k' v'] d IH]; simpl; intros H.
  - now rewrite Hv.
  - apply andb_true_iff in H. destruct H as [H1 H2].
    destruct (k =? k'); simpl.
    + now rewrite Hv.
    + now rewrite H1, IH.
Qed.

Lemma register_all_in_range (cs : list point) (self : PersonTracker) :
  forallb point_in_range cs = true ->
  tracks_in_range (tracks self) = true ->
  tracks_in_range (tracks (register_all cs self)) = true.
Proof.
  revert self. induction cs as [|c cs IH]; intros self Hc Hs; simpl.
  - assumption.
  - simpl in Hc. apply andb_true_iff in Hc. destruct Hc as [H1 H2].
    apply IH; [assumption|]. unfold register. simpl.
    now apply dict_set_in_range.
Qed.

Lemma refreshed_in_range (asg : dict nat Z) (cs : list point) (k : Z)
    (t : Track) :
  forallb point_in_range cs = true ->
  point_in_range (centroid t) = true ->
  point_in_range (centroid (refreshed asg cs k t)) = true.
Proof.
  intros Hc Ht. unfold refreshed. destruct (assigned k asg); [|assumption].
  simpl. destruct (nth_in_or_default (hd 0%nat (rows_of k asg)) cs (0, 0))
    as [Hin|E].
  - rewrite forallb_forall in Hc. now apply Hc.
  - now rewrite E.
Qed.

Lemma unassigned_in_range (cs : list point) (used : index_set) :
  forallb point_in_range cs = true ->
  forallb point_in_range (map snd (unassigned (enumerate cs) used)) = true.
Proof.
  intros H. apply forallb_forall. intros c Hc. apply in_map_iff in Hc.
  destruct Hc as ([i c'] & <- & Hin). simpl.
  unfold unassigned in Hin. apply filter_In in Hin. destruct Hin as [Hin _].
  unfold enumerate in Hin. apply in_combine_r in Hin.
  rewrite forallb_forall in H. now apply H.
Qed.

(** A call within range leaves a tracker within range. *)
Lemma update_in_range (self : PersonTracker) (detections : list rect) :
  NoDup (dict_keys (tracks self)) ->
  tracks_in_range (tracks self) = true ->
  forallb rect_in_range detections = true ->
  exists ids self',
    update self detections = Ret (ids, self') /\
    NoDup (dict_keys (tracks self')) /\
    tracks_in_range (tracks self') = true.
Proof.
  intros N Hs Hd. pose proof (map_centroid_in_range _ Hd) as Hc.
  destruct detections as [|r rs].
  - eexists _, _. split; [now apply update_no_detections|].
    cbn [with_tracks tracks]. split.
    + apply keep_live_NoDup. now rewrite map_tracks_keys.
    + apply keep_live_in_range. now apply map_tracks_in_range.
  - destruct self as [d nid]. destruct d as [|kt d].
    + exists (dict_keys (tracks (register_all (map centroid_of (r :: rs))
                                   (mkTracker [] nid)))),
        (register_all (map centroid_of (r :: rs)) (mkTracker [] nid)).
      split; [reflexivity|]. split.
      * apply register_all_NoDup. constructor.
      * now apply register_all_in_range.
    + destruct (@update_both (mkTracker (kt :: d) nid) r rs)
        as (a & _ & _ & _ & E); [discriminate | assumption |].
      eexists _, _. split; [exact E|]. split.
      * now apply associated_NoDup.
      * unfold associated. cbn [with_tracks tracks].
        apply keep_live_in_range. apply register_all_in_range.
        -- now apply unassigned_in_range.
        -- cbn [with_tracks tracks]. apply map_tracks_in_range; [|assumption].
           intros k t Ht. now apply refreshed_in_range.
Qed.




(** ** Unmatched tracks *)

Lemma run_reachable (frames : list (list rect)) (self self' : PersonTracker) :
  reachable self -> run self frames = Ret self' -> reachable self'.
Proof.
  revert self. induction frames as [|detections rest IH]; intros self R E.
  - simpl in E. now inversion E; subst.
  - cbn [run] in E.
    destruct (update self detections) as [[ids s1]|e] eqn:U; [|discriminate].
    cbn [bind snd] in E. apply (IH s1); [|assumption].
    exact (@reach_update _ _ _ _ R U).
Qed.

(** What a call leaves of the tracks it did not match. *)
Lemma unmatched_after_update (self : PersonTracker)
    (detections : list rect) :
  wf self ->
  exists ids self' asg,
    update self detections = Ret (ids, self') /\
    matching self detections = Ret asg /\
    forall k t, lookup Z.eqb k (tracks self) = Some t ->
      assigned k asg = false ->
      lookup Z.eqb k (tracks self') =
      if disappeared t + 1 >? 10 then None
      else Some (mkTrack (centroid t) (disappeared t + 1)).
Proof.
  intros [N B]. destruct detections as [|r rs].
  - eexists _, _, []. split; [now apply update_no_detections|].
    split; [reflexivity|]. intros k t Ht _.
    cbn [tracks with_tracks]. rewrite lookup_keep_map by assumption.
    rewrite Ht. unfold live, older, set_disappeared, max_disappeared. simpl.
    now destruct (disappeared t + 1 >? 10).
  - destruct self as [d nid]. destruct d as [|kt d].
    + eexists _, _, []. split; [apply update_no_tracks|].
      split; [reflexivity|]. intros k t Ht. discriminate.
    + destruct (@update_both (mkTracker (kt :: d) nid) r rs)
        as (a & _ & I & M & E); [discriminate | assumption |].
      rewrite associated_shape in E by (split; assumption).
      eexists _, _, _. split; [exact E|]. split; [exact M|].
      cbn [tracks next_id] in *. intros k t Ht A.
      rewrite lookup_app.
      rewrite (lookup_unassigned _ (r :: rs) a N _ Ht A).
      destruct (disappeared t + 1 >? 10); [|reflexivity].
      apply lookup_new_tracks_below. apply B. now apply lookup_Some_key in Ht.
Qed.

(** C4.  A track that goes unmatched is removed exactly when its
    [disappeared] counter exceeds 10.  In every call on a reachable tracker,
    with or without detections, a track the call does not match is still in
    the dict afterwards exactly when its counter plus one is at most 10, and
    then with its centroid unchanged and the counter one higher: lines 37-38
    remove it on a frame without detections and lines 106-108 on a frame
    with detections.  So a tracker holding only track 1 with counter 0
    still holds it after [n] frames without detections exactly when
    [n <= 10]: it is there, with counter 10, after the 10th and gone after
    the 11th. *)
Theorem unmatched_track_removed_after_ten (self : PersonTracker)
    (detections : list rect) (c : point) (nid : Z) :
  reachable self ->
  (exists ids self' asg,
     update self detections = Ret (ids, self') /\
     matching self detections = Ret asg /\
     forall k t, lookup Z.eqb k (tracks self) = Some t ->
       assigned k asg = false ->
       lookup Z.eqb k (tracks self') =
         (if disappeared t + 1 >? 10 then None
          else Some (mkTrack (centroid t) (disappeared t + 1))) /\
       (In k (dict_keys (tracks self')) <-> disappeared t + 1 <= 10)) /\
  (forall n, exists self',
      run (mkTracker [(1, mkTrack c 0)] nid) (quiet n) = Ret self' /\
      (In 1 (dict_keys (tracks self')) <-> (n <= 10)%nat)) /\
  (exists self',
      run (mkTracker [(1, mkTrack c 0)] nid) (quiet 10) = Ret self' /\
      lookup Z.eqb 1 (tracks self') = Some (mkTrack c 10)) /\
  (exists self',
      run (mkTracker [(1, mkTrack c 0)] nid) (quiet 11) = Ret self' /\
      lookup Z.eqb 1 (tracks self') = None).
Proof.
  intros R. split; [|split; [|split]].
  - destruct (@unmatched_after_update self detections (reachable_wf R))
      as (ids & self' & asg & E & M & H).
    exists ids, self', asg. do 2 (split; [assumption|]).
    intros k t Ht A. pose proof (H k t Ht A) as Hl. split; [exact Hl|].
    destruct (disappeared t + 1 >? 10) eqn:G.
    + apply (lookup_None _ Z.eqb_eq) in Hl.
      rewrite Z.gtb_ltb in G. apply Z.ltb_lt in G. split; [tauto | lia].
    + apply lookup_Some_key in Hl.
      rewrite Z.gtb_ltb in G. apply Z.ltb_ge in G. tauto.
  - intros n. eexists. split; [apply run_quiet_single; lia|].
    cbn [tracks]. destruct (0 + Z.of_nat n <=? 10) eqn:E.
    + apply Z.leb_le in E. simpl. split; [lia | tauto].
    + apply Z.leb_gt in E. simpl. split; [tauto | lia].
  - eexists. split; [apply run_quiet_single; lia|]. reflexivity.
  - eexists. split; [apply run_quiet_single; lia|]. reflexivity.
Qed.

(** A tracker whose track 1 went unmatched for ten frames and then sees a
    detection far from it: track 1 passes 10 and lines 106-108 remove it. *)
Lemma unmatched_track_removed_after_ten_witness :
  (exists ids self' asg,
     update (mkTracker [(1, mkTrack (5, 5) 10)] 2) [(300, 300, 320, 320)]
     = Ret (ids, self') /\
     matching (mkTracker [(1, mkTrack (5, 5) 10)] 2) [(300, 300, 320, 320)]
     = Ret asg /\
     forall k t, lookup Z.eqb k [(1, mkTrack (5, 5) 10)] = Some t ->
       assigned k asg = false ->
       lookup Z.eqb k (tracks self') =
         (if disappeared t + 1 >? 10 then None
          else Some (mkTrack (centroid t) (disappeared t + 1))) /\
       (In k (dict_keys (tracks self')) <-> disappeared t + 1 <= 10)) /\
  (forall n, exists self',
      run (mkTracker [(1, mkTrack (0, 0) 0)] 2) (quiet n) = Ret self' /\
      (In 1 (dict_keys (tracks self')) <-> (n <= 10)%nat)) /\
  (exists self',
      run (mkTracker [(1, mkTrack (0, 0) 0)] 2) (quiet 10) = Ret self' /\
      lookup Z.eqb 1 (tracks self') = Some (mkTrack (0, 0) 10)) /\
  (exists self',
      run (mkTracker [(1, mkTrack (0, 0) 0)] 2) (quiet 11) = Ret self' /\
      lookup Z.eqb 1 (tracks self') = None).
Proof.
  apply (@unmatched_track_removed_after_ten
           (mkTracker [(1, mkTrack (5, 5) 10)] 2) [(300, 300, 320, 320)]
           (0, 0) 2).
  apply (@run_reachable ([(0, 0, 10, 10)] :: quiet 10) init);
    [exact reach_init | reflexivity].
Defined.

(** The call of the witness: track 1 is removed at line 108 and the
    detection becomes track 2. *)
Example stale_track_removed_with_detections :
  update (mkTracker [(1, mkTrack (5, 5) 10)] 2) [(300, 300, 320, 320)]
  = Ret ([2], mkTracker [(2, mkTrack (310, 310) 0)] 3).
Proof. reflexivity. Qed.

(** ** The counts drawn by [process_video], with the arithmetic faults *)

Lemma overlay_counts_checked_exact (frames : list (list rect))
    (self : PersonTracker) :
  NoDup (dict_keys (tracks self)) ->
  tracks_in_range (tracks self) = true ->
  forallb (forallb rect_in_range) frames = true ->
  overlay_counts_checked self frames = overlay_counts self frames.
Proof.
  revert self. induction frames as [|ds rest IH]; intros self N Hs Hf.
  - reflexivity.
  - cbn [forallb] in Hf. apply andb_true_iff in Hf. destruct Hf as [Hd Hr].
    cbn [overlay_counts_checked overlay_counts].
    rewrite update_checked_exact by assumption.
    destruct (update_in_range self ds N Hs Hd) as (ids & s1 & E & N1 & R1).
    rewrite E. cbn [bind snd fst]. now rewrite (IH s1 N1 R1 Hr).
Qed.

(** X10.  The counts [process_video] draws, one per frame, when every
    rectangle of the video has integer coordinates of magnitude at most
    [2 ^ 30]: the tracker raises on no frame (the arithmetic faults of lines
    44 and 74 included), the count of a frame is at least its number of
    detections, and it is never more than the number of detections seen up
    to and including that frame. *)
Theorem overlay_count_bounds (frames : list (list rect)) :
  forallb (forallb rect_in_range) frames = true ->
  exists counts,
    overlay_counts_checked init frames = Ret counts /\
    length counts = length frames /\
    forall k detections c,
      nth_error frames k = Some detections ->
      nth_error counts k = Some c ->
      (length detections <= c)%nat /\
      (c <= detections_in (firstn (S k) frames))%nat.
Proof.
  intros Hf.
  destruct (@overlay_counts_from frames init) as (counts & E & Hl & Hall).
  { split; [simpl; lia|]. split; [constructor | simpl; tauto]. }
  exists counts. split.
  { rewrite overlay_counts_checked_exact; [exact E | constructor |
      reflexivity | assumption]. }
  split; [assumption|].
  intros k detections c Hk Hc.
  destruct (Hall k detections c Hk Hc) as (_ & H1 & H2).
  split; [assumption|]. cbn [init next_id] in H2. lia.
Qed.

Lemma overlay_count_bounds_witness :
  exists counts,
    overlay_counts_checked init
      [[(0, 0, 10, 10); (300, 300, 320, 320)]; [(2, 2, 12, 12)]]
    = Ret counts /\
    length counts = 2%nat /\
    forall k detections c,
      nth_error [[(0, 0, 10, 10); (300, 300, 320, 320)]; [(2, 2, 12, 12)]] k
      = Some detections ->
      nth_error counts k = Some c ->
      (length detections <= c)%nat /\
      (c <= detections_in
              (firstn (S k)
                 [[(0, 0, 10, 10); (300, 300, 320, 320)];
                  [(2, 2, 12, 12)]]%Z))%nat.
Proof.
  apply (@overlay_count_bounds
           [[(0, 0, 10, 10); (300, 300, 320, 320)]; [(2, 2, 12, 12)]]).
  reflexivity.
Defined.
